(** * pcbdl: the connectivity core of [pcbdl/base.py]

    A shallow embedding of the object graph built by [base.py]: nets,
    template pins, particular pins and parts live in a store indexed by
    allocation order, and every method is a computation that threads the
    store and may raise.  A raised exception keeps the store as it was at
    the point of the [raise], exactly as in Python, where mutations made
    before the exception stay visible.

    Strings are taken to be ASCII, so that [str.upper] is the letter-wise
    map on ['a'..'z']. *)

From Stdlib Require Import String Ascii List Arith Lia Bool DecimalString.
From stdpp Require Import base option list.
Import ListNotations.
Local Open Scope string_scope.
Local Open Scope list_scope.

(** ** Enumerations *)

Module ConnectDirection.
Inductive t := UNKNOWN | IN | OUT.
#[global] Instance eq_dec : EqDecision t.
Proof. solve_decision. Defined.
End ConnectDirection.

Module PinType.
Inductive t :=
  UNKNOWN | PRIMARY | SECONDARY | POWER_INPUT | POWER_OUTPUT
| GROUND | INPUT | OUTPUT.
#[global] Instance eq_dec : EqDecision t.
Proof. solve_decision. Defined.
End PinType.

(** ** Strings *)

Definition upper_ascii (c : ascii) : ascii :=
  let n := nat_of_ascii c in
  if ((97 <=? n) && (n <=? 122))%nat then ascii_of_nat (n - 32) else c.

(** [str.upper] *)
Fixpoint upper (s : string) : string :=
  match s with
  | EmptyString => EmptyString
  | String c r => String (upper_ascii c) (upper r)
  end.

(** [str(i)] for a non-negative integer *)
Definition str (i : nat) : string := NilZero.string_of_uint (Nat.to_uint i).

#[global] Instance string_eq_dec : EqDecision string := string_dec.

(** ** Objects and the store *)

(** References are positions in the store, in allocation order. *)
Abbreviation net_ref := nat (only parsing).
Abbreviation pin_ref := nat (only parsing).
Abbreviation part_ref := nat (only parsing).
Abbreviation class_ref := nat (only parsing).
Abbreviation plugin_cls := nat (only parsing).

(** The exceptions of [base.py], one constructor per [raise] site (and one
    per implicit raise of the interpreter that the modelled code can reach). *)
Inductive exn :=
| ValueError_already_connected   (* net setter: pin is already connected to a net *)
| ValueError_not_power_pin       (* ParticularPin.__init__: chosen well is not a power pin *)
| KeyError_pin_name              (* _PinList.__getitem__: no pin under that name *)
| KeyError_well                  (* ParticularPin.__init__: couldn't find voltage well pin *)
| NotImplementedError_nets       (* Net.connect: can't connect nets together yet *)
| NotImplementedError_get_pin    (* Part.get_pin_to_connect *)
| TypeError_no_pin               (* Net.connect: don't know how to get pin *)
| TypeError_operand              (* None << x *)
| IndexError_names               (* Pin.name on an empty names tuple *)
| AssertionError_numbers         (* ParticularPin.__init__: numbers is None *)
| DanglingReference.             (* a reference to an object that was never allocated;
                                    no Python program can hold one *)

(** The spec's names for the failures. *)
Definition PinAlreadyConnected := ValueError_already_connected.
Definition InvalidWellPinType := ValueError_not_power_pin.
Definition UnknownWellPin := KeyError_well.
Definition UnknownPin := KeyError_pin_name.
Definition NetToNetConnectionUnsupported := NotImplementedError_nets.
Definition UnsupportedConnectTarget := TypeError_no_pin.

(** [class Net]: [name] and the ordered dict [_connections]. *)
Record Net := mkNet {
  name : option string;
  _connections : list (pin_ref * ConnectDirection.t)
}.

(** [class Pin]: the template of a pin. *)
Record Pin := mkPin {
  names : list string;
  numbers : option (list string);
  type : PinType.t;
  well_name : option string
}.

(** [class ParticularPin(Pin)].  [inherited] is the instance [__dict__]
    copied from the template (with [numbers] possibly overridden);
    [well] is only assigned when the template names a well. *)
Record ParticularPin := mkParticularPin {
  inherited : Pin;
  _part_pin_instance : Pin;
  part : part_ref;
  well : option pin_ref;
  _net : option net_ref
}.

(** The [names] argument of [Pin]: one string or a sequence of strings. *)
Inductive maybenames :=
| NameStr (s : string)
| NameSeq (l : list string).

(** An entry of a class's [PINS] list: bare names, or a [Pin] instance. *)
Inductive pins_entry :=
| Plain (m : maybenames)
| PinInst (p : Pin).

(** A subclass of [Part]: its class attributes. *)
Record PartClass := mkPartClass {
  PINS : list pins_entry;
  REFDES_PREFIX : string;
  class_value : string;
  class_package : option string
}.

(** [class Part]: the instance attributes.  [pins] is the [_PinList]
    (an ordered dict keyed by the first name); [attrs] is the part of the
    instance [__dict__] that holds one entry per pin name. *)
Record Part := mkPart {
  part_class : class_ref;
  value : string;
  _refdes : option string;
  package : option string;
  populated : bool;
  pins : list (string * pin_ref);
  attrs : list (string * pin_ref)
}.

(** What a plugin's [init] was called on. *)
Inductive instance :=
| INet (n : net_ref)
| IPin (p : Pin)
| IParticularPin (p : pin_ref)
| IPart (p : part_ref).

(** The classes that carry a [_plugins] list. *)
Inductive core_class := CNet | CPin | CParticularPin | CPart.

(** The store.  The bodies of plugin [init] methods are outside [base.py];
    a call [plugin.init(obj)] is recorded in [hook_log], oldest first. *)
Record Store := mkStore {
  nets : list Net;
  ppins : list ParticularPin;
  parts : list Part;
  classes : list PartClass;
  Net_plugins : list plugin_cls;
  Pin_plugins : list plugin_cls;
  ParticularPin_plugins : list plugin_cls;
  Part_plugins : list plugin_cls;
  hook_log : list (plugin_cls * instance)
}.

Definition empty_store : Store := mkStore [] [] [] [] [] [] [] [] [].

Definition with_nets (f : list Net → list Net) (s : Store) : Store :=
  mkStore (f (nets s)) (ppins s) (parts s) (classes s) (Net_plugins s)
    (Pin_plugins s) (ParticularPin_plugins s) (Part_plugins s) (hook_log s).
Definition with_ppins (f : list ParticularPin → list ParticularPin) (s : Store) : Store :=
  mkStore (nets s) (f (ppins s)) (parts s) (classes s) (Net_plugins s)
    (Pin_plugins s) (ParticularPin_plugins s) (Part_plugins s) (hook_log s).
Definition with_parts (f : list Part → list Part) (s : Store) : Store :=
  mkStore (nets s) (ppins s) (f (parts s)) (classes s) (Net_plugins s)
    (Pin_plugins s) (ParticularPin_plugins s) (Part_plugins s) (hook_log s).
Definition with_classes (f : list PartClass → list PartClass) (s : Store) : Store :=
  mkStore (nets s) (ppins s) (parts s) (f (classes s)) (Net_plugins s)
    (Pin_plugins s) (ParticularPin_plugins s) (Part_plugins s) (hook_log s).
Definition with_hook_log (f : list (plugin_cls * instance) → list (plugin_cls * instance))
    (s : Store) : Store :=
  mkStore (nets s) (ppins s) (parts s) (classes s) (Net_plugins s)
    (Pin_plugins s) (ParticularPin_plugins s) (Part_plugins s) (f (hook_log s)).
Definition register (c : core_class) (pl : plugin_cls) (s : Store) : Store :=
  match c with
  | CNet => mkStore (nets s) (ppins s) (parts s) (classes s) (Net_plugins s ++ [pl])
      (Pin_plugins s) (ParticularPin_plugins s) (Part_plugins s) (hook_log s)
  | CPin => mkStore (nets s) (ppins s) (parts s) (classes s) (Net_plugins s)
      (Pin_plugins s ++ [pl]) (ParticularPin_plugins s) (Part_plugins s) (hook_log s)
  | CParticularPin => mkStore (nets s) (ppins s) (parts s) (classes s) (Net_plugins s)
      (Pin_plugins s) (ParticularPin_plugins s ++ [pl]) (Part_plugins s) (hook_log s)
  | CPart => mkStore (nets s) (ppins s) (parts s) (classes s) (Net_plugins s)
      (Pin_plugins s) (ParticularPin_plugins s) (Part_plugins s ++ [pl]) (hook_log s)
  end.

(** ** Computations that thread the store and may raise *)

Inductive outcome (A : Type) :=
| Ok (a : A)
| Raise (e : exn).
Arguments Ok {A} a.
Arguments Raise {A} e.

Definition M (A : Type) : Type := Store → Store * outcome A.

Definition ret {A} (a : A) : M A := fun s => (s, Ok a).
Definition raise {A} (e : exn) : M A := fun s => (s, Raise e).
Definition bind {A B} (m : M A) (k : A → M B) : M B :=
  fun s => match m s with
           | (s', Ok a) => k a s'
           | (s', Raise e) => (s', Raise e)
           end.
Definition get : M Store := fun s => (s, Ok s).
Definition modify (f : Store → Store) : M unit := fun s => (f s, Ok tt).

#[global] Instance M_ret : MRet M := @ret.
#[global] Instance M_bind : MBind M := fun A B k m => bind m k.

(** [try: m except KeyError: raise h] *)
Definition except_KeyError {A} (m : M A) (h : exn) : M A :=
  fun s => match m s with
           | (s', Raise KeyError_pin_name) => (s', Raise h)
           | r => r
           end.

(** [for x in l: body(x)] *)
Fixpoint for_each {A} (l : list A) (body : A → M unit) : M unit :=
  match l with
  | [] => ret tt
  | x :: r => body x ;; for_each r body
  end.

(** Dereferencing. *)
Definition deref {A} (proj : Store → list A) (r : nat) : M A :=
  fun s => match proj s !! r with
           | Some o => (s, Ok o)
           | None => (s, Raise DanglingReference)
           end.

(** ** Ordered dicts *)

Section OrderedDict.
Context {K V : Type} `{EqDecision K}.

(** [d[k] = v]: an existing key keeps its position, a new key goes last. *)
Fixpoint setitem (k : K) (v : V) (d : list (K * V)) : list (K * V) :=
  match d with
  | [] => [(k, v)]
  | (k', v') :: r =>
      if decide (k' = k) then (k, v) :: r else (k', v') :: setitem k v r
  end.

(** [d.get(k)] *)
Fixpoint getitem (k : K) (d : list (K * V)) : option V :=
  match d with
  | [] => None
  | (k', v') :: r => if decide (k' = k) then Some v' else getitem k r
  end.

Definition keys (d : list (K * V)) : list K := map fst d.
Definition values (d : list (K * V)) : list V := map snd d.
End OrderedDict.

(** ** The plugin registry *)

(** [plugin(plugin_cls)]: the plugin is appended to the [_plugins] list of
    each of its base classes.  The methods it installs on those classes are
    not modelled: plugins are taken to add behaviour, not to replace the
    methods embedded here. *)
Definition plugin (pl : plugin_cls) (bases : list core_class) : M unit :=
  for_each bases (fun original_cls => modify (register original_cls pl)).

(** [for plugin in self._plugins: plugin.init(self)] *)
Definition init_plugins (_plugins : Store → list plugin_cls) (self : instance) : M unit :=
  s ← get;
  for_each (_plugins s) (fun pl => modify (with_hook_log (fun l => l ++ [(pl, self)]))).

(** ** [class Net] and the [net] property of [ParticularPin] *)

(** Anything a script can hand to [connect]. *)
#[warnings="-register-all"]
Inductive pyvalue :=
| VPart (p : part_ref)
| VPin (p : pin_ref)
| VNet (n : net_ref)
| VIter (items : list pyvalue)   (* any iterable: list, tuple, _PinList, ... *)
| VOther.                        (* anything else *)

Definition _maybe_single (o : pyvalue) : list pyvalue :=
  match o with
  | VIter items => items
  | _ => [o]
  end.

Definition Net___init__ (name : option string) : M net_ref :=
  s ← get;
  let self := length (nets s) in
  modify (with_nets (fun l => l ++ [mkNet (upper <$> name) []]));;
  init_plugins Net_plugins (INet self);;
  mret self.

Definition set__net (new_net : option net_ref) (p : ParticularPin) : ParticularPin :=
  mkParticularPin (inherited p) (_part_pin_instance p) (part p) (well p) new_net.

Definition set__connections (c : list (pin_ref * ConnectDirection.t)) (n : Net) : Net :=
  mkNet (name n) c.

(** [@net.setter] *)
Definition ParticularPin_net_setter (self : pin_ref) (new_net : net_ref) : M unit :=
  pin ← deref ppins self;
  match _net pin with
  | Some _ => raise ValueError_already_connected
  | None => modify (with_ppins (alter (set__net (Some new_net)) self))
  end.

(** [Part.get_pin_to_connect]: the assertion holds for every [PinType]. *)
Definition Part_get_pin_to_connect (self : part_ref) (pin_type : PinType.t)
    : M (option pin_ref) :=
  raise NotImplementedError_get_pin.

(** [self._connections[pin] = direction] *)
Definition Net_connections_setitem (self : net_ref) (pin : pin_ref)
    (direction : ConnectDirection.t) : M unit :=
  net ← deref nets self;
  modify (with_nets (alter (set__connections (setitem pin direction (_connections net))) self)).

(** One turn of the loop of [Net.connect].  An [isinstance] test inspects
    the object that the reference leads to. *)
Definition Net_connect_body (self : net_ref) (direction : ConnectDirection.t)
    (pin_type : PinType.t) (other : pyvalue) : M unit :=
  pin ← (match other with
         | VPart p => deref parts p;; Part_get_pin_to_connect p pin_type
         | _ => mret None
         end);
  pin ← (match other with
         | VPin p => deref ppins p;; mret (Some p)
         | _ => mret pin
         end);
  match other with
  | VNet n => deref nets n;; raise NotImplementedError_nets
  | _ => mret tt
  end;;
  match pin with
  | None => raise TypeError_no_pin
  | Some pin =>
      Net_connections_setitem self pin direction;;
      ParticularPin_net_setter pin self
  end.

Definition Net_connect (self : net_ref) (others : pyvalue)
    (direction : ConnectDirection.t) (pin_type : PinType.t) : M unit :=
  for_each (_maybe_single others) (Net_connect_body self direction pin_type).

Definition Net___lshift__ (self : net_ref) (others : pyvalue) : M net_ref :=
  Net_connect self others ConnectDirection.IN PinType.PRIMARY;;
  mret self.

Definition Net___rshift__ (self : net_ref) (others : pyvalue) : M net_ref :=
  Net_connect self others ConnectDirection.OUT PinType.PRIMARY;;
  mret self.

(** [Net.connections] *)
Definition connections (n : Net) : list pin_ref := keys (_connections n).

(** [ParticularPin._create_anonymous_net = Net] *)
Definition ParticularPin__create_anonymous_net : M net_ref := Net___init__ None.

(** [@property net]: what the getter returns is the [_net] field as read
    at the [return]. *)
Definition ParticularPin_net (self : pin_ref) : M (option net_ref) :=
  pin ← deref ppins self;
  match _net pin with
  | None =>
      fresh_net ← ParticularPin__create_anonymous_net;
      Net_connect fresh_net (VPin self) ConnectDirection.UNKNOWN PinType.PRIMARY
  | Some _ => mret tt
  end;;
  pin ← deref ppins self;
  mret (_net pin).

(** [x << others] where [x] is what the getter returned. *)
Definition lshift_value (x : option net_ref) (others : pyvalue) : M net_ref :=
  match x with
  | Some n => Net___lshift__ n others
  | None => raise TypeError_operand
  end.

Definition rshift_value (x : option net_ref) (others : pyvalue) : M net_ref :=
  match x with
  | Some n => Net___rshift__ n others
  | None => raise TypeError_operand
  end.

Definition ParticularPin___lshift__ (self : pin_ref) (others : pyvalue) : M net_ref :=
  pin ← deref ppins self;
  match _net pin with
  | None =>
      fresh ← ParticularPin__create_anonymous_net;
      Net___rshift__ fresh (VPin self);;
      mret tt
  | Some _ => mret tt
  end;;
  n ← ParticularPin_net self;
  lshift_value n others.

Definition ParticularPin___rshift__ (self : pin_ref) (others : pyvalue) : M net_ref :=
  pin ← deref ppins self;
  match _net pin with
  | None =>
      fresh ← ParticularPin__create_anonymous_net;
      Net___lshift__ fresh (VPin self);;
      mret tt
  | Some _ => mret tt
  end;;
  n ← ParticularPin_net self;
  rshift_value n others.

(** ** [class Pin] *)

Definition Pin___init__ (names : maybenames) (numbers : option (list string))
    (type : PinType.t) (well : option string) : M Pin :=
  let names := match names with
               | NameStr s => [s]
               | NameSeq l => l
               end in
  let self := mkPin (map upper names) numbers type well in
  init_plugins Pin_plugins (IPin self);;
  mret self.

(** [Pin.name]: [self.names[0]] *)
Definition Pin_name (self : Pin) : M string :=
  match names self with
  | n :: _ => mret n
  | [] => raise IndexError_names
  end.

(** ** [class _PinList] *)

(** The slow path of [__getitem__]: the first pin, in dict order, that
    carries the name. *)
Fixpoint _PinList_scan (vals : list pin_ref) (pin_name : string) : M pin_ref :=
  match vals with
  | [] => raise KeyError_pin_name
  | pin :: rest =>
      o ← deref ppins pin;
      if decide (upper pin_name ∈ names (inherited o)) then mret pin
      else _PinList_scan rest pin_name
  end.

(** [_PinList.__getitem__] on a string key. *)
Definition _PinList___getitem__ (self : list (string * pin_ref)) (pin_name : string)
    : M pin_ref :=
  let pin_name := upper pin_name in
  match getitem pin_name self with
  | Some pin => mret pin
  | None => _PinList_scan (values self) pin_name
  end.

(** [_PinList.__getitem__] on an integer: [tuple(self.values())[pin_name]],
    with Python's indexing from the end for a negative index. *)
Definition _PinList___getitem___int (self : list (string * pin_ref)) (pin_name : Z)
    : M pin_ref :=
  let vals := values self in
  let len := Z.of_nat (length vals) in
  let i := if (pin_name <? 0)%Z then (pin_name + len)%Z else pin_name in
  if ((0 <=? i) && (i <? len))%Z then
    match vals !! Z.to_nat i with
    | Some pin => mret pin
    | None => raise IndexError_names
    end
  else raise IndexError_names.

(** [_PinList.__iter__]: the pins, not the keys. *)
Definition _PinList___iter__ (self : list (string * pin_ref)) : list pin_ref :=
  values self.

(** ** [class ParticularPin] *)

Definition set_numbers (n : option (list string)) (p : Pin) : Pin :=
  mkPin (names p) n (type p) (well_name p).

Definition is_power (t : PinType.t) : bool :=
  match t with
  | PinType.POWER_INPUT | PinType.POWER_OUTPUT => true
  | _ => false
  end.

(** [ParticularPin.__init__].  No [_plugins] loop runs here: the source
    has none, and [Pin.__init__] is deliberately not called. *)
Definition ParticularPin___init__ (part_instance : part_ref) (part_pin_instance : Pin)
    (number : option string) : M pin_ref :=
  let d := part_pin_instance in
  let d := match number with
           | Some n => set_numbers (Some [n]) d
           | None => d
           end in
  match numbers d with
  | None => raise AssertionError_numbers
  | Some _ => mret tt
  end;;
  well ← (match well_name part_pin_instance with
          | Some well_name =>
              p ← deref parts part_instance;
              w ← except_KeyError (_PinList___getitem__ (pins p) well_name) KeyError_well;
              wp ← deref ppins w;
              if is_power (type (inherited wp)) then mret (Some w)
              else raise ValueError_not_power_pin
          | None => mret None
          end);
  s ← get;
  let self := length (ppins s) in
  modify (with_ppins (fun l => l ++ [mkParticularPin d part_pin_instance part_instance well None]));;
  mret self.

(** ** [class Part] *)

Definition set_pins (d : list (string * pin_ref)) (p : Part) : Part :=
  mkPart (part_class p) (value p) (_refdes p) (package p) (populated p) d (attrs p).
Definition set_attrs (d : list (string * pin_ref)) (p : Part) : Part :=
  mkPart (part_class p) (value p) (_refdes p) (package p) (populated p) (pins p) d.
Definition set_PINS (l : list pins_entry) (c : PartClass) : PartClass :=
  mkPartClass l (REFDES_PREFIX c) (class_value c) (class_package c).

(** [enumerate(l)], counting from [i]. *)
Fixpoint enumerate_from {A} (i : nat) (l : list A) : list (nat * A) :=
  match l with
  | [] => []
  | x :: r => (i, x) :: enumerate_from (S i) r
  end.

(** First loop of [_generate_pin_instances]: every entry that is not a
    [Pin] is replaced by [Pin(maybenames)]. *)
Fixpoint normalize_PINS (l : list pins_entry) : M (list Pin) :=
  match l with
  | [] => mret []
  | e :: r =>
      p ← (match e with
           | PinInst p => mret p
           | Plain maybenames =>
               Pin___init__ maybenames None PinType.UNKNOWN None
           end);
      ps ← normalize_PINS r;
      mret (p :: ps)
  end.

(** One turn of the second loop of [_generate_pin_instances]. *)
Definition _generate_pin_instances_body (self : part_ref) (ip : nat * Pin) : M unit :=
  let '(i, part_class_pin) := ip in
  let pin_number := match numbers part_class_pin with
                    | None => Some (str i)
                    | Some _ => None
                    end in
  pin ← ParticularPin___init__ self part_class_pin pin_number;
  o ← deref ppins pin;
  pin_name ← Pin_name (inherited o);
  modify (with_parts (alter (fun P => set_pins (setitem pin_name pin (pins P)) P) self));;
  for_each (names (inherited o)) (fun name =>
    modify (with_parts (alter (fun P => set_attrs (setitem name pin (attrs P)) P) self))).

(** [Part._generate_pin_instances].  The first loop overwrites the class's
    [PINS] list entry by entry; none of its steps can raise, so the list is
    written back once, after the loop. *)
Definition Part__generate_pin_instances (self : part_ref) : M unit :=
  P ← deref parts self;
  c ← deref classes (part_class P);
  ps ← normalize_PINS (PINS c);
  modify (with_classes (alter (set_PINS (map PinInst ps)) (part_class P)));;
  modify (with_parts (alter (set_pins []) self));;
  for_each (enumerate_from 0 ps) (_generate_pin_instances_body self).

Definition Part___init__ (cls : class_ref) (value refdes package : option string)
    (populated : bool) : M part_ref :=
  c ← deref classes cls;
  s ← get;
  let self := length (parts s) in
  let value := match value with
               | None => class_value c
               | Some v => v
               end in
  let package := match package with
                 | Some p => Some p
                 | None => class_package c
                 end in
  modify (with_parts (fun l => l ++ [mkPart cls value refdes package populated [] []]));;
  Part__generate_pin_instances self;;
  init_plugins Part_plugins (IPart self);;
  mret self.

Definition set__refdes (r : option string) (p : Part) : Part :=
  mkPart (part_class p) (value p) r (package p) (populated p) (pins p) (attrs p).

Section Refdes.
(** What the getter computes for a part without a reference designator:
    ["%s?%05x" % (self.REFDES_PREFIX, id(self) // 32 & 0xfffff)].  It
    depends on the address of the object, which the store does not have. *)
Variable generated_refdes : part_ref → M string.

(** [@property refdes] *)
Definition Part_refdes (self : part_ref) : M string :=
  P ← deref parts self;
  match _refdes P with
  | None => generated_refdes self
  | Some r => mret r
  end.

(** [@refdes.setter] *)
Definition Part_refdes_setter (self : part_ref) (new_value : string) : M unit :=
  deref parts self;;
  modify (with_parts (alter (set__refdes (Some (upper new_value))) self)).

(** [Part.__repr__] *)
Definition Part___repr__ (self : part_ref) : M string := Part_refdes self.

(** [Part.__str__] *)
Definition Part___str__ (self : part_ref) : M string :=
  r ← Part_refdes self;
  P ← deref parts self;
  mret (r ++ " - " ++ value P ++ (if populated P then "" else " DNS"))%string.
End Refdes.

(** A [class X(Part)] statement. *)
Definition define_class (c : PartClass) : M class_ref :=
  s ← get;
  modify (with_classes (fun l => l ++ [c]));;
  mret (length (classes s)).

(** ** Scripts *)

(** The statements of a script.  A statement that raises is caught by the
    script; the store keeps whatever the statement did before raising. *)
Inductive stmt :=
| SPlugin (pl : plugin_cls) (bases : list core_class)
| SClass (c : PartClass)
| SNet (name : option string)
| SPart (cls : class_ref) (value refdes package : option string) (populated : bool)
| SConnect (n : net_ref) (others : pyvalue) (d : ConnectDirection.t) (t : PinType.t)
| SNetLshift (n : net_ref) (others : pyvalue)
| SNetRshift (n : net_ref) (others : pyvalue)
| SPinLshift (p : pin_ref) (others : pyvalue)
| SPinRshift (p : pin_ref) (others : pyvalue)
| SPinNet (p : pin_ref).

Definition void {A} (m : M A) : M unit := m ;; mret tt.

Definition exec (st : stmt) : M unit :=
  match st with
  | SPlugin pl bases => plugin pl bases
  | SClass c => void (define_class c)
  | SNet name => void (Net___init__ name)
  | SPart cls v r p pop => void (Part___init__ cls v r p pop)
  | SConnect n others d t => Net_connect n others d t
  | SNetLshift n others => void (Net___lshift__ n others)
  | SNetRshift n others => void (Net___rshift__ n others)
  | SPinLshift p others => void (ParticularPin___lshift__ p others)
  | SPinRshift p others => void (ParticularPin___rshift__ p others)
  | SPinNet p => void (ParticularPin_net p)
  end.

(** The store after a statement, raised or not. *)
Definition step (st : stmt) (s : Store) : Store := fst (exec st s).

Definition run (script : list stmt) (s : Store) : Store :=
  fold_left (fun s st => step st s) script s.

Definition reachable (s : Store) : Prop := ∃ script, s = run script empty_store.

(** A statement, or a whole script, that did not raise. *)
Definition succeeds (st : stmt) (s : Store) : bool :=
  match snd (exec st s) with
  | Ok _ => true
  | Raise _ => false
  end.

Fixpoint all_succeed (script : list stmt) (s : Store) : bool :=
  match script with
  | [] => true
  | st :: r => succeeds st s && all_succeed r (step st s)
  end.

(** * Reasoning about computations *)

Ltac munfold :=
  unfold mbind, M_bind, mret, M_ret, bind, ret, raise, deref, modify, get,
    void, except_KeyError in *.

(** [pin.net] as stored: [None] for an unset field (or no such pin). *)
Definition pin_net (s : Store) (p : pin_ref) : option net_ref :=
  ppins s !! p ≫= _net.

(** The member map of a net, empty if there is no such net. *)
Definition members (s : Store) (n : net_ref) : list (pin_ref * ConnectDirection.t) :=
  match nets s !! n with
  | Some N => _connections N
  | None => []
  end.

(** ** Notions used in the statements *)

(** A relation that every step of a computation respects, raised or not. *)
Definition stable {A} (R : Store → Store → Prop) (m : M A) : Prop :=
  ∀ s, R s (fst (m s)).

(** A relation that every computation that returns respects. *)
Definition stable_ok {A} (R : Store → Store → Prop) (m : M A) : Prop :=
  ∀ s s' a, m s = (s', Ok a) → R s s'.

(** No pin loses or changes the net it has. *)
Definition keeps (s s' : Store) : Prop :=
  ∀ p n, pin_net s p = Some n → pin_net s' p = Some n.

(** No net is deallocated. *)
Definition nets_grow (s s' : Store) : Prop := length (nets s) ≤ length (nets s').

(** [class Resistor(Part): PINS = ["A", "B"]] *)
Definition Resistor : PartClass :=
  mkPartClass [Plain (NameStr "A"); Plain (NameStr "B")] "R" "" None.

(** A resistor and the nets [N1] and [N2]. *)
Definition two_nets : Store :=
  run [SClass Resistor; SPart 0 None None None true; SNet (Some "N1"); SNet (Some "N2")]
    empty_store.

(** The store after [plugin.init(x)] has run for every plugin of [l]. *)
Definition logged (l : list nat) (x : instance) (s : Store) : Store :=
  with_hook_log (fun h => h ++ map (fun pl => (pl, x)) l) s.

(** The store after [Net(name)]. *)
Definition with_new_net (name : option string) (s : Store) : Store :=
  logged (Net_plugins s) (INet (length (nets s)))
    (with_nets (fun l => l ++ [mkNet (upper <$> name) []]) s).

(** The store after a fresh anonymous net has taken pin [p] in direction [d]. *)
Definition seeded (p : nat) (d : ConnectDirection.t) (s : Store) : Store :=
  with_ppins (alter (set__net (Some (length (nets s)))) p)
    (with_nets (fun l => l ++ [mkNet None [(p, d)]])
       (logged (Net_plugins s) (INet (length (nets s))) s)).

(** A resistor whose pins have never been connected. *)
Definition lone_resistor : Store :=
  run [SClass Resistor; SPart 0 None None None true] empty_store.

(** No net is allocated. *)
Definition same_net_count (s s' : Store) : Prop := length (nets s') = length (nets s).

(** The pins of a part's pin map whose type is [t], in map order. *)
Definition pins_of_type (s : Store) (part_instance : nat) (t : PinType.t) : list nat :=
  match parts s !! part_instance with
  | Some P =>
      filter (fun p => (type ∘ inherited) <$> ppins s !! p = Some t) (values (pins P))
  | None => []
  end.

(** A part type with a single pin, of type [PRIMARY]. *)
Definition OnePrimary : PartClass :=
  mkPartClass [PinInst (mkPin ["P"] None PinType.PRIMARY None)] "U" "" None.

(** One [OnePrimary] part and one net. *)
Definition one_primary : Store :=
  run [SClass OnePrimary; SPart 0 None None None true; SNet (Some "SIG")] empty_store.

(** The template pin that an entry of [PINS] stands for. *)
Definition spec_of (e : pins_entry) : Pin :=
  match e with
  | PinInst p => p
  | Plain (NameStr s) => mkPin [upper s] None PinType.UNKNOWN None
  | Plain (NameSeq l) => mkPin (map upper l) None PinType.UNKNOWN None
  end.

(** The [Pin] hooks that fire while the bare entries of [l] are normalized. *)
Definition pin_hooks (reg : list nat) (l : list pins_entry) : list (nat * instance) :=
  flat_map (fun e => match e with
                     | Plain _ => map (fun pl => (pl, IPin (spec_of e))) reg
                     | PinInst _ => []
                     end) l.

(** The numbers a particular pin ends up with, at position [i] of [PINS]. *)
Definition resolved_numbers (i : nat) (spec : Pin) : list string :=
  match numbers spec with
  | None => [str i]
  | Some l => l
  end.

(** The attributes a particular pin inherits from its template. *)
Definition bound (i : nat) (spec : Pin) : Pin :=
  set_numbers (Some (resolved_numbers i spec)) spec.

(** [str(i) if part_class_pin.numbers is None else None] *)
Definition pin_number (i : nat) (spec : Pin) : option string :=
  match numbers spec with
  | None => Some (str i)
  | Some _ => None
  end.

(** What the well lookup of [ParticularPin.__init__] comes to, in pin map [d]. *)
Definition resolve_well (s : Store) (d : list (string * nat)) (w : string) : outcome nat :=
  match snd (_PinList___getitem__ d w s) with
  | Ok r =>
      match ppins s !! r with
      | Some wp =>
          if is_power (type (inherited wp)) then Ok r
          else Raise ValueError_not_power_pin
      | None => Raise DanglingReference
      end
  | Raise KeyError_pin_name => Raise KeyError_well
  | Raise e => Raise e
  end.

(** The [well] of a new pin, or the exception of its well lookup. *)
Definition well_outcome (s : Store) (d : list (string * nat)) (spec : Pin)
    : outcome (option nat) :=
  match well_name spec with
  | None => Ok None
  | Some w =>
      match resolve_well s d w with
      | Ok r => Ok (Some r)
      | Raise e => Raise e
      end
  end.

(** The store after a new particular pin has been allocated. *)
Definition with_new_pin (self i : nat) (spec : Pin) (wl : option nat) (s : Store) : Store :=
  with_ppins (fun l => l ++ [mkParticularPin (bound i spec) spec self wl None]) s.

(** The per-name attributes of a part after [for name in pin.names]. *)
Definition with_pin_attrs (pin : nat) (nms : list string) (P : Part) : Part :=
  set_attrs (fold_left (fun a n => setitem n pin a) nms (attrs P)) P.

(** [self.pins[pin.name] = pin] for the pin at position [fst js]. *)
Definition pin_map_step (base : nat) (d : list (string * nat)) (js : nat * Pin)
    : list (string * nat) :=
  match names (snd js) with
  | nm :: _ => setitem nm (base + fst js) d
  | [] => d
  end.

(** The pin map once the pins of [done] have been built, the first of them
    at reference [base]. *)
Definition pin_map (base : nat) (done : list Pin) : list (string * nat) :=
  fold_left (pin_map_step base) (enumerate_from 0 done) [].

(** What the [well] field of the pin at position [j] may hold. *)
Definition well_ok (base : nat) (done : list Pin) (j : nat) (sj : Pin)
    (wl : option nat) : Prop :=
  match well_name sj with
  | None => wl = None
  | Some w =>
      ∃ k sk, k < j ∧ wl = Some (base + k) ∧ done !! k = Some sk ∧
              upper w ∈ names sk ∧ is_power (type sk) = true
  end.

(** Part [self] with the pins of [done] built, at references [base],
    [base + 1], ... *)
Record building (self base : nat) (done : list Pin) (s : Store) : Prop := {
  b_len : length (ppins s) = base + length done;
  b_names : ∀ j sj, done !! j = Some sj → names sj ≠ [];
  b_pin : ∀ j sj, done !! j = Some sj →
          ∃ wl, ppins s !! (base + j) = Some (mkParticularPin (bound j sj) sj self wl None)
                ∧ well_ok base done j sj wl;
  b_part : ∃ Pt, parts s !! self = Some Pt ∧ pins Pt = pin_map base done
}.

(** What building pins leaves alone: nets, classes, registries, the log. *)
Record loop_frame (s s' : Store) : Prop := {
  lf_nets : nets s' = nets s;
  lf_classes : classes s' = classes s;
  lf_hook_log : hook_log s' = hook_log s;
  lf_Net_plugins : Net_plugins s' = Net_plugins s;
  lf_Pin_plugins : Pin_plugins s' = Pin_plugins s;
  lf_ParticularPin_plugins : ParticularPin_plugins s' = ParticularPin_plugins s;
  lf_Part_plugins : Part_plugins s' = Part_plugins s;
  lf_parts : length (parts s') = length (parts s)
}.

(** The part object before its pins are generated. *)
Definition new_part (cls : nat) (c : PartClass) (v r pk : option string) (pop : bool)
    : Part :=
  mkPart cls (match v with None => class_value c | Some v => v end) r
    (match pk with Some p => Some p | None => class_package c end) pop [] [].

(** The store when the second loop of [_generate_pin_instances] starts. *)
Definition prepared (cls : nat) (c : PartClass) (v r pk : option string) (pop : bool)
    (s : Store) : Store :=
  with_parts (alter (set_pins []) (length (parts s)))
    (with_classes (alter (set_PINS (map PinInst (map spec_of (PINS c)))) cls)
       (with_hook_log (fun h => h ++ pin_hooks (Pin_plugins s) (PINS c))
          (with_parts (fun l => l ++ [new_part cls c v r pk pop]) s))).

(** A part type whose two pins share the alias [A], in different casing. *)
Definition TwoA : PartClass :=
  mkPartClass [Plain (NameStr "A"); Plain (NameStr "a")] "U" "" None.

(** A part type whose only pin is declared with an empty tuple of numbers. *)
Definition NoNumbers : PartClass :=
  mkPartClass [PinInst (mkPin ["A"] (Some []) PinType.UNKNOWN None)] "U" "" None.

(** A part type whose pin [SIG] names the well [PWR] before [PWR] is declared. *)
Definition ForwardWell : PartClass :=
  mkPartClass [PinInst (mkPin ["SIG"] None PinType.INPUT (Some "PWR"));
               PinInst (mkPin ["PWR"] None PinType.POWER_INPUT None)] "U" "" None.

(** The same two pins, the well first. *)
Definition BackwardWell : PartClass :=
  mkPartClass [PinInst (mkPin ["PWR"] None PinType.POWER_INPUT None);
               PinInst (mkPin ["SIG"] None PinType.INPUT (Some "PWR"))] "U" "" None.

(** Plugin 7 extends [ParticularPin], plugins 8 and 9 extend [Part]; then a
    resistor is built. *)
Definition hooked_resistor : Store :=
  run [SPlugin 7 [CParticularPin]; SPlugin 8 [CPart]; SPlugin 9 [CPart];
       SClass Resistor; SPart 0 None None None true] empty_store.

(** A resistor, two nets, [r.A] put into [N1], then a second connect of
    [r.A], into [N2], which raises. *)
Definition reconnected : Store :=
  run [SNetLshift 0 (VPin 0); SNetLshift 1 (VPin 0)] two_nets.

(** In every store a script can reach, a pin found in a member map has its
    [_net] set (to that net or, after a rejected connect, to another). *)
Definition members_connected (s : Store) : Prop :=
  ∀ n N p, nets s !! n = Some N → p ∈ keys (_connections N) → is_Some (pin_net s p).

(** [members_connected] carries over from [s] to [s']. *)
Definition mc_kept (s s' : Store) : Prop := members_connected s → members_connected s'.

(** Two resistors and one net. *)
Definition two_resistors : list stmt :=
  [SClass Resistor; SPart 0 None None None true; SPart 0 None None None true;
   SNet (Some "N1")].

(** In every store a script can reach, raised statements included, a pin
    whose [_net] is set is in the member map of that net. *)
Definition nets_know_members (s : Store) : Prop :=
  ∀ p n, pin_net s p = Some n → p ∈ keys (members s n).

(** [nets_know_members] carries over from [s] to [s']. *)
Definition nk_kept (s s' : Store) : Prop := nets_know_members s → nets_know_members s'.

(** A pin found in the member map of a net has that net as its [_net]. *)
Definition members_linked (s : Store) : Prop :=
  ∀ n p, p ∈ keys (members s n) → pin_net s p = Some n.

(** [members_linked] carries over from [s] to [s']. *)
Definition ml_kept (s s' : Store) : Prop := members_linked s → members_linked s'.

(** What [connect] raises on a target that is not a pin. *)
Definition not_a_pin (s : Store) (b : pyvalue) (e : exn) : Prop :=
  match b with
  | VNet m => is_Some (nets s !! m) ∧ e = NotImplementedError_nets
  | VIter _ | VOther => e = TypeError_no_pin
  | VPart q => is_Some (parts s !! q) ∧ e = NotImplementedError_get_pin
  | VPin _ => False
  end.

(** The first name of each pin of a list of templates. *)
Definition first_names (specs : list Pin) : list (option string) :=
  map (fun sp => hd_error (names sp)) specs.

(** The [_plugins] list of a class. *)
Definition registry (c : core_class) (s : Store) : list nat :=
  match c with
  | CNet => Net_plugins s
  | CPin => Pin_plugins s
  | CParticularPin => ParticularPin_plugins s
  | CPart => Part_plugins s
  end.

(** No registry loses or reorders a plugin. *)
Definition registries_grow (s s' : Store) : Prop :=
  ∀ c, registry c s `prefix_of` registry c s'.

(** Every net's member list only grows, and at its end. *)
Definition members_extend (s s' : Store) : Prop :=
  ∀ n, keys (members s n) `prefix_of` keys (members s' n).

(** Every named net has a name in upper case. *)
Definition net_names_upper (s : Store) : Prop :=
  ∀ n N nm, nets s !! n = Some N → name N = Some nm → upper nm = nm.

(** [net_names_upper] carries over from [s] to [s']. *)
Definition nu_kept (s s' : Store) : Prop := net_names_upper s → net_names_upper s'.

(** No net lists a pin twice. *)
Definition connections_nodup (s : Store) : Prop :=
  ∀ n N, nets s !! n = Some N → NoDup (connections N).

(** [connections_nodup] carries over from [s] to [s']. *)
Definition cn_kept (s s' : Store) : Prop := connections_nodup s → connections_nodup s'.

(** Nets are as they were and the pins that existed are as they were. *)
Definition graph_kept (s s' : Store) : Prop :=
  nets s' = nets s ∧ ppins s `prefix_of` ppins s'.

(** The parts that existed keep their own fields; only their pin map and
    per-name attributes may change. *)
Definition part_fields_kept (s s' : Store) : Prop :=
  ∀ q P, parts s !! q = Some P →
    ∃ P', parts s' !! q = Some P' ∧ part_class P' = part_class P ∧
          value P' = value P ∧ _refdes P' = _refdes P ∧
          package P' = package P ∧ populated P' = populated P.

(** A connector with a pin of two names. *)
Definition Usb : PartClass :=
  mkPartClass [Plain (NameStr "vbus"); Plain (NameSeq ["dm"; "d-"]);
               Plain (NameSeq ["dp"; "d+"]); Plain (NameStr "gnd")] "CN" "" None.

(** A store with one [Usb] connector and one net. *)
Definition usb_script : list stmt :=
  [SPlugin 5 [CNet]; SClass Usb; SPart 0 None (Some "cn1") None true; SNet (Some "vbus")].

#[global] Instance core_class_eq_dec : EqDecision core_class.
Proof. solve_decision. Defined.

(** One [Usb] connector, built with the reference designator ["cn1"] and
    not populated. *)
Definition usb_built : Store :=
  fst (Part___init__ 0 None (Some "cn1") None false (run [SClass Usb] empty_store)).

(** ** Relations that every step of a computation respects *)

Section Stable.
Variable R : Store → Store → Prop.
Hypothesis R_refl : ∀ s, R s s.
Hypothesis R_trans : ∀ s1 s2 s3, R s1 s2 → R s2 s3 → R s1 s3.

Lemma stable_ret {A} (a : A) : stable R (mret a).
Proof. intros s. apply R_refl. Qed.

Lemma stable_raise {A} (e : exn) : stable R (@raise A e).
Proof. intros s. apply R_refl. Qed.

Lemma stable_get : stable R get.
Proof. intros s. apply R_refl. Qed.

Lemma stable_deref {A} (proj : Store → list A) r : stable R (deref proj r).
Proof. intros s. unfold deref. destruct (proj s !! r); apply R_refl. Qed.

Lemma stable_modify f : (∀ s, R s (f s)) → stable R (modify f).
Proof. intros H s. apply H. Qed.

Lemma stable_bind {A B} (m : M A) (k : A → M B) :
  stable R m → (∀ a, stable R (k a)) → stable R (m ≫= k).
Proof.
  intros Hm Hk s. munfold. specialize (Hm s).
  destruct (m s) as [s' [a|e]]; simpl in *; [|done].
  eapply R_trans; [exact Hm | apply Hk].
Qed.

Lemma stable_for_each {A} (l : list A) (body : A → M unit) :
  (∀ x, stable R (body x)) → stable R (for_each l body).
Proof.
  intros Hb. induction l as [|x l IH]; simpl.
  - apply stable_ret.
  - apply stable_bind; auto.
Qed.

Lemma stable_except {A} (m : M A) h : stable R m → stable R (except_KeyError m h).
Proof.
  intros Hm s. specialize (Hm s). munfold.
  destruct (m s) as [s' [a|[]]]; simpl in *; done.
Qed.

Lemma stable_void {A} (m : M A) : stable R m → stable R (void m).
Proof. intros Hm. apply stable_bind; [done | intros; apply stable_ret]. Qed.
End Stable.

(** ** What one turn of [Net.connect] does *)

Lemma Net_connect_body_pin s n p d t N P :
  nets s !! n = Some N → ppins s !! p = Some P →
  Net_connect_body n d t (VPin p) s =
    let s1 := with_nets (alter (set__connections (setitem p d (_connections N))) n) s in
    match _net P with
    | Some _ => (s1, Raise ValueError_already_connected)
    | None => (with_ppins (alter (set__net (Some n)) p) s1, Ok tt)
    end.
Proof.
  intros Hn Hp. unfold Net_connect_body, Net_connections_setitem, ParticularPin_net_setter.
  munfold. simpl. rewrite Hp, Hn. simpl. rewrite Hp. by destruct (_net P).
Qed.

Lemma Net_connect_body_part s n p d t :
  is_Some (parts s !! p) →
  Net_connect_body n d t (VPart p) s = (s, Raise NotImplementedError_get_pin).
Proof. intros [P HP]. unfold Net_connect_body. munfold. by rewrite HP. Qed.

Lemma Net_connect_body_net s n m d t :
  is_Some (nets s !! m) →
  Net_connect_body n d t (VNet m) s = (s, Raise NotImplementedError_nets).
Proof. intros [N HN]. unfold Net_connect_body. munfold. simpl. by rewrite HN. Qed.

Lemma Net_connect_body_iter s n l d t :
  Net_connect_body n d t (VIter l) s = (s, Raise TypeError_no_pin).
Proof. reflexivity. Qed.

Lemma Net_connect_body_other s n d t :
  Net_connect_body n d t VOther s = (s, Raise TypeError_no_pin).
Proof. reflexivity. Qed.

Lemma Net_connect_single s n o d t :
  (∀ l, o ≠ VIter l) →
  Net_connect n o d t s = Net_connect_body n d t o s.
Proof.
  intros Ho. unfold Net_connect.
  replace (_maybe_single o) with [o] by (destruct o; naive_solver).
  simpl. munfold. by destruct (Net_connect_body n d t o s) as [s' [[]|e]].
Qed.

(** Walks through the structure of a computation, leaving the primitive
    steps to [leaf]. *)
Ltac stable_walk Hr Ht leaf :=
  repeat first
    [ progress leaf
    | apply (stable_ret _ Hr)
    | apply (stable_raise _ Hr)
    | apply (stable_get _ Hr)
    | apply (stable_deref _ Hr)
    | apply (stable_void _ Hr Ht)
    | apply stable_except
    | apply (stable_for_each _ Hr Ht); intros
    | apply (stable_bind _ Ht); [|intros]
    | match goal with
      | |- stable _ (match ?x with _ => _ end) => destruct x
      | |- stable _ (if ?x then _ else _) => destruct x
      | |- stable _ (let '(_, _) := ?x in _) => destruct x
      end ].

(** ** A net assignment, once made, stays *)

Lemma keeps_refl s : keeps s s.
Proof. by intros p n. Qed.

Lemma keeps_trans s1 s2 s3 : keeps s1 s2 → keeps s2 s3 → keeps s1 s3.
Proof. intros H1 H2 p n H. by apply H2, H1. Qed.

Lemma keeps_same_ppins s s' : ppins s' = ppins s → keeps s s'.
Proof. intros E p n. unfold pin_net. by rewrite E. Qed.

Lemma keeps_alloc_pin P : stable keeps (modify (with_ppins (fun l => l ++ [P]))).
Proof.
  intros s p n. unfold pin_net. simpl.
  destruct (ppins s !! p) as [Q|] eqn:E; [|done].
  by rewrite (lookup_app_l_Some _ _ _ _ E).
Qed.

Lemma keeps_setter p n : stable keeps (ParticularPin_net_setter p n).
Proof.
  intros s q m. unfold ParticularPin_net_setter, pin_net. munfold.
  destruct (ppins s !! p) as [P|] eqn:E; simpl; [|done].
  destruct (_net P) eqn:EP; simpl; [done|].
  destruct (decide (p = q)) as [->|Hne].
  - rewrite E. simpl. congruence.
  - by rewrite list_lookup_alter_ne.
Qed.

Ltac keeps_leaf :=
  first [ apply keeps_setter
        | apply keeps_alloc_pin
        | apply stable_modify; intros; apply keeps_same_ppins;
          first [ reflexivity | by match goal with |- context [register ?c] => destruct c end ] ].

Ltac keeps_walk := stable_walk keeps_refl keeps_trans keeps_leaf.

Lemma keeps_Net___init__ name : stable keeps (Net___init__ name).
Proof. unfold Net___init__, init_plugins. keeps_walk. Qed.

Lemma keeps_Net_connect n o d t : stable keeps (Net_connect n o d t).
Proof.
  unfold Net_connect, Net_connect_body, Net_connections_setitem, Part_get_pin_to_connect.
  keeps_walk.
Qed.

Lemma keeps_ParticularPin_net p : stable keeps (ParticularPin_net p).
Proof.
  unfold ParticularPin_net, ParticularPin__create_anonymous_net.
  stable_walk keeps_refl keeps_trans
    ltac:(first [apply keeps_Net___init__ | apply keeps_Net_connect]).
Qed.

Lemma keeps__PinList_scan l k : stable keeps (_PinList_scan l k).
Proof.
  induction l as [|pin l IH]; simpl.
  - keeps_walk.
  - stable_walk keeps_refl keeps_trans ltac:(apply IH).
Qed.

Lemma keeps_ParticularPin___init__ P pcp num : stable keeps (ParticularPin___init__ P pcp num).
Proof.
  unfold ParticularPin___init__, _PinList___getitem__.
  stable_walk keeps_refl keeps_trans
    ltac:(first [ apply keeps__PinList_scan | keeps_leaf ]).
Qed.

Lemma keeps_normalize_PINS l : stable keeps (normalize_PINS l).
Proof.
  induction l as [|e l IH]; simpl; unfold Pin___init__, init_plugins.
  - keeps_walk.
  - stable_walk keeps_refl keeps_trans ltac:(first [apply IH | keeps_leaf]).
Qed.

Lemma keeps_Part___init__ cls v r p pop : stable keeps (Part___init__ cls v r p pop).
Proof.
  unfold Part___init__, Part__generate_pin_instances, _generate_pin_instances_body,
    init_plugins, Pin_name.
  stable_walk keeps_refl keeps_trans
    ltac:(first [ apply keeps_normalize_PINS | apply keeps_ParticularPin___init__
                | keeps_leaf ]).
Qed.

Lemma keeps_exec st : stable keeps (exec st).
Proof.
  destruct st; simpl;
    unfold plugin, define_class, Net___lshift__, Net___rshift__,
      ParticularPin___lshift__, ParticularPin___rshift__, lshift_value, rshift_value,
      Net___lshift__, Net___rshift__, ParticularPin__create_anonymous_net;
    stable_walk keeps_refl keeps_trans
      ltac:(first [ apply keeps_Net___init__ | apply keeps_Net_connect
                  | apply keeps_ParticularPin_net | apply keeps_Part___init__
                  | keeps_leaf ]).
Qed.

Lemma keeps_run script s : keeps s (run script s).
Proof.
  revert s. induction script as [|st script IH]; intros s; simpl.
  - apply keeps_refl.
  - eapply keeps_trans; [apply (keeps_exec st s) | apply IH].
Qed.

(** ** Nets are never deallocated *)

Lemma nets_grow_refl s : nets_grow s s.
Proof. unfold nets_grow. lia. Qed.

Lemma nets_grow_trans s1 s2 s3 : nets_grow s1 s2 → nets_grow s2 s3 → nets_grow s1 s3.
Proof. unfold nets_grow. lia. Qed.

Lemma nets_grow_valid s s' n : nets_grow s s' → is_Some (nets s !! n) → is_Some (nets s' !! n).
Proof. unfold nets_grow. rewrite !lookup_lt_is_Some. lia. Qed.

Ltac nets_grow_leaf :=
  apply stable_modify; intros; unfold nets_grow; simpl;
  rewrite ?length_alter, ?length_app; simpl;
  first [ lia | match goal with |- context [register ?c] => destruct c; simpl; lia end ].

Lemma nets_grow_Net_connect_body n d t o : stable nets_grow (Net_connect_body n d t o).
Proof.
  unfold Net_connect_body, Net_connections_setitem, Part_get_pin_to_connect,
    ParticularPin_net_setter.
  stable_walk nets_grow_refl nets_grow_trans nets_grow_leaf.
Qed.

Lemma keeps_Net_connect_body n d t o : stable keeps (Net_connect_body n d t o).
Proof.
  unfold Net_connect_body, Net_connections_setitem, Part_get_pin_to_connect.
  keeps_walk.
Qed.

(** ** Connecting a pin that already has a net *)

Lemma Net_connect_body_pin_Ok s s' n p d t :
  Net_connect_body n d t (VPin p) s = (s', Ok tt) →
  ∃ N P, nets s !! n = Some N ∧ ppins s !! p = Some P ∧ _net P = None ∧
    s' = with_ppins (alter (set__net (Some n)) p)
           (with_nets (alter (set__connections (setitem p d (_connections N))) n) s).
Proof.
  intros H.
  destruct (ppins s !! p) as [P|] eqn:Ep; cycle 1.
  { unfold Net_connect_body in H. munfold. simpl in H. rewrite Ep in H. discriminate. }
  destruct (nets s !! n) as [N|] eqn:En; cycle 1.
  { unfold Net_connect_body, Net_connections_setitem in H. munfold. simpl in H.
    rewrite Ep, En in H. discriminate. }
  rewrite (Net_connect_body_pin _ _ _ _ _ _ _ En Ep) in H. simpl in H.
  destruct (_net P) eqn:E; [discriminate|].
  exists N, P. repeat split; congruence.
Qed.

Lemma pin_net_after_connect s n p d N :
  is_Some (ppins s !! p) →
  pin_net (with_ppins (alter (set__net (Some n)) p)
             (with_nets (alter (set__connections (setitem p d (_connections N))) n) s)) p
  = Some n.
Proof.
  intros [P HP]. unfold pin_net. simpl. by rewrite list_lookup_alter_eq, HP.
Qed.

Lemma Net_connect_body_connected s n m p d t :
  is_Some (nets s !! n) → pin_net s p = Some m →
  ∃ s', Net_connect_body n d t (VPin p) s = (s', Raise PinAlreadyConnected)
        ∧ ppins s' = ppins s.
Proof.
  intros [N HN] Hp. unfold pin_net in Hp.
  destruct (ppins s !! p) as [P|] eqn:EP; [|done]. simpl in Hp.
  rewrite (Net_connect_body_pin _ _ _ _ _ _ _ HN EP). simpl. rewrite Hp.
  eexists. split; reflexivity.
Qed.

Lemma for_each_connected_raises l : ∀ s n m p d t,
  VPin p ∈ l → is_Some (nets s !! n) → pin_net s p = Some m →
  ∃ s' e, for_each l (Net_connect_body n d t) s = (s', Raise e)
          ∧ pin_net s' p = Some m
          ∧ (head l = Some (VPin p) → e = PinAlreadyConnected).
Proof.
  induction l as [|x l IH]; intros s n m p d t Hin Hn Hp.
  - by apply elem_of_nil in Hin.
  - simpl. munfold.
    pose proof (keeps_Net_connect_body n d t x s p m Hp) as Hk.
    pose proof (nets_grow_valid _ _ n (nets_grow_Net_connect_body n d t x s) Hn) as Hv.
    destruct (Net_connect_body n d t x s) as [s1 [[]|e]] eqn:E; simpl in *.
    + apply elem_of_cons in Hin as [<-|Hin].
      { destruct (Net_connect_body_connected s n m p d t Hn Hp) as (s' & E' & _).
        congruence. }
      destruct (IH s1 n m p d t Hin Hv Hk) as (s' & e & E' & Hp' & _).
      exists s', e. repeat split; [done..|]. intros [= ->].
      destruct (Net_connect_body_connected s n m p d t Hn Hp) as (s2 & E2 & _).
      congruence.
    + exists s1, e. repeat split; [done|]. intros [= ->].
      destruct (Net_connect_body_connected s n m p d t Hn Hp) as (s2 & E2 & _).
      congruence.
Qed.

(** C1. Once a successful [connect] has put pin [p] into net [n1], then in
    every later store (after any script) every [connect] into any existing
    net [n2] whose targets include [p] raises and leaves [p.net] equal to
    [n1]; when [p] is the target (or the first of the targets) the
    exception is [PinAlreadyConnected]. *)
Theorem reconnect_rejected (s0 s1 : Store) (n1 n2 p : nat)
    (d1 d2 : ConnectDirection.t) (t1 t2 : PinType.t)
    (script : list stmt) (others : pyvalue) :
  Net_connect n1 (VPin p) d1 t1 s0 = (s1, Ok tt) →
  is_Some (nets (run script s1) !! n2) →
  VPin p ∈ _maybe_single others →
  pin_net s1 p = Some n1 ∧
  ∃ s' e, Net_connect n2 others d2 t2 (run script s1) = (s', Raise e)
          ∧ pin_net s' p = Some n1
          ∧ (head (_maybe_single others) = Some (VPin p) → e = PinAlreadyConnected).
Proof.
  intros H1 Hn2 Hin.
  rewrite Net_connect_single in H1 by done.
  apply Net_connect_body_pin_Ok in H1 as (N & P & HN & HP & HnP & ->).
  assert (Hs1 : pin_net
            (with_ppins (alter (set__net (Some n1)) p)
               (with_nets (alter (set__connections (setitem p d1 (_connections N))) n1) s0)) p
            = Some n1) by (apply pin_net_after_connect; eauto).
  split; [exact Hs1|].
  apply for_each_connected_raises; [done..|].
  by apply keeps_run.
Qed.

Lemma reconnect_rejected_witness :
  pin_net (fst (Net_connect 0 (VPin 0) ConnectDirection.IN PinType.PRIMARY two_nets)) 0
    = Some 0 ∧
  ∃ s' e, Net_connect 1 (VPin 0) ConnectDirection.IN PinType.PRIMARY
            (run [SNet None] (fst (Net_connect 0 (VPin 0) ConnectDirection.IN
                                      PinType.PRIMARY two_nets)))
          = (s', Raise e)
          ∧ pin_net s' 0 = Some 0
          ∧ (head (_maybe_single (VPin 0)) = Some (VPin 0) → e = PinAlreadyConnected).
Proof.
  apply (reconnect_rejected two_nets _ 0 1 0 ConnectDirection.IN ConnectDirection.IN
           PinType.PRIMARY PinType.PRIMARY [SNet None] (VPin 0)).
  - reflexivity.
  - vm_compute. eauto.
  - simpl. apply list_elem_of_here.
Defined.

(** ** Anonymous nets *)

Lemma for_each_log l x s :
  for_each l (fun pl => modify (with_hook_log (fun h => h ++ [(pl, x)]))) s
  = (logged l x s, Ok tt).
Proof.
  revert s. induction l as [|pl l IH]; intros s; simpl.
  - unfold logged, with_hook_log. simpl. rewrite app_nil_r. by destruct s.
  - munfold. simpl. rewrite IH. unfold logged, with_hook_log. simpl.
    by rewrite <- app_assoc.
Qed.

Lemma init_plugins_spec reg x s :
  init_plugins reg x s = (logged (reg s) x s, Ok tt).
Proof. unfold init_plugins. munfold. simpl. apply for_each_log. Qed.

Lemma Net___init___spec name s :
  Net___init__ name s = (with_new_net name s, Ok (length (nets s))).
Proof.
  unfold Net___init__. munfold. simpl. by rewrite init_plugins_spec.
Qed.

Lemma seed_anonymous_net s p P d t :
  ppins s !! p = Some P → _net P = None →
  (fresh ← ParticularPin__create_anonymous_net; Net_connect fresh (VPin p) d t) s
  = (seeded p d s, Ok tt).
Proof.
  intros HP HN. unfold ParticularPin__create_anonymous_net. munfold.
  rewrite Net___init___spec. rewrite Net_connect_single by done.
  erewrite Net_connect_body_pin; cycle 1.
  - simpl. by apply list_lookup_middle.
  - simpl. exact HP.
  - simpl. rewrite HN. unfold seeded, with_ppins, with_nets, logged, with_hook_log. simpl.
    replace (length (nets s)) with (length (nets s) + 0) at 1 by lia.
    by rewrite alter_app_r.
Qed.

Lemma seeded_pin_net s p d :
  is_Some (ppins s !! p) → pin_net (seeded p d s) p = Some (length (nets s)).
Proof.
  intros [P HP]. unfold pin_net, seeded. simpl. by rewrite list_lookup_alter_eq, HP.
Qed.

Lemma seeded_members s p d : members (seeded p d s) (length (nets s)) = [(p, d)].
Proof. unfold members, seeded. simpl. by rewrite list_lookup_middle. Qed.

Lemma seeded_name s p d : name <$> nets (seeded p d s) !! length (nets s) = Some None.
Proof. unfold seeded. simpl. by rewrite list_lookup_middle. Qed.

Lemma ParticularPin_net_set s p P n :
  ppins s !! p = Some P → _net P = Some n →
  ParticularPin_net p s = (s, Ok (Some n)).
Proof.
  intros HP HN. unfold ParticularPin_net. munfold. simpl.
  rewrite HP, HN. simpl. by rewrite HP, HN.
Qed.

Lemma ParticularPin_net_unset s p P :
  ppins s !! p = Some P → _net P = None →
  ParticularPin_net p s
  = (seeded p ConnectDirection.UNKNOWN s, Ok (Some (length (nets s)))).
Proof.
  intros HP HN. unfold ParticularPin_net.
  pose proof (seed_anonymous_net s p P ConnectDirection.UNKNOWN PinType.PRIMARY HP HN) as E.
  munfold. simpl. rewrite HP, HN.
  destruct (Net___init__ None s) as [s1 [fresh|e]] eqn:E1; simpl in *.
  - unfold ParticularPin__create_anonymous_net in *. rewrite E1 in *. rewrite E. simpl.
    by rewrite list_lookup_alter_eq, HP.
  - unfold ParticularPin__create_anonymous_net in *. rewrite E1 in *. discriminate.
Qed.

(** C10. Reading [pin.net] never yields [None]: when the field is set the
    getter returns it and leaves the store alone; when the field is unset
    the getter changes the store: it allocates a fresh net without a name,
    whose only member is the pin with direction [UNKNOWN], sets the pin's
    field to that net and returns it. *)
Theorem net_getter_never_empty (s : Store) (p : nat) (P : ParticularPin) :
  ppins s !! p = Some P →
  ∃ s' n,
    ParticularPin_net p s = (s', Ok (Some n)) ∧ pin_net s' p = Some n ∧
    match _net P with
    | Some m => n = m ∧ s' = s
    | None =>
        n = length (nets s) ∧
        nets s' = nets s ++ [mkNet None [(p, ConnectDirection.UNKNOWN)]] ∧
        s' ≠ s
    end.
Proof.
  intros HP. destruct (_net P) as [m|] eqn:HN.
  - exists s, m. rewrite (ParticularPin_net_set s p P m HP HN).
    repeat split. unfold pin_net. by rewrite HP.
  - exists (seeded p ConnectDirection.UNKNOWN s), (length (nets s)).
    rewrite (ParticularPin_net_unset s p P HP HN).
    repeat split.
    + apply seeded_pin_net. eauto.
    + intros E. apply (f_equal (fun x => length (nets x))) in E. simpl in E.
      rewrite length_app in E. simpl in E. lia.
Qed.

Lemma net_getter_never_empty_witness :
  ∃ s' n,
    ParticularPin_net 0 lone_resistor = (s', Ok (Some n)) ∧ pin_net s' 0 = Some n ∧
    n = 0 ∧ nets s' = [mkNet None [(0, ConnectDirection.UNKNOWN)]] ∧ s' ≠ lone_resistor.
Proof.
  destruct (net_getter_never_empty lone_resistor 0
              (mkParticularPin (mkPin ["A"] (Some ["0"]) PinType.UNKNOWN None)
                 (mkPin ["A"] None PinType.UNKNOWN None) 0 None None) eq_refl)
    as (s' & n & H1 & H2 & H3 & H4 & H5).
  exists s', n. repeat split; assumption.
Defined.

(** ** Directional connects issued by a pin *)

Lemma same_net_count_refl s : same_net_count s s.
Proof. done. Qed.

Lemma same_net_count_trans s1 s2 s3 :
  same_net_count s1 s2 → same_net_count s2 s3 → same_net_count s1 s3.
Proof. unfold same_net_count. congruence. Qed.

Lemma same_net_count_Net_connect n o d t : stable same_net_count (Net_connect n o d t).
Proof.
  unfold Net_connect, Net_connect_body, Net_connections_setitem, Part_get_pin_to_connect,
    ParticularPin_net_setter.
  stable_walk same_net_count_refl same_net_count_trans
    ltac:(apply stable_modify; intros; unfold same_net_count; simpl;
          by rewrite ?length_alter).
Qed.

Lemma seed_by_rshift s p P :
  ppins s !! p = Some P → _net P = None →
  (fresh ← ParticularPin__create_anonymous_net; Net___rshift__ fresh (VPin p);; mret tt) s
  = (seeded p ConnectDirection.OUT s, Ok tt).
Proof.
  intros HP HN.
  pose proof (seed_anonymous_net s p P ConnectDirection.OUT PinType.PRIMARY HP HN) as E.
  unfold Net___rshift__. munfold.
  destruct (ParticularPin__create_anonymous_net s) as [s1 [fresh|e]]; [|done].
  by rewrite E.
Qed.

Lemma seed_by_lshift s p P :
  ppins s !! p = Some P → _net P = None →
  (fresh ← ParticularPin__create_anonymous_net; Net___lshift__ fresh (VPin p);; mret tt) s
  = (seeded p ConnectDirection.IN s, Ok tt).
Proof.
  intros HP HN.
  pose proof (seed_anonymous_net s p P ConnectDirection.IN PinType.PRIMARY HP HN) as E.
  unfold Net___lshift__. munfold.
  destruct (ParticularPin__create_anonymous_net s) as [s1 [fresh|e]]; [|done].
  by rewrite E.
Qed.

Lemma seeded_lookup s p P d :
  ppins s !! p = Some P →
  ppins (seeded p d s) !! p = Some (set__net (Some (length (nets s))) P).
Proof. intros HP. unfold seeded. simpl. by rewrite list_lookup_alter_eq, HP. Qed.

Lemma ParticularPin___lshift___unset s p P others :
  ppins s !! p = Some P → _net P = None →
  ParticularPin___lshift__ p others s
  = Net___lshift__ (length (nets s)) others (seeded p ConnectDirection.OUT s).
Proof.
  intros HP HN. unfold ParticularPin___lshift__.
  pose proof (seed_by_rshift s p P HP HN) as E. munfold. simpl.
  rewrite HP, HN. simpl in *. rewrite E.
  by rewrite (ParticularPin_net_set _ p _ (length (nets s))
                (seeded_lookup s p P ConnectDirection.OUT HP) eq_refl).
Qed.

Lemma ParticularPin___rshift___unset s p P others :
  ppins s !! p = Some P → _net P = None →
  ParticularPin___rshift__ p others s
  = Net___rshift__ (length (nets s)) others (seeded p ConnectDirection.IN s).
Proof.
  intros HP HN. unfold ParticularPin___rshift__.
  pose proof (seed_by_lshift s p P HP HN) as E. munfold. simpl.
  rewrite HP, HN. simpl in *. rewrite E.
  by rewrite (ParticularPin_net_set _ p _ (length (nets s))
                (seeded_lookup s p P ConnectDirection.IN HP) eq_refl).
Qed.

Lemma ParticularPin___lshift___set s p P n others :
  ppins s !! p = Some P → _net P = Some n →
  ParticularPin___lshift__ p others s = Net___lshift__ n others s.
Proof.
  intros HP HN. unfold ParticularPin___lshift__. munfold. simpl.
  rewrite HP, HN. simpl. by rewrite (ParticularPin_net_set s p P n HP HN).
Qed.

Lemma ParticularPin___rshift___set s p P n others :
  ppins s !! p = Some P → _net P = Some n →
  ParticularPin___rshift__ p others s = Net___rshift__ n others s.
Proof.
  intros HP HN. unfold ParticularPin___rshift__. munfold. simpl.
  rewrite HP, HN. simpl. by rewrite (ParticularPin_net_set s p P n HP HN).
Qed.

Lemma same_net_count_Net___lshift__ n o : stable same_net_count (Net___lshift__ n o).
Proof.
  unfold Net___lshift__.
  stable_walk same_net_count_refl same_net_count_trans
    ltac:(apply same_net_count_Net_connect).
Qed.

Lemma same_net_count_Net___rshift__ n o : stable same_net_count (Net___rshift__ n o).
Proof.
  unfold Net___rshift__.
  stable_walk same_net_count_refl same_net_count_trans
    ltac:(apply same_net_count_Net_connect).
Qed.

(** C5. A directional connect issued by a pin whose [_net] is unset first
    allocates a net that did not exist before, without a name, whose only
    member is the pin itself, tagged [OUT] for [pin << others] and [IN] for
    [pin >> others], and then continues as the same connect issued by that
    net.  When [_net] is already set the connect is the one issued by that
    net, and no net is allocated. *)
Theorem pin_shift_seeds_anonymous_net (s : Store) (p : nat) (P : ParticularPin)
    (others : pyvalue) :
  ppins s !! p = Some P →
  match _net P with
  | None =>
      let fresh := length (nets s) in
      nets s !! fresh = None ∧
      (∀ d, nets (seeded p d s) = nets s ++ [mkNet None [(p, d)]] ∧
            pin_net (seeded p d s) p = Some fresh) ∧
      ParticularPin___lshift__ p others s
        = Net___lshift__ fresh others (seeded p ConnectDirection.OUT s) ∧
      ParticularPin___rshift__ p others s
        = Net___rshift__ fresh others (seeded p ConnectDirection.IN s)
  | Some n =>
      ParticularPin___lshift__ p others s = Net___lshift__ n others s ∧
      ParticularPin___rshift__ p others s = Net___rshift__ n others s ∧
      length (nets (fst (ParticularPin___lshift__ p others s))) = length (nets s) ∧
      length (nets (fst (ParticularPin___rshift__ p others s))) = length (nets s)
  end.
Proof.
  intros HP. destruct (_net P) as [n|] eqn:HN.
  - rewrite (ParticularPin___lshift___set s p P n others HP HN).
    rewrite (ParticularPin___rshift___set s p P n others HP HN).
    repeat split.
    + apply same_net_count_Net___lshift__.
    + apply same_net_count_Net___rshift__.
  - simpl. split; [by apply lookup_ge_None_2|]. split; [|split].
    + intros d. split; [done|]. apply seeded_pin_net. eauto.
    + by apply (ParticularPin___lshift___unset s p P).
    + by apply (ParticularPin___rshift___unset s p P).
Qed.

Lemma pin_shift_seeds_anonymous_net_witness :
  nets lone_resistor !! 0 = None ∧
  (∀ d, nets (seeded 0 d lone_resistor) = nets lone_resistor ++ [mkNet None [(0, d)]] ∧
        pin_net (seeded 0 d lone_resistor) 0 = Some 0) ∧
  ParticularPin___lshift__ 0 (VPin 1) lone_resistor
    = Net___lshift__ 0 (VPin 1) (seeded 0 ConnectDirection.OUT lone_resistor) ∧
  ParticularPin___rshift__ 0 (VPin 1) lone_resistor
    = Net___rshift__ 0 (VPin 1) (seeded 0 ConnectDirection.IN lone_resistor).
Proof.
  exact (pin_shift_seeds_anonymous_net lone_resistor 0
           (mkParticularPin (mkPin ["A"] (Some ["0"]) PinType.UNKNOWN None)
              (mkPin ["A"] None PinType.UNKNOWN None) 0 None None) (VPin 1) eq_refl).
Defined.

(** ** A part as a connect target *)

(** C3, as stated, fails: a part with exactly one [PRIMARY] pin, not yet
    connected, handed to [connect] with [pin_type = PRIMARY] does not
    resolve to that pin; the connect raises and the pin stays unconnected. *)
Lemma connect_part_one_match_fails :
  pins_of_type one_primary 0 PinType.PRIMARY = [0] ∧
  pin_net one_primary 0 = None ∧
  Net_connect 0 (VPart 0) ConnectDirection.IN PinType.PRIMARY one_primary
    = (one_primary, Raise NotImplementedError_get_pin) ∧
  pin_net (fst (Net_connect 0 (VPart 0) ConnectDirection.IN PinType.PRIMARY one_primary)) 0
    = None.
Proof. vm_compute. done. Qed.

(** The loop of a [for], turn by turn. *)
Lemma for_each_cons {A} (body : A → M unit) x l s :
  for_each (x :: l) body s
  = match body x s with
    | (s1, Ok _) => for_each l body s1
    | (s1, Raise e) => (s1, Raise e)
    end.
Proof. done. Qed.

Lemma for_each_app {A} (body : A → M unit) l1 l2 s :
  for_each (l1 ++ l2) body s
  = match for_each l1 body s with
    | (s1, Ok _) => for_each l2 body s1
    | (s1, Raise e) => (s1, Raise e)
    end.
Proof.
  revert s. induction l1 as [|x l1 IH]; intros s.
  - done.
  - rewrite <- app_comm_cons, !for_each_cons.
    destruct (body x s) as [s1 [[]|e]]; [apply IH | done].
Qed.

(** No step of [Net.connect] writes to a part. *)
Lemma parts_Net_connect_body n d t o :
  stable (fun s s' => parts s' = parts s) (Net_connect_body n d t o).
Proof.
  unfold Net_connect_body, Net_connections_setitem, Part_get_pin_to_connect,
    ParticularPin_net_setter.
  stable_walk (fun s : Store => eq_refl (parts s))
    (fun (s1 s2 s3 : Store) (H1 : parts s2 = parts s1) (H2 : parts s3 = parts s2) =>
       eq_trans H2 H1)
    ltac:(apply stable_modify; intros; reflexivity).
Qed.

Lemma parts_for_each_connect n d t l s :
  parts (fst (for_each l (Net_connect_body n d t) s)) = parts s.
Proof.
  apply (stable_for_each (fun s s' => parts s' = parts s)
           (fun s : Store => eq_refl (parts s))
           (fun (s1 s2 s3 : Store) (H1 : parts s2 = parts s1) (H2 : parts s3 = parts s2) =>
              eq_trans H2 H1)
           l (Net_connect_body n d t) (parts_Net_connect_body n d t) s).
Qed.

(** A part in a group: the loop does what the targets before the part make
    it do and, when it gets as far as the part, raises there. *)
Lemma Net_connect_part_in_group s n q d t pre rest :
  is_Some (parts s !! q) →
  Net_connect n (VIter (pre ++ VPart q :: rest)) d t s
  = match Net_connect n (VIter pre) d t s with
    | (s1, Ok _) => (s1, Raise NotImplementedError_get_pin)
    | (s1, Raise e) => (s1, Raise e)
    end.
Proof.
  intros Hq. unfold Net_connect. cbn [_maybe_single]. rewrite for_each_app.
  pose proof (parts_for_each_connect n d t pre s) as Hp.
  destruct (for_each pre (Net_connect_body n d t) s) as [s1 [[]|e]]; [|done].
  simpl in Hp. rewrite for_each_cons, Net_connect_body_part; [done|by rewrite Hp].
Qed.

Lemma Net_connect_with_part s n q others d t :
  is_Some (parts s !! q) → VPart q ∈ _maybe_single others →
  ∃ s' e, Net_connect n others d t s = (s', Raise e).
Proof.
  intros Hq Hin. apply list_elem_of_split in Hin as (pre & rest & E).
  pose proof (Net_connect_part_in_group s n q d t pre rest Hq) as H.
  unfold Net_connect in *. cbn [_maybe_single] in H. rewrite E, H.
  destruct (for_each pre (Net_connect_body n d t) s) as [s1 [[]|e]]; eauto.
Qed.

Lemma Net___lshift___with_part s n q others :
  is_Some (parts s !! q) → VPart q ∈ _maybe_single others →
  ∃ s' e, Net___lshift__ n others s = (s', Raise e).
Proof.
  intros Hq Hin.
  destruct (Net_connect_with_part s n q others ConnectDirection.IN PinType.PRIMARY Hq Hin)
    as (s' & e & E).
  exists s', e. unfold Net___lshift__. munfold. by rewrite E.
Qed.

Lemma Net___rshift___with_part s n q others :
  is_Some (parts s !! q) → VPart q ∈ _maybe_single others →
  ∃ s' e, Net___rshift__ n others s = (s', Raise e).
Proof.
  intros Hq Hin.
  destruct (Net_connect_with_part s n q others ConnectDirection.OUT PinType.PRIMARY Hq Hin)
    as (s' & e & E).
  exists s', e. unfold Net___rshift__. munfold. by rewrite E.
Qed.

Lemma ParticularPin___lshift___dangling s p others :
  ppins s !! p = None → ParticularPin___lshift__ p others s = (s, Raise DanglingReference).
Proof. intros Hp. unfold ParticularPin___lshift__. munfold. by rewrite Hp. Qed.

Lemma ParticularPin___rshift___dangling s p others :
  ppins s !! p = None → ParticularPin___rshift__ p others s = (s, Raise DanglingReference).
Proof. intros Hp. unfold ParticularPin___rshift__. munfold. by rewrite Hp. Qed.

Lemma ParticularPin___lshift___with_part s p q others :
  is_Some (parts s !! q) → VPart q ∈ _maybe_single others →
  ∃ s' e, ParticularPin___lshift__ p others s = (s', Raise e).
Proof.
  intros Hq Hin. destruct (ppins s !! p) as [P|] eqn:HP.
  - destruct (_net P) as [m|] eqn:HN.
    + rewrite (ParticularPin___lshift___set s p P m others HP HN).
      by apply (Net___lshift___with_part s m q).
    + rewrite (ParticularPin___lshift___unset s p P others HP HN).
      by apply (Net___lshift___with_part _ _ q).
  - rewrite (ParticularPin___lshift___dangling s p others HP). eauto.
Qed.

Lemma ParticularPin___rshift___with_part s p q others :
  is_Some (parts s !! q) → VPart q ∈ _maybe_single others →
  ∃ s' e, ParticularPin___rshift__ p others s = (s', Raise e).
Proof.
  intros Hq Hin. destruct (ppins s !! p) as [P|] eqn:HP.
  - destruct (_net P) as [m|] eqn:HN.
    + rewrite (ParticularPin___rshift___set s p P m others HP HN).
      by apply (Net___rshift___with_part s m q).
    + rewrite (ParticularPin___rshift___unset s p P others HP HN).
      by apply (Net___rshift___with_part _ _ q).
  - rewrite (ParticularPin___rshift___dangling s p others HP). eauto.
Qed.

Lemma Net___lshift___part s n q :
  is_Some (parts s !! q) →
  Net___lshift__ n (VPart q) s = (s, Raise NotImplementedError_get_pin).
Proof.
  intros Hq. unfold Net___lshift__. munfold.
  rewrite Net_connect_single by done. by rewrite Net_connect_body_part.
Qed.

Lemma Net___rshift___part s n q :
  is_Some (parts s !! q) →
  Net___rshift__ n (VPart q) s = (s, Raise NotImplementedError_get_pin).
Proof.
  intros Hq. unfold Net___rshift__. munfold.
  rewrite Net_connect_single by done. by rewrite Net_connect_body_part.
Qed.

(** C3, amended. [Part.get_pin_to_connect] of [base.py] raises
    [NotImplementedError] for every part and every pin type, whatever the
    number of pins of that type, so that no connect with a part among its
    targets returns, through [connect], [<<] or [>>], on a net or on a pin.
    What is left behind depends on where the part stands.  As the sole or
    the first target of [Net.connect], the store is left as it was.  Later
    in a group, the connect does what connecting the targets before the
    part alone does and, if that returns, raises [NotImplementedError] in
    the store so reached: the earlier pins stay connected and the targets
    after the part are not processed.  [pin << part] and [pin >> part]
    raise [NotImplementedError] in an unchanged store when the pin has a
    net; when it has none, the anonymous net created for the pin, with the
    pin as its member ([OUT] for [<<], [IN] for [>>]), is left behind. *)
Theorem connect_part_not_implemented (s : Store) (n part_instance : nat)
    (d : ConnectDirection.t) (t : PinType.t) (pre rest : list pyvalue) :
  is_Some (parts s !! part_instance) →
  Part_get_pin_to_connect part_instance t s = (s, Raise NotImplementedError_get_pin) ∧
  Net_connect n (VPart part_instance) d t s = (s, Raise NotImplementedError_get_pin) ∧
  Net_connect n (VIter (VPart part_instance :: rest)) d t s
    = (s, Raise NotImplementedError_get_pin) ∧
  Net_connect n (VIter (pre ++ VPart part_instance :: rest)) d t s
    = match Net_connect n (VIter pre) d t s with
      | (s1, Ok _) => (s1, Raise NotImplementedError_get_pin)
      | (s1, Raise e) => (s1, Raise e)
      end ∧
  (∀ p P, ppins s !! p = Some P →
     ParticularPin___lshift__ p (VPart part_instance) s
       = (match _net P with
          | Some _ => s
          | None => seeded p ConnectDirection.OUT s
          end, Raise NotImplementedError_get_pin) ∧
     ParticularPin___rshift__ p (VPart part_instance) s
       = (match _net P with
          | Some _ => s
          | None => seeded p ConnectDirection.IN s
          end, Raise NotImplementedError_get_pin)) ∧
  (∀ others, VPart part_instance ∈ _maybe_single others →
     (∃ s' e, Net_connect n others d t s = (s', Raise e)) ∧
     (∃ s' e, Net___lshift__ n others s = (s', Raise e)) ∧
     (∃ s' e, Net___rshift__ n others s = (s', Raise e)) ∧
     (∀ p, ∃ s' e, ParticularPin___lshift__ p others s = (s', Raise e)) ∧
     (∀ p, ∃ s' e, ParticularPin___rshift__ p others s = (s', Raise e))).
Proof.
  intros HP. split; [done|]. split; [|split; [|split; [|split]]].
  - rewrite Net_connect_single by done. by apply Net_connect_body_part.
  - unfold Net_connect. simpl. munfold. by rewrite Net_connect_body_part.
  - by apply Net_connect_part_in_group.
  - intros p P Hp. destruct (_net P) as [m|] eqn:HN.
    + rewrite (ParticularPin___lshift___set s p P m _ Hp HN).
      rewrite (ParticularPin___rshift___set s p P m _ Hp HN).
      by rewrite Net___lshift___part, Net___rshift___part.
    + rewrite (ParticularPin___lshift___unset s p P _ Hp HN).
      rewrite (ParticularPin___rshift___unset s p P _ Hp HN).
      by rewrite Net___lshift___part, Net___rshift___part.
  - intros others Hin. split; [|split; [|split; [|split]]].
    + by apply (Net_connect_with_part s n part_instance).
    + by apply (Net___lshift___with_part s n part_instance).
    + by apply (Net___rshift___with_part s n part_instance).
    + intros p. by apply (ParticularPin___lshift___with_part s p part_instance).
    + intros p. by apply (ParticularPin___rshift___with_part s p part_instance).
Qed.

Lemma connect_part_not_implemented_witness :
  Part_get_pin_to_connect 0 PinType.PRIMARY one_primary
    = (one_primary, Raise NotImplementedError_get_pin) ∧
  Net_connect 0 (VPart 0) ConnectDirection.IN PinType.PRIMARY one_primary
    = (one_primary, Raise NotImplementedError_get_pin) ∧
  Net_connect 0 (VIter [VPart 0; VPin 0]) ConnectDirection.IN PinType.PRIMARY one_primary
    = (one_primary, Raise NotImplementedError_get_pin) ∧
  (∃ s1, Net_connect 0 (VIter [VPin 0]) ConnectDirection.IN PinType.PRIMARY one_primary
           = (s1, Ok tt) ∧
         Net_connect 0 (VIter ([VPin 0] ++ VPart 0 :: [VPin 0]))
           ConnectDirection.IN PinType.PRIMARY one_primary
           = (s1, Raise NotImplementedError_get_pin) ∧
         pin_net s1 0 = Some 0 ∧ members s1 0 = [(0, ConnectDirection.IN)]) ∧
  ParticularPin___lshift__ 0 (VPart 0) one_primary
    = (seeded 0 ConnectDirection.OUT one_primary, Raise NotImplementedError_get_pin) ∧
  ParticularPin___rshift__ 0 (VPart 0) one_primary
    = (seeded 0 ConnectDirection.IN one_primary, Raise NotImplementedError_get_pin) ∧
  nets (seeded 0 ConnectDirection.OUT one_primary)
    = nets one_primary ++ [mkNet None [(0, ConnectDirection.OUT)]] ∧
  ∃ s' e, ParticularPin___lshift__ 0 (VIter [VPin 0; VPart 0]) one_primary = (s', Raise e).
Proof.
  assert (HP : is_Some (parts one_primary !! 0)) by (vm_compute; eauto).
  destruct (connect_part_not_implemented one_primary 0 0 ConnectDirection.IN
              PinType.PRIMARY [VPin 0] [VPin 0] HP) as (H1 & H2 & H3 & H4 & H5 & H6).
  split; [exact H1|]. split; [exact H2|]. split; [exact H3|]. split.
  { eexists. split; [vm_compute; reflexivity|]. split; [|vm_compute; done].
    rewrite H4. vm_compute. reflexivity. }
  destruct (H5 0 _ eq_refl) as [L R].
  split; [exact L|]. split; [exact R|]. split; [reflexivity|].
  destruct (H6 (VIter [VPin 0; VPart 0])) as (_ & _ & _ & Hl & _).
  - vm_compute. apply list_elem_of_further, list_elem_of_here.
  - exact (Hl 0).
Defined.

(** ** Building the pins of a part *)

Lemma upper_ascii_idem c : upper_ascii (upper_ascii c) = upper_ascii c.
Proof. destruct c as [[] [] [] [] [] [] [] []]; reflexivity. Qed.

Lemma upper_idem w : upper (upper w) = upper w.
Proof. induction w as [|c w IH]; simpl; [done|]. by rewrite upper_ascii_idem, IH. Qed.

Lemma Pin___init___plain m s :
  Pin___init__ m None PinType.UNKNOWN None s
  = (logged (Pin_plugins s) (IPin (spec_of (Plain m))) s, Ok (spec_of (Plain m))).
Proof.
  unfold Pin___init__. munfold. rewrite init_plugins_spec. by destruct m.
Qed.

Lemma normalize_PINS_spec l s :
  normalize_PINS l s
  = (with_hook_log (fun h => h ++ pin_hooks (Pin_plugins s) l) s, Ok (map spec_of l)).
Proof.
  revert s. induction l as [|e l IH]; intros s; simpl.
  - unfold with_hook_log. simpl. rewrite app_nil_r. by destruct s.
  - munfold. destruct e as [m|p].
    + rewrite Pin___init___plain, IH. simpl.
      unfold with_hook_log, logged. simpl. by rewrite <- app_assoc.
    + simpl. by rewrite IH.
Qed.

(** The slow path reads the store and never writes it. *)
Lemma _PinList_scan_pure vals k s : fst (_PinList_scan vals k s) = s.
Proof.
  induction vals as [|r vals IH]; simpl; [done|]. munfold.
  destruct (ppins s !! r) as [o|]; simpl; [|done].
  by destruct (decide (upper k ∈ names (inherited o))).
Qed.

Lemma _PinList___getitem___pure d k s : fst (_PinList___getitem__ d k s) = s.
Proof.
  unfold _PinList___getitem__. destruct (getitem (upper k) d); [done|].
  apply _PinList_scan_pure.
Qed.

Lemma _PinList_scan_Ok vals k s r :
  snd (_PinList_scan vals k s) = Ok r →
  r ∈ vals ∧ ∃ o, ppins s !! r = Some o ∧ upper k ∈ names (inherited o).
Proof.
  induction vals as [|q vals IH]; simpl; [done|]. munfold.
  destruct (ppins s !! q) as [o|] eqn:E; simpl; [|done].
  destruct (decide (upper k ∈ names (inherited o))) as [Hin|Hin]; simpl.
  - intros [= <-]. split; [apply list_elem_of_here | eauto].
  - intros H. destruct (IH H) as [H1 H2]. split; [by apply list_elem_of_further | done].
Qed.

Lemma _PinList_scan_miss vals k s :
  (∀ r, r ∈ vals → ∃ o, ppins s !! r = Some o ∧ upper k ∉ names (inherited o)) →
  snd (_PinList_scan vals k s) = Raise KeyError_pin_name.
Proof.
  induction vals as [|q vals IH]; simpl; [done|]. intros H. munfold.
  destruct (H q) as (o & Ho & Hn); [apply list_elem_of_here|].
  rewrite Ho. simpl. destruct (decide (upper k ∈ names (inherited o))); [done|].
  apply IH. intros r Hr. apply H. by apply list_elem_of_further.
Qed.

Lemma _PinList_scan_outcome vals k s :
  (∀ r, r ∈ vals → is_Some (ppins s !! r)) →
  (∃ r, snd (_PinList_scan vals k s) = Ok r) ∨
  snd (_PinList_scan vals k s) = Raise KeyError_pin_name.
Proof.
  induction vals as [|q vals IH]; simpl; [by right|]. intros H. munfold.
  destruct (H q) as [o Ho]; [apply list_elem_of_here|].
  rewrite Ho. simpl. destruct (decide (upper k ∈ names (inherited o))); [left; eauto|].
  apply IH. intros r Hr. apply H. by apply list_elem_of_further.
Qed.

Lemma getitem_Some {V} (k : string) (d : list (string * V)) v :
  getitem k d = Some v → (k, v) ∈ d.
Proof.
  induction d as [|[k' v'] d IH]; simpl; [done|].
  destruct (decide (k' = k)) as [->|Hne].
  - intros [= ->]. apply list_elem_of_here.
  - intros H. apply list_elem_of_further. auto.
Qed.

Lemma setitem_elem {K V} `{EqDecision K} (k k' : K) (v v' : V) d :
  (k', v') ∈ setitem k v d → (k', v') = (k, v) ∨ (k', v') ∈ d.
Proof.
  induction d as [|[k0 v0] d IH]; simpl.
  - intros H. apply list_elem_of_singleton in H. by left.
  - destruct (decide (k0 = k)) as [->|Hne]; intros H; apply elem_of_cons in H.
    + destruct H as [H|H]; [by left|]. right. by apply list_elem_of_further.
    + destruct H as [H|H]; [right; rewrite H; apply list_elem_of_here|].
      destruct (IH H) as [?|?]; [by left|]. right. by apply list_elem_of_further.
Qed.

Lemma bound_eq i spec :
  match pin_number i spec with
  | Some n => set_numbers (Some [n]) spec
  | None => spec
  end = bound i spec.
Proof.
  unfold pin_number, bound, resolved_numbers. destruct spec as [nm [l|] t w]; done.
Qed.

Lemma bound_numbers i spec : numbers (bound i spec) = Some (resolved_numbers i spec).
Proof. done. Qed.

Lemma ParticularPin___init___spec self i spec s Pt :
  parts s !! self = Some Pt →
  ParticularPin___init__ self spec (pin_number i spec) s
  = match well_outcome s (pins Pt) spec with
    | Ok wl => (with_new_pin self i spec wl s, Ok (length (ppins s)))
    | Raise e => (s, Raise e)
    end.
Proof.
  intros HPt. unfold ParticularPin___init__. rewrite bound_eq. rewrite bound_numbers.
  unfold well_outcome, resolve_well. munfold. simpl.
  destruct (well_name spec) as [w|]; simpl; [|done].
  rewrite HPt. simpl.
  pose proof (_PinList___getitem___pure (pins Pt) w s) as Hp.
  destruct (_PinList___getitem__ (pins Pt) w s) as [s1 [r|e]]; simpl in *; subst s1.
  - destruct (ppins s !! r) as [wp|]; simpl; [|done].
    by destruct (is_power (type (inherited wp))).
  - by destruct e.
Qed.

Lemma with_parts_id s : with_parts (fun l => l) s = s.
Proof. by destruct s. Qed.

Lemma with_parts_with_parts f g s :
  with_parts f (with_parts g s) = with_parts (fun l => f (g l)) s.
Proof. done. Qed.

Lemma attrs_loop self pin nms s :
  for_each nms (fun name =>
    modify (with_parts (alter (fun P => set_attrs (setitem name pin (attrs P)) P) self))) s
  = (with_parts (alter (with_pin_attrs pin nms) self) s, Ok tt).
Proof.
  revert s. induction nms as [|n nms IH]; intros s; simpl.
  - replace (alter (with_pin_attrs pin []) self) with (fun l : list Part => alter (with_pin_attrs pin []) self l) by done.
    unfold ret, with_parts. rewrite list_alter_id by (by intros []). by destruct s.
  - munfold. simpl. rewrite IH. unfold with_parts. simpl. do 2 f_equal.
    rewrite list_alter_alter_eq.
    apply list_alter_ext; [|done]. by intros [] _.
Qed.

(** One turn of the pin-building loop, in closed form. *)
Lemma _generate_pin_instances_body_spec self i spec s Pt :
  parts s !! self = Some Pt →
  _generate_pin_instances_body self (i, spec) s
  = match well_outcome s (pins Pt) spec with
    | Raise e => (s, Raise e)
    | Ok wl =>
        let pin := length (ppins s) in
        let s1 := with_new_pin self i spec wl s in
        match names spec with
        | [] => (s1, Raise IndexError_names)
        | nm :: _ =>
            (with_parts
               (alter (fun P => with_pin_attrs pin (names spec)
                                  (set_pins (setitem nm pin (pins P)) P)) self) s1,
             Ok tt)
        end
    end.
Proof.
  intros HPt. unfold _generate_pin_instances_body.
  pose proof (ParticularPin___init___spec self i spec s Pt HPt) as E.
  fold (pin_number i spec). munfold. rewrite E.
  destruct (well_outcome s (pins Pt) spec) as [wl|e]; [|done].
  simpl. rewrite list_lookup_middle by done. simpl.
  unfold Pin_name. simpl. destruct (names spec) as [|nm nms] eqn:En; [done|]. munfold.
  etrans; [apply (attrs_loop self (length (ppins s)) (nm :: nms))|].
  unfold with_parts. simpl. do 2 f_equal. by rewrite list_alter_alter_eq.
Qed.

(** ** The state of a part under construction *)

Lemma enumerate_from_snoc {A} i (l : list A) x :
  enumerate_from i (l ++ [x]) = enumerate_from i l ++ [(i + length l, x)].
Proof.
  revert i. induction l as [|y l IH]; intros i; simpl.
  - by rewrite Nat.add_0_r.
  - rewrite IH. by replace (S i + length l) with (i + S (length l)) by lia.
Qed.

Lemma pin_map_snoc base done spec :
  pin_map base (done ++ [spec])
  = pin_map_step base (pin_map base done) (length done, spec).
Proof. unfold pin_map. by rewrite enumerate_from_snoc, fold_left_app. Qed.

Lemma pin_map_elem base done k r :
  (k, r) ∈ pin_map base done →
  ∃ j sj rest, r = base + j ∧ done !! j = Some sj ∧ names sj = k :: rest.
Proof.
  induction done as [|spec done IH] using rev_ind.
  - intros H. by apply elem_of_nil in H.
  - rewrite pin_map_snoc. unfold pin_map_step. simpl.
    assert (Hold : (k, r) ∈ pin_map base done →
                   ∃ j sj rest, r = base + j ∧ (done ++ [spec]) !! j = Some sj
                                ∧ names sj = k :: rest).
    { intros H. destruct (IH H) as (j & sj & rest & -> & Hj & Hn).
      exists j, sj, rest. repeat split; [|done]. by apply lookup_app_l_Some. }
    destruct (names spec) as [|nm rest] eqn:En; [done|].
    intros H. apply setitem_elem in H as [[= -> ->]|H]; [|by apply Hold].
    exists (length done), spec, rest. repeat split; [|done].
    by apply list_lookup_middle.
Qed.

Lemma well_ok_mono base done spec j sj wl :
  well_ok base done j sj wl → well_ok base (done ++ [spec]) j sj wl.
Proof.
  unfold well_ok. destruct (well_name sj) as [w|]; [|done].
  intros (k & sk & Hk & -> & Hd & Hin & Hp). exists k, sk.
  repeat split; [done| |done|done]. by apply lookup_app_l_Some.
Qed.

Lemma building_values self base done s r :
  building self base done s → r ∈ values (pin_map base done) →
  ∃ k sk wl, r = base + k ∧ done !! k = Some sk ∧
             ppins s !! r = Some (mkParticularPin (bound k sk) sk self wl None).
Proof.
  intros B Hr. unfold values in Hr. apply list_elem_of_fmap in Hr as [[key r'] [-> Hin]].
  simpl. apply pin_map_elem in Hin as (j & sj & rest & -> & Hj & _).
  destruct (b_pin _ _ _ _ B j sj Hj) as (wl & Hp & _). eauto 10.
Qed.

(** A well that resolves is a pin built earlier for the same part, carries
    the name, and is a power pin. *)
Lemma resolve_well_Ok self base done s w r :
  building self base done s →
  resolve_well s (pin_map base done) w = Ok r →
  ∃ k sk, k < length done ∧ r = base + k ∧ done !! k = Some sk ∧
          upper w ∈ names sk ∧ is_power (type sk) = true.
Proof.
  intros B. unfold resolve_well, _PinList___getitem__.
  destruct (getitem (upper w) (pin_map base done)) as [r'|] eqn:Eg; simpl.
  - apply getitem_Some in Eg. apply pin_map_elem in Eg as (j & sj & rest & -> & Hj & Hn).
    destruct (b_pin _ _ _ _ B j sj Hj) as (wl & Hp & _). rewrite Hp. simpl.
    destruct (is_power (type sj)) eqn:Ep; [|done]. intros [= <-].
    exists j, sj. repeat split; [by eapply lookup_lt_Some|done| |done].
    rewrite Hn. apply list_elem_of_here.
  - destruct (snd (_PinList_scan (values (pin_map base done)) (upper w) s))
      as [r'|e] eqn:Es; cycle 1.
    { by destruct e. }
    apply _PinList_scan_Ok in Es as (Hin & o & Ho & Hname).
    destruct (building_values _ _ _ _ _ B Hin) as (k & sk & wl & -> & Hk & Hp).
    rewrite Hp. simpl. destruct (is_power (type sk)) eqn:Ep; [|done]. intros [= <-].
    exists k, sk. repeat split; [by eapply lookup_lt_Some|done| |done].
    rewrite Ho in Hp. injection Hp as ->. simpl in Hname. by rewrite upper_idem in Hname.
Qed.

(** A name that no pin of the map built so far carries does not resolve. *)
Lemma resolve_well_miss self base done s w :
  building self base done s →
  (∀ k sk, done !! k = Some sk → base + k ∈ values (pin_map base done) →
           upper w ∉ names sk) →
  resolve_well s (pin_map base done) w = Raise KeyError_well.
Proof.
  intros B Hmiss. unfold resolve_well, _PinList___getitem__.
  destruct (getitem (upper w) (pin_map base done)) as [r'|] eqn:Eg; simpl.
  - apply getitem_Some in Eg.
    assert (Hv : r' ∈ values (pin_map base done)).
    { unfold values. apply list_elem_of_fmap. by exists (upper w, r'). }
    apply pin_map_elem in Eg as (j & sj & rest & -> & Hj & Hn).
    destruct (Hmiss j sj Hj Hv). rewrite Hn. apply list_elem_of_here.
  - rewrite _PinList_scan_miss; [done|].
    intros r Hr. destruct (building_values _ _ _ _ _ B Hr) as (k & sk & wl & -> & Hk & Hp).
    eexists. split; [exact Hp|]. simpl. rewrite upper_idem. exact (Hmiss k sk Hk Hr).
Qed.

(** A name carried only by pins that are not power pins does not resolve
    to a well either. *)
Lemma resolve_well_not_power self base done s w r k sk :
  building self base done s →
  snd (_PinList___getitem__ (pin_map base done) w s) = Ok r →
  r = base + k → done !! k = Some sk → is_power (type sk) = false →
  resolve_well s (pin_map base done) w = Raise ValueError_not_power_pin.
Proof.
  intros B Hg -> Hk Hp. unfold resolve_well. rewrite Hg.
  destruct (b_pin _ _ _ _ B k sk Hk) as (wl & Hpin & _). rewrite Hpin. simpl.
  by rewrite Hp.
Qed.

Lemma well_outcome_Ok self base done s spec wl :
  building self base done s →
  well_outcome s (pin_map base done) spec = Ok wl →
  well_ok base (done ++ [spec]) (length done) spec wl.
Proof.
  intros B. unfold well_outcome, well_ok.
  destruct (well_name spec) as [w|]; [|by intros [= <-]].
  destruct (resolve_well s (pin_map base done) w) as [r|e] eqn:E; [|done].
  intros [= <-].
  destruct (resolve_well_Ok _ _ _ _ _ _ B E) as (k & sk & Hk & -> & Hd & Hin & Hp).
  exists k, sk. repeat split; [done| |done|done]. by apply lookup_app_l_Some.
Qed.

(** A successful turn of the loop builds one more pin. *)
Lemma building_step self base done s spec s' :
  building self base done s →
  _generate_pin_instances_body self (length done, spec) s = (s', Ok tt) →
  building self base (done ++ [spec]) s'.
Proof.
  intros B. destruct (b_part _ _ _ _ B) as (Pt & HPt & Hpins).
  rewrite (_generate_pin_instances_body_spec _ _ _ _ _ HPt). rewrite Hpins.
  destruct (well_outcome s (pin_map base done) spec) as [wl|e] eqn:Ew; [|done].
  simpl. destruct (names spec) as [|nm rest] eqn:En; [done|].
  intros [= <-]. pose proof (b_len _ _ _ _ B) as Hlen. split.
  - simpl. rewrite !length_app. simpl. lia.
  - intros j sj Hj. apply lookup_app_Some in Hj as [Hj|[_ Hj]].
    + by apply (b_names _ _ _ _ B j).
    + apply list_lookup_singleton_Some in Hj as [_ <-]. by rewrite En.
  - intros j sj Hj. simpl. apply lookup_app_Some in Hj as [Hj|[Hge Hj]].
    + destruct (b_pin _ _ _ _ B j sj Hj) as (wl' & Hp & Hw). exists wl'. split.
      * by apply lookup_app_l_Some.
      * by apply well_ok_mono.
    + apply list_lookup_singleton_Some in Hj as [Hj <-].
      assert (j = length done) as -> by lia. exists wl. split.
      * apply list_lookup_middle. lia.
      * by eapply well_outcome_Ok.
  - eexists. simpl. rewrite list_lookup_alter_eq, HPt. simpl. split; [done|]. simpl.
    rewrite pin_map_snoc. unfold pin_map_step. simpl. by rewrite En, Hpins, Hlen.
Qed.

(** A pin with a name and no well is always built. *)
Lemma building_progress self base done s spec :
  building self base done s →
  names spec ≠ [] → well_name spec = None →
  ∃ s', _generate_pin_instances_body self (length done, spec) s = (s', Ok tt).
Proof.
  intros B Hn Hw. destruct (b_part _ _ _ _ B) as (Pt & HPt & Hpins).
  rewrite (_generate_pin_instances_body_spec _ _ _ _ _ HPt).
  unfold well_outcome. rewrite Hw. simpl.
  destruct (names spec); [done|]. eauto.
Qed.

Lemma building_loop self base todo : ∀ done s s',
  building self base done s →
  for_each (enumerate_from (length done) todo) (_generate_pin_instances_body self) s
    = (s', Ok tt) →
  building self base (done ++ todo) s'.
Proof.
  induction todo as [|spec todo IH]; intros done s s' B.
  - simpl. intros [= <-]. by rewrite app_nil_r.
  - cbn [enumerate_from]. rewrite for_each_cons.
    destruct (_generate_pin_instances_body self (length done, spec) s)
      as [s1 [[]|e]] eqn:E; [|done].
    intros H. pose proof (building_step _ _ _ _ _ _ B E) as B1.
    replace (done ++ spec :: todo) with ((done ++ [spec]) ++ todo)
      by (by rewrite <- app_assoc).
    apply (IH _ s1 s' B1). rewrite length_app. simpl.
    by replace (length done + 1) with (S (length done)) by lia.
Qed.

Lemma building_loop_total self base todo : ∀ done s,
  building self base done s →
  (∀ spec, spec ∈ todo → names spec ≠ [] ∧ well_name spec = None) →
  ∃ s', for_each (enumerate_from (length done) todo) (_generate_pin_instances_body self) s
        = (s', Ok tt).
Proof.
  induction todo as [|spec todo IH]; intros done s B Hall.
  - by exists s.
  - cbn [enumerate_from]. rewrite for_each_cons.
    destruct (Hall spec) as [Hn Hw]; [apply list_elem_of_here|].
    destruct (building_progress _ _ _ _ _ B Hn Hw) as [s1 E]. rewrite E.
    pose proof (building_step _ _ _ _ _ _ B E) as B1.
    destruct (IH (done ++ [spec]) s1 B1) as [s' E'].
    { intros sp Hsp. apply Hall. by apply list_elem_of_further. }
    exists s'. rewrite length_app in E'. simpl in E'.
    by replace (length done + 1) with (S (length done)) in E' by lia.
Qed.

(** ** What the pin-building loop leaves alone *)

Lemma loop_frame_refl s : loop_frame s s.
Proof. by split. Qed.

Lemma loop_frame_trans s1 s2 s3 : loop_frame s1 s2 → loop_frame s2 s3 → loop_frame s1 s3.
Proof. intros [] []. split; congruence. Qed.

Lemma loop_frame__PinList_scan l k : stable loop_frame (_PinList_scan l k).
Proof.
  induction l as [|pin l IH]; simpl.
  - stable_walk loop_frame_refl loop_frame_trans idtac.
  - stable_walk loop_frame_refl loop_frame_trans ltac:(apply IH).
Qed.

Lemma loop_frame_body self ip : stable loop_frame (_generate_pin_instances_body self ip).
Proof.
  unfold _generate_pin_instances_body, ParticularPin___init__, _PinList___getitem__, Pin_name.
  stable_walk loop_frame_refl loop_frame_trans
    ltac:(first [ apply loop_frame__PinList_scan
                | apply stable_modify; intros; split; simpl;
                  rewrite ?length_alter; reflexivity ]).
Qed.

Lemma loop_frame_loop self l :
  stable loop_frame (for_each l (_generate_pin_instances_body self)).
Proof.
  apply (stable_for_each _ loop_frame_refl loop_frame_trans). intros. apply loop_frame_body.
Qed.

(** ** [Part.__init__] as a whole *)

Lemma Part___init___unfold cls c v r pk pop s :
  classes s !! cls = Some c →
  Part___init__ cls v r pk pop s
  = match for_each (enumerate_from 0 (map spec_of (PINS c)))
            (_generate_pin_instances_body (length (parts s))) (prepared cls c v r pk pop s)
    with
    | (s', Ok _) => (logged (Part_plugins s') (IPart (length (parts s))) s',
                     Ok (length (parts s)))
    | (s', Raise e) => (s', Raise e)
    end.
Proof.
  intros Hc. unfold Part___init__, Part__generate_pin_instances.
  unfold mbind, M_bind, bind, deref, get, modify, mret, M_ret, ret.
  rewrite Hc. cbn [parts with_parts part_class classes].
  rewrite list_lookup_middle by done. cbn [part_class classes with_parts]. rewrite Hc.
  rewrite normalize_PINS_spec. cbn [Pin_plugins with_parts].
  change (with_parts (alter (set_pins []) (length (parts s))) _)
    with (prepared cls c v r pk pop s).
  destruct (for_each _ _ (prepared cls c v r pk pop s)) as [s' [[]|e]]; [|done].
  by rewrite init_plugins_spec.
Qed.

Lemma building_prepared cls c v r pk pop s :
  building (length (parts s)) (length (ppins s)) [] (prepared cls c v r pk pop s).
Proof.
  split.
  - simpl. lia.
  - intros j sj H. by rewrite lookup_nil in H.
  - intros j sj H. by rewrite lookup_nil in H.
  - eexists. simpl. rewrite list_lookup_alter_eq, list_lookup_middle by done. done.
Qed.

Lemma building_logged self base done l x s :
  building self base done s → building self base done (logged l x s).
Proof. intros []. by split. Qed.

(** A successful [Part(...)]: the new part has one particular pin per
    entry of [PINS], in order; nets are untouched; the log gains the [Pin]
    hooks of the bare entries and then the [Part] hooks. *)
Lemma Part___init___Ok cls c v r pk pop s s' self :
  classes s !! cls = Some c →
  Part___init__ cls v r pk pop s = (s', Ok self) →
  self = length (parts s) ∧
  building self (length (ppins s)) (map spec_of (PINS c)) s' ∧
  nets s' = nets s ∧
  hook_log s' = hook_log s ++ pin_hooks (Pin_plugins s) (PINS c)
                  ++ map (fun pl => (pl, IPart self)) (Part_plugins s).
Proof.
  intros Hc. rewrite (Part___init___unfold _ _ _ _ _ _ _ Hc).
  pose proof (loop_frame_loop (length (parts s)) (enumerate_from 0 (map spec_of (PINS c)))
                (prepared cls c v r pk pop s)) as F.
  destruct (for_each _ _ (prepared cls c v r pk pop s)) as [s1 [[]|e]] eqn:E; [|done].
  intros [= <- <-]. simpl in F. destruct F. simpl in *.
  split; [done|]. split; [|split].
  - apply building_logged.
    by apply (building_loop _ _ _ [] _ _ (building_prepared cls c v r pk pop s)).
  - simpl. congruence.
  - simpl. rewrite lf_hook_log0, lf_Part_plugins0. simpl. by rewrite <- app_assoc.
Qed.

(** [Part.__init__] always returns or raises, and it returns when every
    pin has a name and none names a well. *)
Lemma Part___init___total cls c v r pk pop s :
  classes s !! cls = Some c →
  (∀ e, e ∈ PINS c → names (spec_of e) ≠ [] ∧ well_name (spec_of e) = None) →
  ∃ s', Part___init__ cls v r pk pop s = (s', Ok (length (parts s))).
Proof.
  intros Hc Hall. rewrite (Part___init___unfold _ _ _ _ _ _ _ Hc).
  destruct (building_loop_total _ _ (map spec_of (PINS c)) [] _
              (building_prepared cls c v r pk pop s)) as [s1 E].
  { intros spec Hs. apply list_elem_of_fmap in Hs as (e & -> & He). by apply Hall. }
  simpl in E. rewrite E. eauto.
Qed.

(** ** Repeated aliases *)

Lemma getitem_setitem_eq {V} (k : string) (v : V) d : getitem k (setitem k v d) = Some v.
Proof.
  induction d as [|[k' v'] d IH]; simpl.
  - by rewrite decide_True.
  - destruct (decide (k' = k)) as [->|Hne]; simpl.
    + by rewrite decide_True.
    + by rewrite decide_False.
Qed.

Lemma getitem_setitem_ne {V} (k k' : string) (v : V) d :
  k' ≠ k → getitem k (setitem k' v d) = getitem k d.
Proof.
  intros Hne. induction d as [|[k0 v0] d IH]; simpl.
  - by rewrite decide_False.
  - destruct (decide (k0 = k')) as [->|Hne0]; simpl.
    + by rewrite !decide_False.
    + destruct (decide (k0 = k)); [done|]. apply IH.
Qed.

(** Under a shared first alias the pin map holds the last pin declared. *)
Lemma pin_map_last base l1 spec l2 nm rest :
  names spec = nm :: rest →
  (∀ sj, sj ∈ l2 → hd_error (names sj) ≠ Some nm) →
  getitem nm (pin_map base (l1 ++ spec :: l2)) = Some (base + length l1).
Proof.
  intros Hn. induction l2 as [|x l2 IH] using rev_ind; intros Hl2.
  - rewrite pin_map_snoc. unfold pin_map_step. simpl. rewrite Hn.
    apply getitem_setitem_eq.
  - replace (l1 ++ spec :: l2 ++ [x]) with ((l1 ++ spec :: l2) ++ [x])
      by (by rewrite <- app_assoc).
    rewrite pin_map_snoc. unfold pin_map_step. simpl.
    assert (Hx : hd_error (names x) ≠ Some nm).
    { apply Hl2. apply elem_of_app. right. apply list_elem_of_here. }
    assert (IH' : getitem nm (pin_map base (l1 ++ spec :: l2)) = Some (base + length l1)).
    { apply IH. intros sj Hsj. apply Hl2. apply elem_of_app. by left. }
    destruct (names x) as [|nx restx]; [done|].
    rewrite getitem_setitem_ne; [done|]. simpl in Hx. congruence.
Qed.

(** C4, as stated, fails: a pin list with the same alias twice is accepted.
    The class statement runs no code of [base.py], and [Part()] returns;
    the second pin takes the place of the first in the pin map. *)
Lemma duplicate_alias_accepted :
  map (names ∘ spec_of) (PINS TwoA) = [["A"]; ["A"]] ∧
  ∃ s', Part___init__ 0 None None None true (run [SClass TwoA] empty_store) = (s', Ok 0)
        ∧ pins <$> parts s' !! 0 = Some [("A", 1)].
Proof. split; [done|]. eexists. split; vm_compute; reflexivity. Qed.

(** C4, amended.  Aliases are never compared: for every pin list in which
    each pin has at least one alias and no pin names a well, [Part()]
    returns the new part, with or without repeated aliases; the pin map is
    the dict filled in declaration order, so that under a shared first
    alias it holds the last pin declared with it. *)
Theorem aliases_never_checked (s : Store) (cls : nat) (c : PartClass)
    (v r pk : option string) (pop : bool) :
  classes s !! cls = Some c →
  (∀ e, e ∈ PINS c → names (spec_of e) ≠ [] ∧ well_name (spec_of e) = None) →
  ∃ s', Part___init__ cls v r pk pop s = (s', Ok (length (parts s))) ∧
        pins <$> parts s' !! length (parts s)
          = Some (pin_map (length (ppins s)) (map spec_of (PINS c))) ∧
        ∀ l1 spec l2 nm rest,
          map spec_of (PINS c) = l1 ++ spec :: l2 →
          names spec = nm :: rest →
          (∀ sj, sj ∈ l2 → hd_error (names sj) ≠ Some nm) →
          getitem nm (pin_map (length (ppins s)) (map spec_of (PINS c)))
            = Some (length (ppins s) + length l1).
Proof.
  intros Hc Hall. destruct (Part___init___total cls c v r pk pop s Hc Hall) as [s' E].
  exists s'. split; [done|].
  destruct (Part___init___Ok _ _ _ _ _ _ _ _ _ Hc E) as (_ & B & _).
  destruct (b_part _ _ _ _ B) as (Pt & HPt & Hpins). split.
  - by rewrite HPt, <- Hpins.
  - intros l1 spec l2 nm rest -> Hn Hl2. by eapply pin_map_last.
Qed.

Lemma aliases_never_checked_witness :
  ∃ s', Part___init__ 0 None None None true (run [SClass TwoA] empty_store) = (s', Ok 0) ∧
        pins <$> parts s' !! 0 = Some (pin_map 0 (map spec_of (PINS TwoA))) ∧
        ∀ l1 spec l2 nm rest,
          map spec_of (PINS TwoA) = l1 ++ spec :: l2 →
          names spec = nm :: rest →
          (∀ sj, sj ∈ l2 → hd_error (names sj) ≠ Some nm) →
          getitem nm (pin_map 0 (map spec_of (PINS TwoA))) = Some (0 + length l1).
Proof.
  apply (aliases_never_checked (run [SClass TwoA] empty_store) 0 TwoA None None None true).
  - reflexivity.
  - intros e He. simpl in He.
    apply elem_of_cons in He as [->|He]; [done|].
    apply list_elem_of_singleton in He as ->. done.
Defined.

(** ** Pin numbers *)

(** C7, as stated, fails: [Pin("A", numbers=())] passes the assertion of
    [ParticularPin.__init__] (its numbers are not [None]) and the particular
    pin keeps the empty sequence. *)
Lemma empty_numbers_kept :
  ∃ s', Part___init__ 0 None None None true (run [SClass NoNumbers] empty_store) = (s', Ok 0)
        ∧ pins <$> parts s' !! 0 = Some [("A", 0)]
        ∧ (numbers ∘ inherited) <$> ppins s' !! 0 = Some (Some []).
Proof. eexists. split; [|split]; vm_compute; reflexivity. Qed.

(** C7, amended.  In every part that [Part()] returns, the pin declared at
    position [i] (counting from 0) is a particular pin of that part whose
    numbers are the single string [str(i)] when its template supplied none,
    and otherwise exactly the numbers the template supplied (so they are
    non-empty whenever the supplied ones are); every pin of the part's pin
    map is one of these. *)
Theorem numbers_resolved (s s' : Store) (cls self : nat) (c : PartClass)
    (v r pk : option string) (pop : bool) :
  classes s !! cls = Some c →
  Part___init__ cls v r pk pop s = (s', Ok self) →
  (∀ i e, PINS c !! i = Some e →
     ∃ P, ppins s' !! (length (ppins s) + i) = Some P ∧
          part P = self ∧ _part_pin_instance P = spec_of e ∧
          numbers (inherited P)
            = Some (match numbers (spec_of e) with
                    | None => [str i]
                    | Some l => l
                    end)) ∧
  (∀ Pt k p, parts s' !! self = Some Pt → (k, p) ∈ pins Pt →
     ∃ i e, p = length (ppins s) + i ∧ PINS c !! i = Some e).
Proof.
  intros Hc E. destruct (Part___init___Ok _ _ _ _ _ _ _ _ _ Hc E) as (-> & B & _).
  split.
  - intros i e He.
    assert (Hs : map spec_of (PINS c) !! i = Some (spec_of e))
      by (by rewrite list_lookup_fmap, He).
    destruct (b_pin _ _ _ _ B i _ Hs) as (wl & HP & _).
    eexists. split; [exact HP|]. done.
  - intros Pt k p HPt Hin. destruct (b_part _ _ _ _ B) as (Pt' & HPt' & Hpins).
    assert (Pt' = Pt) as -> by congruence. rewrite Hpins in Hin.
    apply pin_map_elem in Hin as (j & sj & rest & -> & Hj & _).
    rewrite list_lookup_fmap in Hj. destruct (PINS c !! j) as [e|] eqn:He; [|done].
    eauto.
Qed.

Lemma numbers_resolved_witness :
  (∀ i e, PINS Resistor !! i = Some e →
     ∃ P, ppins lone_resistor !! (0 + i) = Some P ∧
          part P = 0 ∧ _part_pin_instance P = spec_of e ∧
          numbers (inherited P)
            = Some (match numbers (spec_of e) with
                    | None => [str i]
                    | Some l => l
                    end)) ∧
  (∀ Pt k p, parts lone_resistor !! 0 = Some Pt → (k, p) ∈ pins Pt →
     ∃ i e, p = 0 + i ∧ PINS Resistor !! i = Some e).
Proof.
  apply (numbers_resolved (run [SClass Resistor] empty_store) lone_resistor 0 0 Resistor
           None None None true).
  - reflexivity.
  - vm_compute. reflexivity.
Defined.

(** ** Power wells *)

Lemma _PinList_scan_hit vals k s r o :
  (∀ q, q ∈ vals → is_Some (ppins s !! q)) →
  r ∈ vals → ppins s !! r = Some o → upper k ∈ names (inherited o) →
  ∃ r', snd (_PinList_scan vals k s) = Ok r'.
Proof.
  induction vals as [|q vals IH]; intros Hv Hr Ho Hin.
  - by apply elem_of_nil in Hr.
  - simpl. munfold. destruct (Hv q) as [oq Hq]; [apply list_elem_of_here|].
    rewrite Hq. simpl.
    destruct (decide (upper k ∈ names (inherited oq))) as [|Hn]; [eauto|].
    apply elem_of_cons in Hr as [->|Hr]; [congruence|].
    apply IH; [|done..]. intros q' Hq'. apply Hv. by apply list_elem_of_further.
Qed.

(** When the lookup in the map built so far raises, it raises [KeyError]
    and no pin of the map carries the name. *)
Lemma _PinList___getitem___Raise self base done s w e :
  building self base done s →
  snd (_PinList___getitem__ (pin_map base done) w s) = Raise e →
  e = KeyError_pin_name ∧
  ∀ k sk, done !! k = Some sk → base + k ∈ values (pin_map base done) →
          upper w ∉ names sk.
Proof.
  intros B. unfold _PinList___getitem__.
  destruct (getitem (upper w) (pin_map base done)); [done|]. intros Hs.
  assert (Hv : ∀ q, q ∈ values (pin_map base done) → is_Some (ppins s !! q)).
  { intros q Hq. destruct (building_values _ _ _ _ _ B Hq) as (k & sk & wl & _ & _ & Hp).
    eauto. }
  split.
  - destruct (_PinList_scan_outcome _ (upper w) s Hv) as [[r' Hr]|Hr]; congruence.
  - intros k sk Hk Hin Hname.
    destruct (building_values _ _ _ _ _ B Hin) as (k' & sk' & wl & Heq & Hk' & Hp).
    assert (k' = k) as -> by lia. assert (sk' = sk) as -> by congruence.
    destruct (_PinList_scan_hit _ (upper w) s _ _ Hv Hin Hp) as [r' Hr'].
    + simpl. by rewrite upper_idem.
    + congruence.
Qed.

Lemma _PinList___getitem___Ok self base done s w p :
  building self base done s →
  snd (_PinList___getitem__ (pin_map base done) w s) = Ok p →
  ∃ k sk wl, k < length done ∧ p = base + k ∧ done !! k = Some sk ∧ upper w ∈ names sk ∧
             ppins s !! p = Some (mkParticularPin (bound k sk) sk self wl None).
Proof.
  intros B. unfold _PinList___getitem__.
  destruct (getitem (upper w) (pin_map base done)) as [r'|] eqn:Eg; simpl.
  - intros [= ->]. apply getitem_Some in Eg.
    apply pin_map_elem in Eg as (j & sj & rest & -> & Hj & Hn).
    destruct (b_pin _ _ _ _ B j sj Hj) as (wl & Hp & _).
    exists j, sj, wl. repeat split; [by eapply lookup_lt_Some|done| |done].
    rewrite Hn. apply list_elem_of_here.
  - intros Es. apply _PinList_scan_Ok in Es as (Hin & o & Ho & Hname).
    destruct (building_values _ _ _ _ _ B Hin) as (k & sk & wl & -> & Hk & Hp).
    exists k, sk, wl. repeat split; [by eapply lookup_lt_Some|done| |done].
    rewrite Ho in Hp. injection Hp as ->. simpl in Hname. by rewrite upper_idem in Hname.
Qed.

Lemma enumerate_from_app {A} i (l1 l2 : list A) :
  enumerate_from i (l1 ++ l2) = enumerate_from i l1 ++ enumerate_from (i + length l1) l2.
Proof.
  revert i. induction l1 as [|x l1 IH]; intros i; simpl.
  - by rewrite Nat.add_0_r.
  - rewrite IH. by replace (S i + length l1) with (i + S (length l1)) by lia.
Qed.

(** The construction stops at the first pin whose turn raises. *)
Lemma Part___init___raises_at cls c v r pk pop s done spec todo s1 s2 e :
  classes s !! cls = Some c →
  map spec_of (PINS c) = done ++ spec :: todo →
  for_each (enumerate_from 0 done) (_generate_pin_instances_body (length (parts s)))
    (prepared cls c v r pk pop s) = (s1, Ok tt) →
  _generate_pin_instances_body (length (parts s)) (length done, spec) s1 = (s2, Raise e) →
  Part___init__ cls v r pk pop s = (s2, Raise e).
Proof.
  intros Hc Hl Hd Hb. rewrite (Part___init___unfold _ _ _ _ _ _ _ Hc), Hl.
  rewrite enumerate_from_app, for_each_app, Hd. cbn [enumerate_from Nat.add].
  by rewrite for_each_cons, Hb.
Qed.

(** C8, as stated, fails: the part has a pin with alias [PWR], of type
    [POWER_INPUT], and yet construction raises the [KeyError] of an unknown
    well, because that pin is declared after the pin that names it. *)
Lemma forward_well_rejected :
  (∃ e, e ∈ PINS ForwardWell ∧ "PWR" ∈ names (spec_of e)
        ∧ type (spec_of e) = PinType.POWER_INPUT) ∧
  snd (Part___init__ 0 None None None true (run [SClass ForwardWell] empty_store))
    = Raise UnknownWellPin.
Proof.
  split; [|vm_compute; reflexivity].
  exists (PinInst (mkPin ["PWR"] None PinType.POWER_INPUT None)).
  split; [|split; [|done]].
  - simpl. apply list_elem_of_further, list_elem_of_here.
  - simpl. apply list_elem_of_here.
Qed.

(** C8, amended.  When the construction of a part reaches a pin that names
    a well (the pins declared before it have been built), the name is looked
    up in the part's pin map built so far.  If the lookup raises, no pin of
    that map carries the name and [Part()] raises the [KeyError] of an
    unknown well; this is what happens when the well pin is declared later.
    If the lookup finds a pin, it is a pin of the same part declared earlier
    that carries the name; if its type is neither [POWER_INPUT] nor
    [POWER_OUTPUT], [Part()] raises the [ValueError] of an invalid well,
    and otherwise the new pin is allocated, in that very turn, with its
    [well] field referring to the pin found. *)
Theorem well_resolved_in_pins_built_so_far (s s1 : Store) (cls : nat) (c : PartClass)
    (v r pk : option string) (pop : bool) (done todo : list Pin) (spec : Pin)
    (w : string) :
  classes s !! cls = Some c →
  map spec_of (PINS c) = done ++ spec :: todo →
  for_each (enumerate_from 0 done) (_generate_pin_instances_body (length (parts s)))
    (prepared cls c v r pk pop s) = (s1, Ok tt) →
  well_name spec = Some w →
  pins <$> parts s1 !! length (parts s) = Some (pin_map (length (ppins s)) done) ∧
  match snd (_PinList___getitem__ (pin_map (length (ppins s)) done) w s1) with
  | Raise _ =>
      (∀ k sk, done !! k = Some sk →
               length (ppins s) + k ∈ values (pin_map (length (ppins s)) done) →
               upper w ∉ names sk) ∧
      Part___init__ cls v r pk pop s = (s1, Raise UnknownWellPin)
  | Ok p =>
      ∃ k sk, k < length done ∧ p = length (ppins s) + k ∧ done !! k = Some sk ∧
              upper w ∈ names sk ∧ part <$> ppins s1 !! p = Some (length (parts s)) ∧
              if is_power (type sk) then
                ∃ s2 o,
                  _generate_pin_instances_body (length (parts s)) (length done, spec) s1
                    = (s2, o) ∧
                  ppins s2 !! (length (ppins s) + length done)
                    = Some (mkParticularPin (bound (length done) spec) spec
                              (length (parts s)) (Some p) None)
              else Part___init__ cls v r pk pop s = (s1, Raise InvalidWellPinType)
  end.
Proof.
  intros Hc Hl Hd Hw.
  pose proof (building_loop _ _ done [] _ _ (building_prepared cls c v r pk pop s) Hd) as B.
  simpl in B. destruct (b_part _ _ _ _ B) as (Pt & HPt & Hpins).
  pose proof (b_len _ _ _ _ B) as Hlen.
  split; [by rewrite HPt, <- Hpins|].
  pose proof (_generate_pin_instances_body_spec _ (length done) spec _ _ HPt) as Hb.
  rewrite Hpins in Hb. unfold well_outcome, resolve_well in Hb. rewrite Hw in Hb.
  destruct (snd (_PinList___getitem__ (pin_map (length (ppins s)) done) w s1))
    as [p|e] eqn:Eg.
  - destruct (_PinList___getitem___Ok _ _ _ _ _ _ B Eg)
      as (k & sk & wl & Hk & -> & Hdk & Hname & Hp).
    exists k, sk. repeat split; [done..|by rewrite Hp|].
    rewrite Hp in Hb. simpl in Hb. destruct (is_power (type sk)).
    + destruct (names spec) as [|nm rest].
      * do 2 eexists. split; [exact Hb|]. simpl. apply list_lookup_middle. lia.
      * do 2 eexists. split; [exact Hb|]. simpl. apply list_lookup_middle. lia.
    + by eapply Part___init___raises_at.
  - destruct (_PinList___getitem___Raise _ _ _ _ _ _ B Eg) as [-> Hmiss].
    split; [done|]. by eapply Part___init___raises_at.
Qed.

Lemma well_resolved_in_pins_built_so_far_witness :
  pins <$> parts (prepared 0 ForwardWell None None None true
                    (run [SClass ForwardWell] empty_store)) !! 0 = Some [] ∧
  (∀ k sk, ([] : list Pin) !! k = Some sk → 0 + k ∈ values (pin_map 0 []) →
           upper "PWR" ∉ names sk) ∧
  Part___init__ 0 None None None true (run [SClass ForwardWell] empty_store)
    = (prepared 0 ForwardWell None None None true (run [SClass ForwardWell] empty_store),
       Raise UnknownWellPin).
Proof.
  exact (well_resolved_in_pins_built_so_far
           (run [SClass ForwardWell] empty_store)
           (prepared 0 ForwardWell None None None true
              (run [SClass ForwardWell] empty_store))
           0 ForwardWell None None None true []
           [mkPin ["PWR"] None PinType.POWER_INPUT None]
           (mkPin ["SIG"] None PinType.INPUT (Some "PWR")) "PWR"
           eq_refl eq_refl eq_refl eq_refl).
Defined.

(** The scenario of the well declared first: [p.pins["SIG"].well is
    p.pins["PWR"]]. *)
Lemma backward_well_resolved :
  ∃ s', Part___init__ 0 None None None true (run [SClass BackwardWell] empty_store)
          = (s', Ok 0) ∧
        pins <$> parts s' !! 0 = Some [("PWR", 0); ("SIG", 1)] ∧
        well <$> ppins s' !! 1 = Some (Some 0).
Proof. eexists. split; [|split]; vm_compute; reflexivity. Qed.

(** In a part that [Part()] returns, every pin that names a well refers,
    in its [well] field, to a pin of the same part declared before it that
    carries the name and is a power pin. *)
Lemma wells_of_a_built_part cls c v r pk pop s s' self i e w :
  classes s !! cls = Some c →
  Part___init__ cls v r pk pop s = (s', Ok self) →
  PINS c !! i = Some e → well_name (spec_of e) = Some w →
  ∃ k ek, k < i ∧ PINS c !! k = Some ek ∧ upper w ∈ names (spec_of ek) ∧
          is_power (type (spec_of ek)) = true ∧
          well <$> ppins s' !! (length (ppins s) + i) = Some (Some (length (ppins s) + k)) ∧
          part <$> ppins s' !! (length (ppins s) + k) = Some self.
Proof.
  intros Hc E He Hw. destruct (Part___init___Ok _ _ _ _ _ _ _ _ _ Hc E) as (-> & B & _).
  assert (Hs : map spec_of (PINS c) !! i = Some (spec_of e))
    by (by rewrite list_lookup_fmap, He).
  destruct (b_pin _ _ _ _ B i _ Hs) as (wl & HP & Hok).
  unfold well_ok in Hok. rewrite Hw in Hok.
  destruct Hok as (k & sk & Hk & -> & Hdk & Hname & Hpow).
  destruct (b_pin _ _ _ _ B k _ Hdk) as (wl' & HP' & _).
  rewrite list_lookup_fmap in Hdk. destruct (PINS c !! k) as [ek|] eqn:Hek; [|done].
  injection Hdk as <-. exists k, ek. rewrite HP, HP'. done.
Qed.

(** ** Construction hooks *)

(** In a part that [Part()] returns, the hooks that fired are those of the
    [Pin] plugins, for the bare entries of [PINS] that were made into
    template pins, and then those of the [Part] plugins, once each and in
    registration order, on the new part.  None fires for a particular pin. *)
Lemma hooks_of_a_built_part cls c v r pk pop s s' self :
  classes s !! cls = Some c →
  Part___init__ cls v r pk pop s = (s', Ok self) →
  hook_log s' = hook_log s ++ pin_hooks (Pin_plugins s) (PINS c)
                  ++ map (fun pl => (pl, IPart self)) (Part_plugins s) ∧
  ∀ pl p, (pl, IParticularPin p) ∈ hook_log s' → (pl, IParticularPin p) ∈ hook_log s.
Proof.
  intros Hc E. destruct (Part___init___Ok _ _ _ _ _ _ _ _ _ Hc E) as (_ & _ & _ & Hlog).
  split; [done|]. intros pl p. rewrite Hlog, !elem_of_app.
  intros [H|[H|H]]; [done| |].
  - unfold pin_hooks in H. apply list_elem_of_In, in_flat_map in H as (e & _ & H).
    destruct e; [|done]. apply in_map_iff in H as (? & [=] & _).
  - apply list_elem_of_fmap in H as (? & [=] & _).
Qed.

(** C9, at the failing input: with a plugin registered on [ParticularPin],
    building a two-pin part runs the two [Part] hooks, in registration
    order, and no hook at all for either of its two new particular pins. *)
Lemma no_hook_for_particular_pins :
  ParticularPin_plugins hooked_resistor = [7] ∧
  Part_plugins hooked_resistor = [8; 9] ∧
  length (ppins hooked_resistor) = 2 ∧
  hook_log hooked_resistor = [(8, IPart 0); (9, IPart 0)].
Proof. vm_compute. done. Qed.

(** The scenario of the resistor: [VCC << r.A], [GND << r.B]. *)
Lemma resistor_scenario :
  let s := run [SClass Resistor; SPart 0 None None None true;
                SNet (Some "vcc"); SNet (Some "gnd");
                SNetLshift 0 (VPin 0); SNetLshift 1 (VPin 1)] empty_store in
  (pin_net s 0 ≫= fun n => name <$> nets s !! n) = Some (Some "VCC") ∧
  (pin_net s 1 ≫= fun n => name <$> nets s !! n) = Some (Some "GND") ∧
  members s 0 = [(0, ConnectDirection.IN)] ∧
  members s 1 = [(1, ConnectDirection.IN)].
Proof. vm_compute. done. Qed.

(** ** Membership on both sides *)

(** C2, at the failing input: the second connect raises, and yet [r.A] is
    now in the member maps of both nets while its [_net] is still [N1]. *)
Lemma pin_recorded_in_two_nets :
  snd (exec (SNetLshift 1 (VPin 0)) (run [SNetLshift 0 (VPin 0)] two_nets))
    = Raise PinAlreadyConnected ∧
  pin_net reconnected 0 = Some 0 ∧
  members reconnected 0 = [(0, ConnectDirection.IN)] ∧
  members reconnected 1 = [(0, ConnectDirection.IN)].
Proof. vm_compute. done. Qed.

(** ** Every member of a net has a net *)

Lemma mc_kept_refl s : mc_kept s s.
Proof. by intros H. Qed.

Lemma mc_kept_trans s1 s2 s3 : mc_kept s1 s2 → mc_kept s2 s3 → mc_kept s1 s3.
Proof. unfold mc_kept. auto. Qed.

Lemma keys_setitem {K V} `{EqDecision K} (k q : K) (v : V) d :
  q ∈ keys (setitem k v d) ↔ q = k ∨ q ∈ keys d.
Proof.
  unfold keys. induction d as [|[k0 v0] d IH]; simpl.
  - rewrite list_elem_of_singleton, elem_of_nil. tauto.
  - destruct (decide (k0 = k)) as [->|Hne]; simpl; rewrite !elem_of_cons.
    + tauto.
    + rewrite IH. tauto.
Qed.

Lemma setitem_fresh {K V} `{EqDecision K} (k : K) (v : V) d :
  k ∉ keys d → setitem k v d = d ++ [(k, v)].
Proof.
  unfold keys. induction d as [|[k0 v0] d IH]; simpl; [done|].
  rewrite elem_of_cons. intros Hn. destruct (decide (k0 = k)) as [->|Hne]; [tauto|].
  rewrite IH; [done|tauto].
Qed.

Lemma mc_kept_same s s' : nets s' = nets s → ppins s' = ppins s → mc_kept s s'.
Proof.
  intros En Ep H n N p. unfold pin_net. rewrite En, Ep. apply H.
Qed.

Lemma mc_kept_new_net N0 :
  _connections N0 = [] → stable mc_kept (modify (with_nets (fun l => l ++ [N0]))).
Proof.
  intros E0 s H n N p. simpl. intros Hn Hp.
  apply lookup_app_Some in Hn as [Hn|[_ Hn]].
  - by apply (H n N p).
  - apply list_lookup_singleton_Some in Hn as [_ <-]. rewrite E0 in Hp.
    by apply elem_of_nil in Hp.
Qed.

Lemma mc_kept_new_pin P : stable mc_kept (modify (with_ppins (fun l => l ++ [P]))).
Proof.
  intros s H n N p. simpl. intros Hn Hp.
  destruct (H n N p Hn Hp) as [m Hm]. exists m.
  by apply (keeps_alloc_pin P s).
Qed.

Lemma Net_connect_body_not_pin s n d t o :
  (∀ p, o ≠ VPin p) → fst (Net_connect_body n d t o s) = s.
Proof.
  intros Ho. unfold Net_connect_body. munfold. destruct o as [p|p|m|l|]; simpl.
  - by destruct (parts s !! p).
  - by destruct (Ho p).
  - by destruct (nets s !! m).
  - done.
  - done.
Qed.

Lemma Net_connect_body_cases s n d t p :
  (fst (Net_connect_body n d t (VPin p) s) = s ∧
   (ppins s !! p = None ∨ nets s !! n = None)) ∨
  ∃ N P, nets s !! n = Some N ∧ ppins s !! p = Some P ∧
         Net_connect_body n d t (VPin p) s =
           let s1 := with_nets (alter (set__connections (setitem p d (_connections N))) n) s in
           match _net P with
           | Some _ => (s1, Raise ValueError_already_connected)
           | None => (with_ppins (alter (set__net (Some n)) p) s1, Ok tt)
           end.
Proof.
  destruct (ppins s !! p) as [P|] eqn:Ep; cycle 1.
  { left. split; [|by left]. unfold Net_connect_body. munfold. simpl. by rewrite Ep. }
  destruct (nets s !! n) as [N|] eqn:En; cycle 1.
  { left. split; [|by right]. unfold Net_connect_body, Net_connections_setitem. munfold.
    simpl. by rewrite Ep, En. }
  right. exists N, P. repeat split. by apply Net_connect_body_pin.
Qed.

Lemma mc_kept_Net_connect_body n d t o : stable mc_kept (Net_connect_body n d t o).
Proof.
  intros s H. destruct o as [q|p|m|l|];
    try (rewrite Net_connect_body_not_pin by done; exact H).
  destruct (Net_connect_body_cases s n d t p) as [[-> _]|(N & P & HN & HP & ->)]; [done|].
  assert (Hgoal : ∀ s', nets s' = alter (set__connections (setitem p d (_connections N))) n
                                  (nets s) →
                        (∀ q, is_Some (pin_net s q) → is_Some (pin_net s' q)) →
                        is_Some (pin_net s' p) → members_connected s').
  { intros s' En Hk Hp n' N' q Hn' Hq. rewrite En in Hn'.
    destruct (decide (n = n')) as [<-|Hne].
    - rewrite list_lookup_alter_eq, HN in Hn'. injection Hn' as <-. simpl in Hq.
      apply keys_setitem in Hq as [->|Hq]; [done|]. apply Hk. by apply (H n N q).
    - rewrite list_lookup_alter_ne in Hn' by done. apply Hk. by apply (H n' N' q). }
  simpl. destruct (_net P) as [m|] eqn:EP; simpl.
  - apply Hgoal; [done|done|]. unfold pin_net. simpl. rewrite HP. simpl. eauto.
  - apply Hgoal; [done| |].
    + intros q [m Hm]. exists m.
      apply (keeps_setter p n (with_nets
               (alter (set__connections (setitem p d (_connections N))) n) s) q m) in Hm.
      unfold ParticularPin_net_setter in Hm. munfold. simpl in Hm.
      by rewrite HP, EP in Hm.
    + unfold pin_net. simpl. rewrite list_lookup_alter_eq, HP. simpl. eauto.
Qed.

Ltac mc_leaf :=
  first [ apply mc_kept_Net_connect_body
        | apply mc_kept_new_pin
        | apply mc_kept_new_net; reflexivity
        | apply stable_modify; intros; apply mc_kept_same;
          first [ reflexivity | by match goal with |- context [register ?c] => destruct c end ] ].

Ltac mc_walk := stable_walk mc_kept_refl mc_kept_trans mc_leaf.

Lemma mc_kept_Net___init__ name : stable mc_kept (Net___init__ name).
Proof. unfold Net___init__, init_plugins. mc_walk. Qed.

Lemma mc_kept_Net_connect n o d t : stable mc_kept (Net_connect n o d t).
Proof. unfold Net_connect. mc_walk. Qed.

Lemma mc_kept_ParticularPin_net p : stable mc_kept (ParticularPin_net p).
Proof.
  unfold ParticularPin_net, ParticularPin__create_anonymous_net.
  stable_walk mc_kept_refl mc_kept_trans
    ltac:(first [apply mc_kept_Net___init__ | apply mc_kept_Net_connect]).
Qed.

Lemma mc_kept__PinList_scan l k : stable mc_kept (_PinList_scan l k).
Proof.
  induction l as [|pin l IH]; simpl.
  - mc_walk.
  - stable_walk mc_kept_refl mc_kept_trans ltac:(apply IH).
Qed.

Lemma mc_kept_normalize_PINS l : stable mc_kept (normalize_PINS l).
Proof.
  induction l as [|e l IH]; simpl; unfold Pin___init__, init_plugins.
  - mc_walk.
  - stable_walk mc_kept_refl mc_kept_trans ltac:(first [apply IH | mc_leaf]).
Qed.

Lemma mc_kept_Part___init__ cls v r p pop : stable mc_kept (Part___init__ cls v r p pop).
Proof.
  unfold Part___init__, Part__generate_pin_instances, _generate_pin_instances_body,
    ParticularPin___init__, _PinList___getitem__, init_plugins, Pin_name.
  stable_walk mc_kept_refl mc_kept_trans
    ltac:(first [ apply mc_kept_normalize_PINS | apply mc_kept__PinList_scan | mc_leaf ]).
Qed.

Lemma mc_kept_exec st : stable mc_kept (exec st).
Proof.
  destruct st; simpl;
    unfold plugin, define_class, Net___lshift__, Net___rshift__,
      ParticularPin___lshift__, ParticularPin___rshift__, lshift_value, rshift_value,
      Net___lshift__, Net___rshift__, ParticularPin__create_anonymous_net;
    stable_walk mc_kept_refl mc_kept_trans
      ltac:(first [ apply mc_kept_Net___init__ | apply mc_kept_Net_connect
                  | apply mc_kept_ParticularPin_net | apply mc_kept_Part___init__
                  | mc_leaf ]).
Qed.

Lemma members_connected_run script s :
  members_connected s → members_connected (run script s).
Proof.
  revert s. induction script as [|st script IH]; intros s H; simpl; [done|].
  apply IH. by apply (mc_kept_exec st s).
Qed.

Lemma members_connected_reachable s : reachable s → members_connected s.
Proof.
  intros [script ->]. apply members_connected_run.
  intros n N p Hn. simpl in Hn. by rewrite lookup_nil in Hn.
Qed.

(** ** Connecting a group *)

Lemma Net_connect_body_not_pin_raises s n d t o :
  (∀ p, o ≠ VPin p) → ∃ e, snd (Net_connect_body n d t o s) = Raise e.
Proof.
  intros Ho. unfold Net_connect_body. munfold. destruct o as [p|p|m|l|]; simpl.
  - destruct (parts s !! p); simpl; eauto.
  - by destruct (Ho p).
  - destruct (nets s !! m); simpl; eauto.
  - eauto.
  - eauto.
Qed.

Lemma members_after_connect s n N p d :
  nets s !! n = Some N →
  members (with_ppins (alter (set__net (Some n)) p)
             (with_nets (alter (set__connections (setitem p d (_connections N))) n) s)) n
  = setitem p d (members s n).
Proof.
  intros HN. unfold members. simpl. by rewrite list_lookup_alter_eq, HN.
Qed.

Lemma keeps_for_each_connect l n d t :
  stable keeps (for_each l (Net_connect_body n d t)).
Proof.
  apply (stable_for_each _ keeps_refl keeps_trans). intros. apply keeps_Net_connect_body.
Qed.

(** When the loop of [connect] runs to its end, its targets were pins; they
    are now the last members of the net, in the order of the group, each
    with the direction of the call. *)
Lemma for_each_connect_Ok n d t l : ∀ s s',
  members_connected s →
  for_each l (Net_connect_body n d t) s = (s', Ok tt) →
  ∃ ps, l = map VPin ps ∧
        members s' n = members s n ++ map (fun p => (p, d)) ps ∧
        (∀ p, p ∈ ps → pin_net s' p = Some n).
Proof.
  induction l as [|x l IH]; intros s s' Hmc.
  - simpl. intros [= <-]. exists []. simpl. rewrite app_nil_r.
    repeat split. intros p Hp. by apply elem_of_nil in Hp.
  - rewrite for_each_cons.
    destruct (Net_connect_body n d t x s) as [s1 [[]|e]] eqn:E; [|done]. intros Hl.
    assert (∃ p, x = VPin p) as [p ->].
    { destruct x as [q|p|m|g|]; eauto;
        by (edestruct (Net_connect_body_not_pin_raises s n d t) as [e He];
            [|rewrite E in He; discriminate He]). }
    pose proof (mc_kept_Net_connect_body n d t (VPin p) s Hmc) as Hmc1.
    rewrite E in Hmc1. simpl in Hmc1.
    apply Net_connect_body_pin_Ok in E as (N & P & HN & HP & HnP & ->).
    destruct (IH _ _ Hmc1 Hl) as (ps & -> & Hm & Hp).
    exists (p :: ps). split; [done|]. split.
    + rewrite Hm, (members_after_connect _ _ _ _ _ HN).
      rewrite setitem_fresh.
      * by rewrite <- app_assoc.
      * intros Hin. unfold members in Hin. rewrite HN in Hin.
        destruct (Hmc n N p HN Hin) as [m Hcon]. unfold pin_net in Hcon.
        rewrite HP in Hcon. simpl in Hcon. congruence.
    + intros q Hq. apply elem_of_cons in Hq as [->|Hq]; [|by apply Hp].
      pose proof (keeps_for_each_connect (map VPin ps) n d t) as Hk.
      specialize (Hk _ p n (pin_net_after_connect s n p d N (ex_intro _ P HP))).
      by rewrite Hl in Hk.
Qed.

(** The loop of [connect] runs to its end on any group of distinct pins
    that have no net yet. *)
Lemma for_each_connect_total n d t ps : ∀ s,
  is_Some (nets s !! n) → NoDup ps →
  (∀ p, p ∈ ps → is_Some (ppins s !! p) ∧ pin_net s p = None) →
  ∃ s', for_each (map VPin ps) (Net_connect_body n d t) s = (s', Ok tt).
Proof.
  induction ps as [|p ps IH]; intros s Hn Hnd Hps.
  - by exists s.
  - cbn [map]. rewrite for_each_cons.
    destruct Hn as [N HN]. destruct (Hps p) as [[P HP] Hnet]; [apply list_elem_of_here|].
    rewrite (Net_connect_body_pin _ _ _ d t _ _ HN HP). simpl.
    unfold pin_net in Hnet. rewrite HP in Hnet. simpl in Hnet. rewrite Hnet.
    apply NoDup_cons in Hnd as [Hnotin Hnd].
    apply IH; [|done|].
    + simpl. rewrite list_lookup_alter_eq, HN. eauto.
    + intros q Hq. destruct (Hps q) as [Hv Hq0]; [by apply list_elem_of_further|].
      assert (p ≠ q) by (intros ->; done).
      unfold pin_net in *. simpl. by rewrite list_lookup_alter_ne.
Qed.

Lemma Net___lshift___spec n others s :
  Net___lshift__ n others s
  = match Net_connect n others ConnectDirection.IN PinType.PRIMARY s with
    | (s', Ok _) => (s', Ok n)
    | (s', Raise e) => (s', Raise e)
    end.
Proof.
  unfold Net___lshift__. munfold.
  by destruct (Net_connect n others _ _ s) as [s' [[]|e]].
Qed.

Lemma Net___rshift___spec n others s :
  Net___rshift__ n others s
  = match Net_connect n others ConnectDirection.OUT PinType.PRIMARY s with
    | (s', Ok _) => (s', Ok n)
    | (s', Raise e) => (s', Raise e)
    end.
Proof.
  unfold Net___rshift__. munfold.
  by destruct (Net_connect n others _ _ s) as [s' [[]|e]].
Qed.

(** A group of distinct pins without a net, connected to an existing net of
    a store that a script has reached. *)
Lemma connect_fresh_group s n d t ps :
  members_connected s →
  is_Some (nets s !! n) → NoDup ps →
  (∀ p, p ∈ ps → is_Some (ppins s !! p) ∧ pin_net s p = None) →
  ∃ s', Net_connect n (VIter (map VPin ps)) d t s = (s', Ok tt) ∧
        members s' n = members s n ++ map (fun p => (p, d)) ps ∧
        (∀ p, p ∈ ps → pin_net s' p = Some n) ∧
        members_connected s' ∧ is_Some (nets s' !! n) ∧
        (∀ q, q ∉ ps → ppins s' !! q = ppins s !! q).
Proof.
  intros Hmc Hn Hnd Hps.
  destruct (for_each_connect_total n d t ps s Hn Hnd Hps) as [s' E].
  exists s'. unfold Net_connect. simpl. split; [done|].
  destruct (for_each_connect_Ok n d t _ _ _ Hmc E) as (ps' & Heq & Hm & Hp).
  assert (ps' = ps) as ->.
  { revert Heq. clear. revert ps'. induction ps as [|p ps IH]; intros [|p' ps']; simpl;
      try done. intros [= -> H]. f_equal. by apply IH. }
  repeat split; [done|done| | |].
  - pose proof (mc_kept_Net_connect n (VIter (map VPin ps)) d t s Hmc) as H.
    unfold Net_connect in H. simpl in H. by rewrite E in H.
  - pose proof (stable_for_each _ nets_grow_refl nets_grow_trans (map VPin ps)
                  (Net_connect_body n d t) (nets_grow_Net_connect_body n d t) s) as H.
    rewrite E in H. simpl in H. by eapply nets_grow_valid.
  - clear Hm Hp Hmc Hn Hnd Hps Heq. revert s E.
    induction ps as [|p ps IH]; intros s E q Hq.
    + simpl in E. by injection E as <-.
    + cbn [map] in E. rewrite for_each_cons in E.
      destruct (Net_connect_body n d t (VPin p) s) as [s1 [[]|e]] eqn:E1; [|done].
      rewrite (IH s1 E q) by (intros H; apply Hq; by apply list_elem_of_further).
      apply Net_connect_body_pin_Ok in E1 as (N & P & _ & _ & _ & ->). simpl.
      apply list_lookup_alter_ne. intros ->. apply Hq. apply list_elem_of_here.
Qed.

(** C6. In any store that a script has reached: whenever a connect to a
    net returns, its targets were pins and they have been appended to the
    net's member map in the order of the group, every one with the
    direction of the call.  Connecting a group of distinct pins that have no
    net yet to an existing net does return, and sets their [_net] to the
    net.  The operators return the net they were applied to, so that in the
    chain [n << g1 >> g2] the members of [g2], tagged [OUT], come after
    those of [g1], tagged [IN], on the same net. *)
Theorem group_connect_in_order (script : list stmt) (n : nat) (ps1 ps2 : list nat)
    (d : ConnectDirection.t) (t : PinType.t) :
  is_Some (nets (run script empty_store) !! n) →
  NoDup (ps1 ++ ps2) →
  (∀ p, p ∈ ps1 ++ ps2 →
        is_Some (ppins (run script empty_store) !! p) ∧
        pin_net (run script empty_store) p = None) →
  (∀ others s', Net_connect n others d t (run script empty_store) = (s', Ok tt) →
     ∃ ps, _maybe_single others = map VPin ps ∧
           members s' n = members (run script empty_store) n ++ map (fun p => (p, d)) ps ∧
           (∀ p, p ∈ ps → pin_net s' p = Some n)) ∧
  (∃ s1, Net_connect n (VIter (map VPin ps1)) d t (run script empty_store) = (s1, Ok tt) ∧
         members s1 n
           = members (run script empty_store) n ++ map (fun p => (p, d)) ps1 ∧
         (∀ p, p ∈ ps1 → pin_net s1 p = Some n)) ∧
  (∃ s2, (m ← Net___lshift__ n (VIter (map VPin ps1));
          Net___rshift__ m (VIter (map VPin ps2))) (run script empty_store) = (s2, Ok n) ∧
         members s2 n
           = members (run script empty_store) n
               ++ map (fun p => (p, ConnectDirection.IN)) ps1
               ++ map (fun p => (p, ConnectDirection.OUT)) ps2 ∧
         (∀ p, p ∈ ps1 ++ ps2 → pin_net s2 p = Some n)).
Proof.
  set (s := run script empty_store). intros Hn Hnd Hps.
  assert (Hmc : members_connected s) by (apply members_connected_reachable; by exists script).
  apply NoDup_app in Hnd as (Hnd1 & Hdisj & Hnd2).
  assert (Hps1 : ∀ p, p ∈ ps1 → is_Some (ppins s !! p) ∧ pin_net s p = None).
  { intros p Hp. apply Hps. apply elem_of_app. by left. }
  split; [|split].
  - intros others s' E. by apply (for_each_connect_Ok n d t _ s s' Hmc).
  - destruct (connect_fresh_group s n d t ps1 Hmc Hn Hnd1 Hps1) as (s1 & E & Hm & Hp & _).
    by exists s1.
  - destruct (connect_fresh_group s n ConnectDirection.IN PinType.PRIMARY ps1
                Hmc Hn Hnd1 Hps1) as (s1 & E1 & Hm1 & Hp1 & Hmc1 & Hn1 & Hsame).
    destruct (connect_fresh_group s1 n ConnectDirection.OUT PinType.PRIMARY ps2
                Hmc1 Hn1 Hnd2) as (s2 & E2 & Hm2 & Hp2 & _).
    { intros p Hp. unfold pin_net. rewrite Hsame.
      - apply Hps. apply elem_of_app. by right.
      - intros Hin. by apply (Hdisj p). }
    exists s2. split; [|split].
    + munfold. by rewrite Net___lshift___spec, E1, Net___rshift___spec, E2.
    + by rewrite Hm2, Hm1, <- app_assoc.
    + intros p Hp. apply elem_of_app in Hp as [Hp|Hp]; [|by apply Hp2].
      pose proof (keeps_Net_connect n (VIter (map VPin ps2)) ConnectDirection.OUT
                    PinType.PRIMARY s1 p n (Hp1 p Hp)) as Hk.
      by rewrite E2 in Hk.
Qed.

Lemma group_connect_in_order_witness :
  (∀ others s',
     Net_connect 0 others ConnectDirection.UNKNOWN PinType.PRIMARY
       (run two_resistors empty_store) = (s', Ok tt) →
     ∃ ps, _maybe_single others = map VPin ps ∧
           members s' 0 = members (run two_resistors empty_store) 0
                            ++ map (fun p => (p, ConnectDirection.UNKNOWN)) ps ∧
           (∀ p, p ∈ ps → pin_net s' p = Some 0)) ∧
  (∃ s1, Net_connect 0 (VIter (map VPin [1; 0])) ConnectDirection.UNKNOWN PinType.PRIMARY
           (run two_resistors empty_store) = (s1, Ok tt) ∧
         members s1 0 = members (run two_resistors empty_store) 0
                          ++ map (fun p => (p, ConnectDirection.UNKNOWN)) [1; 0] ∧
         (∀ p, p ∈ [1; 0] → pin_net s1 p = Some 0)) ∧
  (∃ s2, (m ← Net___lshift__ 0 (VIter (map VPin [1; 0]));
          Net___rshift__ m (VIter (map VPin [3; 2])))
           (run two_resistors empty_store) = (s2, Ok 0) ∧
         members s2 0
           = members (run two_resistors empty_store) 0
               ++ map (fun p => (p, ConnectDirection.IN)) [1; 0]
               ++ map (fun p => (p, ConnectDirection.OUT)) [3; 2] ∧
         (∀ p, p ∈ [1; 0] ++ [3; 2] → pin_net s2 p = Some 0)).
Proof.
  apply (group_connect_in_order two_resistors 0 [1; 0] [3; 2]
           ConnectDirection.UNKNOWN PinType.PRIMARY).
  - vm_compute. eauto.
  - apply (bool_decide_unpack (NoDup ([1; 0] ++ [3; 2]))). vm_compute. exact I.
  - intros p Hp. apply list_elem_of_In in Hp. simpl in Hp.
    destruct Hp as [<-|[<-|[<-|[<-|[]]]]]; vm_compute; eauto.
Defined.

(** ** A pin with a net is a member of that net *)

Lemma nk_kept_refl s : nk_kept s s.
Proof. by intros H. Qed.

Lemma nk_kept_trans s1 s2 s3 : nk_kept s1 s2 → nk_kept s2 s3 → nk_kept s1 s3.
Proof. unfold nk_kept. auto. Qed.

Lemma nk_kept_same s s' : nets s' = nets s → ppins s' = ppins s → nk_kept s s'.
Proof.
  intros En Ep H p n. unfold pin_net, members. rewrite En, Ep. apply H.
Qed.

Lemma members_new_net s N0 n :
  is_Some (nets s !! n) → members (with_nets (fun l => l ++ [N0]) s) n = members s n.
Proof.
  intros [N HN]. unfold members. simpl. by rewrite (lookup_app_l_Some _ _ _ _ HN), HN.
Qed.

Lemma keys_members_valid s n p : p ∈ keys (members s n) → is_Some (nets s !! n).
Proof.
  unfold members. destruct (nets s !! n); [eauto|]. intros H. by apply elem_of_nil in H.
Qed.

Lemma nk_kept_new_net N0 : stable nk_kept (modify (with_nets (fun l => l ++ [N0]))).
Proof.
  intros s H p n Hp. simpl. specialize (H p n Hp).
  rewrite members_new_net; [done|]. by eapply keys_members_valid.
Qed.

Lemma nk_kept_new_pin P :
  _net P = None → stable nk_kept (modify (with_ppins (fun l => l ++ [P]))).
Proof.
  intros HP s H p n. unfold pin_net, members. simpl. intros Hp.
  apply (H p n). unfold pin_net.
  destruct (ppins s !! p) as [Q|] eqn:E.
  - by rewrite (lookup_app_l_Some _ _ _ _ E) in Hp.
  - destruct ((ppins s ++ [P]) !! p) as [Q|] eqn:E'; [|done].
    apply lookup_app_Some in E' as [E'|[_ E']]; [congruence|].
    apply list_lookup_singleton_Some in E' as [_ <-]. simpl in Hp. congruence.
Qed.

Lemma nk_kept_Net_connect_body n d t o : stable nk_kept (Net_connect_body n d t o).
Proof.
  intros s H. destruct o as [q|p|m|l|];
    try (rewrite Net_connect_body_not_pin by done; exact H).
  destruct (Net_connect_body_cases s n d t p) as [[-> _]|(N & P & HN & HP & ->)]; [done|].
  assert (Hgrow : ∀ s' q m,
            nets s' = alter (set__connections (setitem p d (_connections N))) n (nets s) →
            q ∈ keys (members s m) → q ∈ keys (members s' m)).
  { intros s' q m En Hq. unfold members in *. rewrite En.
    destruct (decide (n = m)) as [<-|Hne].
    - rewrite list_lookup_alter_eq, HN. rewrite HN in Hq. simpl.
      apply keys_setitem. by right.
    - by rewrite list_lookup_alter_ne. }
  simpl. destruct (_net P) as [m|] eqn:EP; simpl.
  - intros q m' Hq. eapply Hgrow; [done|]. by apply H.
  - intros q m' Hq. unfold pin_net in Hq. simpl in Hq.
    destruct (decide (p = q)) as [<-|Hne].
    + rewrite list_lookup_alter_eq, HP in Hq. simpl in Hq. injection Hq as <-.
      unfold members. simpl. rewrite list_lookup_alter_eq, HN. simpl.
      apply keys_setitem. by left.
    + rewrite list_lookup_alter_ne in Hq by done. eapply Hgrow; [done|]. by apply H.
Qed.

Ltac nk_leaf :=
  first [ apply nk_kept_Net_connect_body
        | apply nk_kept_new_pin; reflexivity
        | apply nk_kept_new_net
        | apply stable_modify; intros; apply nk_kept_same;
          first [ reflexivity | by match goal with |- context [register ?c] => destruct c end ] ].

Ltac nk_walk := stable_walk nk_kept_refl nk_kept_trans nk_leaf.

Lemma nk_kept_Net___init__ name : stable nk_kept (Net___init__ name).
Proof. unfold Net___init__, init_plugins. nk_walk. Qed.

Lemma nk_kept_Net_connect n o d t : stable nk_kept (Net_connect n o d t).
Proof. unfold Net_connect. nk_walk. Qed.

Lemma nk_kept_ParticularPin_net p : stable nk_kept (ParticularPin_net p).
Proof.
  unfold ParticularPin_net, ParticularPin__create_anonymous_net.
  stable_walk nk_kept_refl nk_kept_trans
    ltac:(first [apply nk_kept_Net___init__ | apply nk_kept_Net_connect]).
Qed.

Lemma nk_kept__PinList_scan l k : stable nk_kept (_PinList_scan l k).
Proof.
  induction l as [|pin l IH]; simpl.
  - nk_walk.
  - stable_walk nk_kept_refl nk_kept_trans ltac:(apply IH).
Qed.

Lemma nk_kept_normalize_PINS l : stable nk_kept (normalize_PINS l).
Proof.
  induction l as [|e l IH]; simpl; unfold Pin___init__, init_plugins.
  - nk_walk.
  - stable_walk nk_kept_refl nk_kept_trans ltac:(first [apply IH | nk_leaf]).
Qed.

Lemma nk_kept_Part___init__ cls v r p pop : stable nk_kept (Part___init__ cls v r p pop).
Proof.
  unfold Part___init__, Part__generate_pin_instances, _generate_pin_instances_body,
    ParticularPin___init__, _PinList___getitem__, init_plugins, Pin_name.
  stable_walk nk_kept_refl nk_kept_trans
    ltac:(first [ apply nk_kept_normalize_PINS | apply nk_kept__PinList_scan | nk_leaf ]).
Qed.

Lemma nk_kept_exec st : stable nk_kept (exec st).
Proof.
  destruct st; simpl;
    unfold plugin, define_class, Net___lshift__, Net___rshift__,
      ParticularPin___lshift__, ParticularPin___rshift__, lshift_value, rshift_value,
      Net___lshift__, Net___rshift__, ParticularPin__create_anonymous_net;
    stable_walk nk_kept_refl nk_kept_trans
      ltac:(first [ apply nk_kept_Net___init__ | apply nk_kept_Net_connect
                  | apply nk_kept_ParticularPin_net | apply nk_kept_Part___init__
                  | nk_leaf ]).
Qed.

Lemma nets_know_members_run script s :
  nets_know_members s → nets_know_members (run script s).
Proof.
  revert s. induction script as [|st script IH]; intros s H; simpl; [done|].
  apply IH. by apply (nk_kept_exec st s).
Qed.

(** ** Relations that every step of a computation that returns respects *)

Section StableOk.
Variable R : Store → Store → Prop.
Hypothesis R_refl : ∀ s, R s s.
Hypothesis R_trans : ∀ s1 s2 s3, R s1 s2 → R s2 s3 → R s1 s3.

Lemma stable_ok_of_stable {A} (m : M A) : stable R m → stable_ok R m.
Proof. intros H s s' a E. specialize (H s). by rewrite E in H. Qed.

Lemma stable_ok_bind {A B} (m : M A) (k : A → M B) :
  stable_ok R m → (∀ a, stable_ok R (k a)) → stable_ok R (m ≫= k).
Proof.
  intros Hm Hk s s' b. munfold. destruct (m s) as [s1 [a|e]] eqn:E; [|done].
  intros E'. eapply R_trans; [by eapply Hm | by eapply Hk].
Qed.

Lemma stable_ok_for_each {A} (l : list A) (body : A → M unit) :
  (∀ x, stable_ok R (body x)) → stable_ok R (for_each l body).
Proof.
  intros Hb. induction l as [|x l IH]; simpl.
  - apply stable_ok_of_stable, stable_ret, R_refl.
  - apply stable_ok_bind; auto.
Qed.

Lemma stable_ok_void {A} (m : M A) : stable_ok R m → stable_ok R (void m).
Proof.
  intros Hm. apply stable_ok_bind; [done|]. intros.
  apply stable_ok_of_stable, stable_ret, R_refl.
Qed.
End StableOk.

(** ** Symmetric membership on scripts that never raise *)

Lemma ml_kept_refl s : ml_kept s s.
Proof. by intros H. Qed.

Lemma ml_kept_trans s1 s2 s3 : ml_kept s1 s2 → ml_kept s2 s3 → ml_kept s1 s3.
Proof. unfold ml_kept. auto. Qed.

Lemma ml_kept_same s s' : nets s' = nets s → ppins s' = ppins s → ml_kept s s'.
Proof.
  intros En Ep H n p. unfold pin_net, members. rewrite En, Ep. apply H.
Qed.

Lemma ml_kept_new_net N0 :
  _connections N0 = [] → stable ml_kept (modify (with_nets (fun l => l ++ [N0]))).
Proof.
  intros E0 s H n p. simpl. intros Hp.
  assert (Hpn : ∀ q, pin_net (with_nets (fun l => l ++ [N0]) s) q = pin_net s q) by done.
  rewrite Hpn. apply H. unfold members in *. simpl in Hp.
  destruct ((nets s ++ [N0]) !! n) as [N|] eqn:E; [|by apply elem_of_nil in Hp].
  apply lookup_app_Some in E as [E|[_ E]].
  - by rewrite E.
  - apply list_lookup_singleton_Some in E as [_ <-]. rewrite E0 in Hp.
    by apply elem_of_nil in Hp.
Qed.

Lemma ml_kept_new_pin P : stable ml_kept (modify (with_ppins (fun l => l ++ [P]))).
Proof.
  intros s H n p Hp. apply (keeps_alloc_pin P s). by apply H.
Qed.

Lemma ml_ok_Net_connect_body n d t o : stable_ok ml_kept (Net_connect_body n d t o).
Proof.
  intros s s' [] E H.
  assert (∃ p, o = VPin p) as [p ->].
  { destruct o as [q|p|m|g|]; eauto;
      by (edestruct (Net_connect_body_not_pin_raises s n d t) as [e He];
          [|rewrite E in He; discriminate He]). }
  apply Net_connect_body_pin_Ok in E as (N & P & HN & HP & HnP & ->).
  assert (Hp0 : pin_net s p = None) by (unfold pin_net; by rewrite HP).
  intros m q Hq. unfold members in Hq. simpl in Hq. unfold pin_net. simpl.
  destruct (decide (p = q)) as [<-|Hne].
  - rewrite list_lookup_alter_eq, HP. simpl.
    destruct (decide (n = m)) as [<-|Hnm]; [done|].
    rewrite list_lookup_alter_ne in Hq by done.
    specialize (H m p). unfold members in H. specialize (H Hq). congruence.
  - rewrite list_lookup_alter_ne by done. apply (H m q). unfold members.
    destruct (decide (n = m)) as [<-|Hnm].
    + rewrite list_lookup_alter_eq, HN in Hq. simpl in Hq. rewrite HN.
      apply keys_setitem in Hq as [->|Hq]; [done|done].
    + by rewrite list_lookup_alter_ne in Hq.
Qed.

Ltac ml_leaf :=
  first [ apply ml_kept_new_pin
        | apply ml_kept_new_net; reflexivity
        | apply stable_modify; intros; apply ml_kept_same;
          first [ reflexivity | by match goal with |- context [register ?c] => destruct c end ] ].

Ltac ml_walk := stable_walk ml_kept_refl ml_kept_trans ml_leaf.

Lemma ml_kept_Net___init__ name : stable ml_kept (Net___init__ name).
Proof. unfold Net___init__, init_plugins. ml_walk. Qed.

Lemma ml_kept__PinList_scan l k : stable ml_kept (_PinList_scan l k).
Proof.
  induction l as [|pin l IH]; simpl.
  - ml_walk.
  - stable_walk ml_kept_refl ml_kept_trans ltac:(apply IH).
Qed.

Lemma ml_kept_normalize_PINS l : stable ml_kept (normalize_PINS l).
Proof.
  induction l as [|e l IH]; simpl; unfold Pin___init__, init_plugins.
  - ml_walk.
  - stable_walk ml_kept_refl ml_kept_trans ltac:(first [apply IH | ml_leaf]).
Qed.

Lemma ml_kept_Part___init__ cls v r p pop : stable ml_kept (Part___init__ cls v r p pop).
Proof.
  unfold Part___init__, Part__generate_pin_instances, _generate_pin_instances_body,
    ParticularPin___init__, _PinList___getitem__, init_plugins, Pin_name.
  stable_walk ml_kept_refl ml_kept_trans
    ltac:(first [ apply ml_kept_normalize_PINS | apply ml_kept__PinList_scan | ml_leaf ]).
Qed.

(** Walks through a computation that returned. *)
Ltac ok_walk Hr Ht leaf :=
  repeat first
    [ progress leaf
    | apply (stable_ok_void _ Hr Ht)
    | apply (stable_ok_for_each _ Hr Ht); intros
    | apply (stable_ok_bind _ Ht); [|intros]
    | apply stable_ok_of_stable; stable_walk Hr Ht idtac; fail
    | match goal with
      | |- stable_ok _ (match ?x with _ => _ end) => destruct x
      end ].

Ltac ml_ok_leaf :=
  first [ apply ml_ok_Net_connect_body
        | apply stable_ok_of_stable;
          first [ apply ml_kept_Net___init__ | apply ml_kept_Part___init__
                | apply (stable_deref _ ml_kept_refl)
                | apply (stable_ret _ ml_kept_refl)
                | apply (stable_raise _ ml_kept_refl)
                | apply (stable_get _ ml_kept_refl)
                | ml_leaf ] ].

Lemma ml_ok_Net_connect n o d t : stable_ok ml_kept (Net_connect n o d t).
Proof. unfold Net_connect. ok_walk ml_kept_refl ml_kept_trans ml_ok_leaf. Qed.

Lemma ml_ok_ParticularPin_net p : stable_ok ml_kept (ParticularPin_net p).
Proof.
  unfold ParticularPin_net, ParticularPin__create_anonymous_net.
  ok_walk ml_kept_refl ml_kept_trans ltac:(first [apply ml_ok_Net_connect | ml_ok_leaf]).
Qed.

Lemma ml_ok_exec st : stable_ok ml_kept (exec st).
Proof.
  destruct st; simpl;
    unfold plugin, define_class, Net___lshift__, Net___rshift__,
      ParticularPin___lshift__, ParticularPin___rshift__, lshift_value, rshift_value,
      Net___lshift__, Net___rshift__, ParticularPin__create_anonymous_net;
    ok_walk ml_kept_refl ml_kept_trans
      ltac:(first [ apply ml_ok_Net_connect | apply ml_ok_ParticularPin_net | ml_ok_leaf ]).
Qed.

Lemma members_linked_run script : ∀ s,
  all_succeed script s = true → members_linked s → members_linked (run script s).
Proof.
  induction script as [|st script IH]; intros s Hok H; simpl; [done|].
  simpl in Hok. apply andb_prop in Hok as [H1 H2].
  apply IH; [done|]. unfold succeeds, step in *.
  destruct (exec st s) as [s1 [[]|e]] eqn:E; [|done].
  by apply (ml_ok_exec st s s1 tt E).
Qed.

(** On a script none of whose statements raises, membership is recorded on
    both sides: a pin is in the member map of a net exactly when its [_net]
    is that net, and hence in at most one member map. *)
Lemma symmetric_membership_without_errors script :
  all_succeed script empty_store = true →
  (∀ n p, p ∈ keys (members (run script empty_store) n)
          ↔ pin_net (run script empty_store) p = Some n) ∧
  (∀ n n' p, p ∈ keys (members (run script empty_store) n) →
             p ∈ keys (members (run script empty_store) n') → n = n').
Proof.
  intros Hok.
  assert (Hl : members_linked (run script empty_store)).
  { apply members_linked_run; [done|]. intros n p Hp. by apply elem_of_nil in Hp. }
  assert (Hk : nets_know_members (run script empty_store)).
  { apply nets_know_members_run. intros p n Hp. done. }
  split.
  - intros n p. split; [apply Hl | apply Hk].
  - intros n n' p H1 H2. apply Hl in H1, H2. congruence.
Qed.

(** * Further properties of the core *)

(** ** Targets that are not pins *)

Lemma Net_connect_body_not_a_pin s n d t b e :
  not_a_pin s b e → Net_connect_body n d t b s = (s, Raise e).
Proof.
  destruct b as [q|p|m|l|]; simpl.
  - intros [H ->]. by apply Net_connect_body_part.
  - done.
  - intros [H ->]. by apply Net_connect_body_net.
  - by intros ->.
  - by intros ->.
Qed.

Lemma not_a_pin_later n d t l s b e :
  not_a_pin s b e → not_a_pin (fst (for_each l (Net_connect_body n d t) s)) b e.
Proof.
  intros H.
  pose proof (stable_for_each _ nets_grow_refl nets_grow_trans l
                (Net_connect_body n d t) (nets_grow_Net_connect_body n d t) s) as Hn.
  pose proof (stable_for_each (fun s s' => parts s' = parts s)
                (fun s : Store => eq_refl (parts s))
                (fun (s1 s2 s3 : Store) (H1 : parts s2 = parts s1)
                     (H2 : parts s3 = parts s2) => eq_trans H2 H1)
                l (Net_connect_body n d t) (parts_Net_connect_body n d t) s) as Hp.
  simpl in Hp. destruct b as [q|p|m|g|]; simpl in *; try done.
  - by rewrite Hp.
  - destruct H as [H ->]. split; [|done]. by eapply nets_grow_valid.
Qed.

(** X1. A connect of a group stops at the first target that is not a pin,
    with the exception of that target (a net: [NotImplementedError]; a
    nested group or any other object: [TypeError]; a part:
    [NotImplementedError]), and what it did before stays: the pins that
    precede the target are members of the net, in order, exactly as if they
    alone had been connected; the targets after it are not looked at. *)
Theorem connect_keeps_prefix_on_error (script : list stmt) (n : nat) (ps : list nat)
    (b : pyvalue) (rest : list pyvalue) (d : ConnectDirection.t) (t : PinType.t)
    (e : exn) :
  is_Some (nets (run script empty_store) !! n) →
  NoDup ps →
  (∀ p, p ∈ ps → is_Some (ppins (run script empty_store) !! p) ∧
                 pin_net (run script empty_store) p = None) →
  not_a_pin (run script empty_store) b e →
  ∃ s1, Net_connect n (VIter (map VPin ps)) d t (run script empty_store) = (s1, Ok tt) ∧
        Net_connect n (VIter (map VPin ps ++ b :: rest)) d t (run script empty_store)
          = (s1, Raise e) ∧
        members s1 n = members (run script empty_store) n ++ map (fun p => (p, d)) ps.
Proof.
  set (s := run script empty_store). intros Hn Hnd Hps Hb.
  assert (Hmc : members_connected s) by (apply members_connected_reachable; by exists script).
  destruct (connect_fresh_group s n d t ps Hmc Hn Hnd Hps) as (s1 & E & Hm & _).
  exists s1. split; [done|]. split; [|done].
  unfold Net_connect in *. simpl in *. rewrite for_each_app, E, for_each_cons.
  pose proof (not_a_pin_later n d t (map VPin ps) s b e Hb) as Hb1.
  rewrite E in Hb1. simpl in Hb1.
  by rewrite (Net_connect_body_not_a_pin _ _ _ _ _ _ Hb1).
Qed.

Lemma connect_keeps_prefix_on_error_witness :
  ∃ s1, Net_connect 0 (VIter (map VPin [1; 0])) ConnectDirection.IN PinType.PRIMARY
          (run two_resistors empty_store) = (s1, Ok tt) ∧
        Net_connect 0 (VIter (map VPin [1; 0] ++ VNet 0 :: [VPin 2]))
          ConnectDirection.IN PinType.PRIMARY (run two_resistors empty_store)
          = (s1, Raise NotImplementedError_nets) ∧
        members s1 0 = members (run two_resistors empty_store) 0
                         ++ map (fun p => (p, ConnectDirection.IN)) [1; 0].
Proof.
  apply (connect_keeps_prefix_on_error two_resistors 0 [1; 0] (VNet 0) [VPin 2]).
  - vm_compute. eauto.
  - apply (bool_decide_unpack (NoDup [1; 0])). vm_compute. exact I.
  - intros p Hp. apply list_elem_of_In in Hp. simpl in Hp.
    destruct Hp as [<-|[<-|[]]]; vm_compute; eauto.
  - vm_compute. eauto.
Defined.

(** ** Reading [pin.net] twice *)

(** X2. Reading the [net] of an existing pin a second time returns the
    same net as the first read and changes nothing: only the first read of
    a pin that was never connected allocates a net. *)
Theorem net_getter_idempotent (s s1 : Store) (p : nat) (r : outcome (option nat)) :
  is_Some (ppins s !! p) →
  ParticularPin_net p s = (s1, r) →
  ParticularPin_net p s1 = (s1, r) ∧ ∃ n, r = Ok (Some n) ∧ pin_net s1 p = Some n.
Proof.
  intros [P HP]. destruct (_net P) as [m|] eqn:HN.
  - rewrite (ParticularPin_net_set s p P m HP HN). intros [= <- <-].
    rewrite (ParticularPin_net_set s p P m HP HN). split; [done|].
    exists m. split; [done|]. unfold pin_net. by rewrite HP.
  - rewrite (ParticularPin_net_unset s p P HP HN). intros [= <- <-].
    rewrite (ParticularPin_net_set _ p _ (length (nets s))
               (seeded_lookup s p P ConnectDirection.UNKNOWN HP) eq_refl).
    split; [done|]. exists (length (nets s)). split; [done|].
    apply seeded_pin_net. eauto.
Qed.

Lemma net_getter_idempotent_witness :
  ParticularPin_net 0 (fst (ParticularPin_net 0 lone_resistor))
    = (fst (ParticularPin_net 0 lone_resistor), Ok (Some 0)) ∧
  ∃ n, Ok (Some 0) = Ok (Some n) ∧ pin_net (fst (ParticularPin_net 0 lone_resistor)) 0 = Some n.
Proof.
  apply (net_getter_idempotent lone_resistor _ 0 (Ok (Some 0))).
  - vm_compute. eauto.
  - reflexivity.
Defined.

(** ** One pin connected to another *)

Lemma connect_second_pin s p q Q d1 d2 t :
  p ≠ q → ppins s !! q = Some Q → _net Q = None → is_Some (ppins s !! p) →
  ∃ s1, Net_connect (length (nets s)) (VPin q) d2 t (seeded p d1 s) = (s1, Ok tt) ∧
        members s1 (length (nets s)) = [(p, d1); (q, d2)] ∧
        pin_net s1 p = Some (length (nets s)) ∧ pin_net s1 q = Some (length (nets s)).
Proof.
  intros Hne HQ HN Hp.
  assert (HQ' : ppins (seeded p d1 s) !! q = Some Q).
  { unfold seeded. simpl. by rewrite list_lookup_alter_ne. }
  assert (HN' : nets (seeded p d1 s) !! length (nets s) = Some (mkNet None [(p, d1)])).
  { unfold seeded. simpl. by apply list_lookup_middle. }
  rewrite Net_connect_single by done.
  rewrite (Net_connect_body_pin _ _ _ d2 t _ _ HN' HQ'). simpl. rewrite HN.
  eexists. split; [done|]. repeat split.
  - unfold members. simpl. rewrite list_lookup_alter_eq, list_lookup_middle by done.
    simpl. rewrite decide_False by done. done.
  - unfold pin_net. simpl. rewrite list_lookup_alter_ne by done.
    destruct Hp as [P HP]. by rewrite list_lookup_alter_eq, HP.
  - unfold pin_net. simpl. rewrite list_lookup_alter_eq.
    rewrite list_lookup_alter_ne by done. by rewrite HQ.
Qed.

(** X3. [a << b] on two different pins that have no net puts both into
    one new anonymous net, [a] first and tagged [OUT], [b] second and tagged
    [IN], and returns that net; [a >> b] does the same with the tags
    exchanged. *)
Theorem pin_to_pin_shares_anonymous_net (s : Store) (p q : nat) (P Q : ParticularPin) :
  p ≠ q → ppins s !! p = Some P → ppins s !! q = Some Q →
  _net P = None → _net Q = None →
  (∃ s1, ParticularPin___lshift__ p (VPin q) s = (s1, Ok (length (nets s))) ∧
         nets s1 = nets s ++ [mkNet None [(p, ConnectDirection.OUT);
                                           (q, ConnectDirection.IN)]] ∧
         pin_net s1 p = Some (length (nets s)) ∧ pin_net s1 q = Some (length (nets s))) ∧
  (∃ s2, ParticularPin___rshift__ p (VPin q) s = (s2, Ok (length (nets s))) ∧
         nets s2 = nets s ++ [mkNet None [(p, ConnectDirection.IN);
                                           (q, ConnectDirection.OUT)]] ∧
         pin_net s2 p = Some (length (nets s)) ∧ pin_net s2 q = Some (length (nets s))).
Proof.
  intros Hne HP HQ HnP HnQ.
  assert (Hnets : ∀ d1 d2 s1,
            Net_connect (length (nets s)) (VPin q) d2 PinType.PRIMARY (seeded p d1 s)
              = (s1, Ok tt) →
            nets s1 = nets s ++ [mkNet None [(p, d1); (q, d2)]]).
  { intros d1 d2 s1 E. rewrite Net_connect_single in E by done.
    apply Net_connect_body_pin_Ok in E as (N & Q' & HN & _ & _ & ->).
    unfold seeded in HN. simpl in HN. rewrite list_lookup_middle in HN by done.
    injection HN as <-. simpl.
    replace (length (nets s)) with (length (nets s) + 0) at 1 by lia.
    rewrite alter_app_r. simpl. rewrite decide_False by done. done. }
  split.
  - destruct (connect_second_pin s p q Q ConnectDirection.OUT ConnectDirection.IN
                PinType.PRIMARY Hne HQ HnQ (ex_intro _ P HP)) as (s1 & E & _ & H1 & H2).
    exists s1. rewrite (ParticularPin___lshift___unset s p P _ HP HnP).
    rewrite Net___lshift___spec, E. repeat split; [|done..]. by apply Hnets.
  - destruct (connect_second_pin s p q Q ConnectDirection.IN ConnectDirection.OUT
                PinType.PRIMARY Hne HQ HnQ (ex_intro _ P HP)) as (s2 & E & _ & H1 & H2).
    exists s2. rewrite (ParticularPin___rshift___unset s p P _ HP HnP).
    rewrite Net___rshift___spec, E. repeat split; [|done..]. by apply Hnets.
Qed.

Lemma pin_to_pin_shares_anonymous_net_witness :
  (∃ s1, ParticularPin___lshift__ 0 (VPin 1) lone_resistor = (s1, Ok 0) ∧
         nets s1 = [] ++ [mkNet None [(0, ConnectDirection.OUT); (1, ConnectDirection.IN)]] ∧
         pin_net s1 0 = Some 0 ∧ pin_net s1 1 = Some 0) ∧
  (∃ s2, ParticularPin___rshift__ 0 (VPin 1) lone_resistor = (s2, Ok 0) ∧
         nets s2 = [] ++ [mkNet None [(0, ConnectDirection.IN); (1, ConnectDirection.OUT)]] ∧
         pin_net s2 0 = Some 0 ∧ pin_net s2 1 = Some 0).
Proof.
  apply (pin_to_pin_shares_anonymous_net lone_resistor 0 1
           (mkParticularPin (mkPin ["A"] (Some ["0"]) PinType.UNKNOWN None)
              (mkPin ["A"] None PinType.UNKNOWN None) 0 None None)
           (mkParticularPin (mkPin ["B"] (Some ["1"]) PinType.UNKNOWN None)
              (mkPin ["B"] None PinType.UNKNOWN None) 0 None None));
    (done || reflexivity).
Defined.

(** ** Relations kept by every statement of a script *)

Section ScriptStable.
Variable R : Store → Store → Prop.
Hypothesis R_refl : ∀ s, R s s.
Hypothesis R_trans : ∀ s1 s2 s3, R s1 s2 → R s2 s3 → R s1 s3.
Hypothesis R_setitem : ∀ n p d, stable R (Net_connections_setitem n p d).
Hypothesis R_setter : ∀ p n, stable R (ParticularPin_net_setter p n).
Hypothesis R_new_net :
  ∀ name, stable R (modify (with_nets (fun l => l ++ [mkNet (upper <$> name) []]))).
Hypothesis R_new_pin :
  ∀ d pcp part_instance wl,
    stable R (modify (with_ppins
                        (fun l => l ++ [mkParticularPin d pcp part_instance wl None]))).
Hypothesis R_log : ∀ f, stable R (modify (with_hook_log f)).
Hypothesis R_parts : ∀ f, stable R (modify (with_parts f)).
Hypothesis R_classes : ∀ f, stable R (modify (with_classes f)).
Hypothesis R_register : ∀ c pl, stable R (modify (register c pl)).

Ltac script_leaf :=
  first [ apply R_setitem | apply R_setter | apply R_new_net | apply R_new_pin
        | apply R_log | apply R_parts | apply R_classes | apply R_register ].

Lemma script_Net___init__ name : stable R (Net___init__ name).
Proof. unfold Net___init__, init_plugins. stable_walk R_refl R_trans script_leaf. Qed.

Lemma script_Net_connect n o d t : stable R (Net_connect n o d t).
Proof.
  unfold Net_connect, Net_connect_body, Part_get_pin_to_connect.
  stable_walk R_refl R_trans script_leaf.
Qed.

Lemma script_ParticularPin_net p : stable R (ParticularPin_net p).
Proof.
  unfold ParticularPin_net, ParticularPin__create_anonymous_net.
  stable_walk R_refl R_trans
    ltac:(first [apply script_Net___init__ | apply script_Net_connect]).
Qed.

Lemma script__PinList_scan l k : stable R (_PinList_scan l k).
Proof.
  induction l as [|pin l IH]; simpl.
  - stable_walk R_refl R_trans idtac.
  - stable_walk R_refl R_trans ltac:(apply IH).
Qed.

Lemma script_normalize_PINS l : stable R (normalize_PINS l).
Proof.
  induction l as [|e l IH]; simpl; unfold Pin___init__, init_plugins.
  - stable_walk R_refl R_trans script_leaf.
  - stable_walk R_refl R_trans ltac:(first [apply IH | script_leaf]).
Qed.

Lemma script_Part___init__ cls v r p pop : stable R (Part___init__ cls v r p pop).
Proof.
  unfold Part___init__, Part__generate_pin_instances, _generate_pin_instances_body,
    ParticularPin___init__, _PinList___getitem__, init_plugins, Pin_name.
  stable_walk R_refl R_trans
    ltac:(first [ apply script_normalize_PINS | apply script__PinList_scan | script_leaf ]).
Qed.

Lemma script_exec st : stable R (exec st).
Proof.
  destruct st; simpl;
    unfold plugin, define_class, Net___lshift__, Net___rshift__,
      ParticularPin___lshift__, ParticularPin___rshift__, lshift_value, rshift_value,
      Net___lshift__, Net___rshift__, ParticularPin__create_anonymous_net;
    stable_walk R_refl R_trans
      ltac:(first [ apply script_Net___init__ | apply script_Net_connect
                  | apply script_ParticularPin_net | apply script_Part___init__
                  | script_leaf ]).
Qed.

Lemma script_run script : ∀ s, R s (run script s).
Proof.
  induction script as [|st script IH]; intros s; simpl; [apply R_refl|].
  eapply R_trans; [apply (script_exec st s) | apply IH].
Qed.
End ScriptStable.

(** ** The plugin registries *)

Lemma registry_register c c' pl s :
  registry c (register c' pl s) = if decide (c = c') then registry c s ++ [pl]
                                  else registry c s.
Proof. by destruct c, c'. Qed.

Lemma registries_grow_refl s : registries_grow s s.
Proof. by intros c. Qed.

Lemma registries_grow_trans s1 s2 s3 :
  registries_grow s1 s2 → registries_grow s2 s3 → registries_grow s1 s3.
Proof. intros H1 H2 c. etrans; [apply H1 | apply H2]. Qed.

Lemma registries_grow_same f :
  (∀ s c, registry c (f s) = registry c s) → stable registries_grow (modify f).
Proof. intros H s c. simpl. by rewrite H. Qed.

(** X4. Registration is permanent and keeps its order: whatever a script
    does, raised statements included, the [_plugins] list of each class
    after it starts with the list before it. *)
Theorem registries_only_grow (script : list stmt) (s : Store) (c : core_class) :
  registry c s `prefix_of` registry c (run script s).
Proof.
  revert c. change (registries_grow s (run script s)).
  apply script_run; clear s.
  - apply registries_grow_refl.
  - apply registries_grow_trans.
  - intros n p d. unfold Net_connections_setitem.
    stable_walk registries_grow_refl registries_grow_trans
      ltac:(apply registries_grow_same; by intros ? []).
  - intros p n. unfold ParticularPin_net_setter.
    stable_walk registries_grow_refl registries_grow_trans
      ltac:(apply registries_grow_same; by intros ? []).
  - intros name. apply registries_grow_same. by intros ? [].
  - intros. apply registries_grow_same. by intros ? [].
  - intros. apply registries_grow_same. by intros ? [].
  - intros. apply registries_grow_same. by intros ? [].
  - intros. apply registries_grow_same. by intros ? [].
  - intros c pl s c'. simpl. rewrite registry_register.
    destruct (decide (c' = c)); [by apply prefix_app_r|done].
Qed.

Lemma plugin_spec pl bases : ∀ s,
  NoDup bases →
  ∃ s', plugin pl bases s = (s', Ok tt) ∧
        (∀ c, registry c s' = if decide (c ∈ bases) then registry c s ++ [pl]
                              else registry c s) ∧
        nets s' = nets s ∧ hook_log s' = hook_log s.
Proof.
  unfold plugin. induction bases as [|b bases IH]; intros s Hnd.
  - exists s. split; [done|]. split; [|done]. intros c.
    rewrite decide_False; [done|]. apply not_elem_of_nil.
  - apply NoDup_cons in Hnd as [Hb Hnd]. rewrite for_each_cons. simpl.
    destruct (IH (register b pl s) Hnd) as (s' & E & Hreg & Hn & Hl).
    exists s'. split; [done|]. split; [|by destruct b].
    intros c. rewrite Hreg, registry_register.
    destruct (decide (c = b)) as [->|Hne].
    + rewrite decide_False by done. rewrite decide_True; [done|]. apply list_elem_of_here.
    + destruct (decide (c ∈ bases)) as [Hin|Hin].
      * rewrite decide_True; [done|]. by apply list_elem_of_further.
      * rewrite decide_False; [done|]. rewrite elem_of_cons. tauto.
Qed.

(** X5. Hooks run in registration order: after [plugin] has installed a
    plugin on [Net], a new [Net(name)] is named [name.upper()], has no
    members, and has been handed to the [init] of every plugin registered
    before, in their order, and then to the [init] of the new plugin. *)
Theorem new_Net_plugin_fires_last (s : Store) (pl : nat) (bases : list core_class)
    (name : option string) :
  NoDup bases → CNet ∈ bases →
  ∃ s0 s', plugin pl bases s = (s0, Ok tt) ∧
           Net___init__ name s0 = (s', Ok (length (nets s))) ∧
           nets s' = nets s ++ [mkNet (upper <$> name) []] ∧
           hook_log s' = hook_log s
                           ++ map (fun x => (x, INet (length (nets s))))
                                (Net_plugins s ++ [pl]).
Proof.
  intros Hnd Hin. destruct (plugin_spec pl bases s Hnd) as (s0 & E & Hreg & Hn & Hl).
  exists s0, (with_new_net name s0). split; [done|].
  rewrite Net___init___spec, Hn. split; [done|]. split.
  - simpl. by rewrite Hn.
  - simpl. rewrite Hl, Hn. specialize (Hreg CNet). simpl in Hreg.
    rewrite decide_True in Hreg by done. by rewrite Hreg.
Qed.

Lemma new_Net_plugin_fires_last_witness :
  ∃ s0 s', plugin 6 [CNet; CPart] (run usb_script empty_store) = (s0, Ok tt) ∧
           Net___init__ (Some "gnd") s0 = (s', Ok 1) ∧
           nets s' = nets (run usb_script empty_store) ++ [mkNet (Some "GND") []] ∧
           hook_log s' = hook_log (run usb_script empty_store)
                           ++ map (fun x => (x, INet 1)) ([5] ++ [6]).
Proof.
  apply (new_Net_plugin_fires_last (run usb_script empty_store) 6 [CNet; CPart]
           (Some "gnd")).
  - apply (bool_decide_unpack (NoDup [CNet; CPart])). vm_compute. exact I.
  - apply list_elem_of_here.
Defined.

(** ** What every net keeps *)

Lemma keys_setitem_cases {K V} `{EqDecision K} (k : K) (v : V) d :
  ((k ∈ keys d) ∧ keys (setitem k v d) = keys d) ∨
  ((k ∉ keys d) ∧ keys (setitem k v d) = (keys d ++ [k])).
Proof.
  unfold keys. induction d as [|[k0 v0] d IH]; simpl.
  - right. split; [apply not_elem_of_nil|done].
  - destruct (decide (k0 = k)) as [->|Hne]; simpl.
    + left. split; [apply list_elem_of_here|done].
    + destruct IH as [[Hin E]|[Hin E]].
      * left. split; [by apply list_elem_of_further|by rewrite E].
      * right. split; [|by rewrite E]. rewrite elem_of_cons. intros [?|?]; congruence.
Qed.

Lemma same_nets_members s s' n : nets s' = nets s → members s' n = members s n.
Proof. intros E. unfold members. by rewrite E. Qed.

Lemma members_extend_refl s : members_extend s s.
Proof. by intros n. Qed.

Lemma members_extend_trans s1 s2 s3 :
  members_extend s1 s2 → members_extend s2 s3 → members_extend s1 s3.
Proof. intros H1 H2 n. etrans; [apply H1 | apply H2]. Qed.

Lemma members_extend_same f :
  (∀ s, nets (f s) = nets s) → stable members_extend (modify f).
Proof. intros H s n. simpl. by rewrite (same_nets_members _ _ _ (H s)). Qed.

Lemma members_extend_setitem n p d : stable members_extend (Net_connections_setitem n p d).
Proof.
  intros s m. unfold Net_connections_setitem. munfold.
  destruct (nets s !! n) as [N|] eqn:HN; simpl; [|done].
  unfold members. simpl. destruct (decide (n = m)) as [<-|Hne].
  - rewrite list_lookup_alter_eq, HN. simpl.
    destruct (keys_setitem_cases p d (_connections N)) as [[_ ->]|[_ ->]];
      [done|by apply prefix_app_r].
  - by rewrite list_lookup_alter_ne.
Qed.

Lemma members_extend_new_net N0 :
  stable members_extend (modify (with_nets (fun l => l ++ [N0]))).
Proof.
  intros s n. unfold members. simpl.
  destruct (nets s !! n) as [N|] eqn:HN.
  - by rewrite (lookup_app_l_Some _ _ _ _ HN).
  - apply prefix_nil.
Qed.

(** X6. The ordered member list of a net only ever grows, and only at its
    end: whatever a script does afterwards, raised statements included, the
    pins a net lists now stay listed, first and in the same order. *)
Theorem members_only_appended (script : list stmt) (s : Store) (n : nat) :
  keys (members s n) `prefix_of` keys (members (run script s) n).
Proof.
  revert n. change (members_extend s (run script s)).
  apply script_run; clear s.
  - apply members_extend_refl.
  - apply members_extend_trans.
  - apply members_extend_setitem.
  - intros p n. unfold ParticularPin_net_setter.
    stable_walk members_extend_refl members_extend_trans
      ltac:(by apply members_extend_same).
  - intros name. apply members_extend_new_net.
  - intros. by apply members_extend_same.
  - intros. by apply members_extend_same.
  - intros. by apply members_extend_same.
  - intros. by apply members_extend_same.
  - intros c pl. apply members_extend_same. by destruct c.
Qed.

Lemma nu_kept_refl s : nu_kept s s.
Proof. by intros H. Qed.

Lemma nu_kept_trans s1 s2 s3 : nu_kept s1 s2 → nu_kept s2 s3 → nu_kept s1 s3.
Proof. unfold nu_kept. auto. Qed.

Lemma nu_kept_same f : (∀ s, nets (f s) = nets s) → stable nu_kept (modify f).
Proof. intros H s Hs n N nm. simpl. rewrite H. apply Hs. Qed.

Lemma net_names_upper_run script s : net_names_upper s → net_names_upper (run script s).
Proof.
  revert s. change (∀ s, nu_kept s (run script s)).
  apply script_run.
  - apply nu_kept_refl.
  - apply nu_kept_trans.
  - intros n p d s Hs m N nm. unfold Net_connections_setitem. munfold.
    destruct (nets s !! n) as [N0|] eqn:HN; simpl; [|apply Hs].
    destruct (decide (n = m)) as [<-|Hne].
    + rewrite list_lookup_alter_eq, HN. simpl. intros [= <-]. simpl. by apply (Hs n N0).
    + rewrite list_lookup_alter_ne by done. apply Hs.
  - intros p n. unfold ParticularPin_net_setter.
    stable_walk nu_kept_refl nu_kept_trans ltac:(by apply nu_kept_same).
  - intros name s Hs n N nm. simpl. intros HN.
    apply lookup_app_Some in HN as [HN|[_ HN]]; [by apply (Hs n N)|].
    apply list_lookup_singleton_Some in HN as [_ <-]. simpl.
    destruct name as [x|]; simpl; [|done]. intros [= <-]. apply upper_idem.
  - intros. by apply nu_kept_same.
  - intros. by apply nu_kept_same.
  - intros. by apply nu_kept_same.
  - intros. by apply nu_kept_same.
  - intros c pl. apply nu_kept_same. by destruct c.
Qed.

(** X7. Net names are canonical: in every store a script reaches, a net
    that has a name has it in upper case (upper-casing it changes
    nothing), whatever casing [Net(name)] was given. *)
Theorem net_names_are_upper_case (script : list stmt) (n : nat) (N : Net) (nm : string) :
  nets (run script empty_store) !! n = Some N → name N = Some nm → upper nm = nm.
Proof.
  apply (net_names_upper_run script empty_store).
  intros m M x H. simpl in H. by rewrite lookup_nil in H.
Qed.

Lemma net_names_are_upper_case_witness : upper "VBUS" = "VBUS".
Proof.
  apply (net_names_are_upper_case usb_script 0 (mkNet (Some "VBUS") []) "VBUS");
    reflexivity.
Defined.

Lemma cn_kept_refl s : cn_kept s s.
Proof. by intros H. Qed.

Lemma cn_kept_trans s1 s2 s3 : cn_kept s1 s2 → cn_kept s2 s3 → cn_kept s1 s3.
Proof. unfold cn_kept. auto. Qed.

Lemma cn_kept_same f : (∀ s, nets (f s) = nets s) → stable cn_kept (modify f).
Proof. intros H s Hs n N. simpl. rewrite H. apply Hs. Qed.

Lemma connections_nodup_run script s :
  connections_nodup s → connections_nodup (run script s).
Proof.
  revert s. change (∀ s, cn_kept s (run script s)).
  apply script_run.
  - apply cn_kept_refl.
  - apply cn_kept_trans.
  - intros n p d s Hs m N. unfold Net_connections_setitem. munfold.
    destruct (nets s !! n) as [N0|] eqn:HN; simpl; [|apply Hs].
    destruct (decide (n = m)) as [<-|Hne].
    + rewrite list_lookup_alter_eq, HN. simpl. intros [= <-]. unfold connections. simpl.
      specialize (Hs n N0 HN). unfold connections in Hs.
      destruct (keys_setitem_cases p d (_connections N0)) as [[_ ->]|[Hn ->]]; [done|].
      apply NoDup_app. repeat split; [done| |apply NoDup_singleton].
      intros x Hx Hx'. apply list_elem_of_singleton in Hx' as ->. done.
    + rewrite list_lookup_alter_ne by done. apply Hs.
  - intros p n. unfold ParticularPin_net_setter.
    stable_walk cn_kept_refl cn_kept_trans ltac:(by apply cn_kept_same).
  - intros name s Hs n N. simpl. intros HN.
    apply lookup_app_Some in HN as [HN|[_ HN]]; [by apply (Hs n N)|].
    apply list_lookup_singleton_Some in HN as [_ <-]. apply NoDup_nil_2.
  - intros. by apply cn_kept_same.
  - intros. by apply cn_kept_same.
  - intros. by apply cn_kept_same.
  - intros. by apply cn_kept_same.
  - intros c pl. apply cn_kept_same. by destruct c.
Qed.

(** X8. [Net.connections] never lists a pin twice: in every store a
    script reaches, also after connects that raised or that named the same
    pin again, the pins of a net are pairwise different. *)
Theorem connections_are_distinct (script : list stmt) (n : nat) (N : Net) :
  nets (run script empty_store) !! n = Some N → NoDup (connections N).
Proof.
  apply (connections_nodup_run script empty_store).
  intros m M H. simpl in H. by rewrite lookup_nil in H.
Qed.

Lemma connections_are_distinct_witness :
  NoDup (connections (mkNet (Some "N2") [(0, ConnectDirection.OUT)])).
Proof.
  apply (connections_are_distinct
           [SClass Resistor; SPart 0 None None None true; SNet (Some "N1");
            SNet (Some "N2"); SNetLshift 0 (VPin 0); SNetLshift 1 (VPin 0);
            SNetRshift 1 (VPin 0)] 1).
  reflexivity.
Defined.

(** ** What building a part leaves alone *)

Lemma graph_kept_refl s : graph_kept s s.
Proof. by split. Qed.

Lemma graph_kept_trans s1 s2 s3 : graph_kept s1 s2 → graph_kept s2 s3 → graph_kept s1 s3.
Proof. intros [H1 H2] [H3 H4]. split; [congruence | by etrans]. Qed.

Lemma graph_kept_same f :
  (∀ s, nets (f s) = nets s) → (∀ s, ppins (f s) = ppins s) →
  stable graph_kept (modify f).
Proof. intros H1 H2 s. split; simpl; [apply H1 | by rewrite H2]. Qed.

Lemma graph_kept_Part___init__ cls v r pk pop :
  stable graph_kept (Part___init__ cls v r pk pop).
Proof.
  apply (script_Part___init__ graph_kept graph_kept_refl graph_kept_trans).
  - intros d pcp part_instance wl s. split; simpl; [done|by apply prefix_app_r].
  - intros f. by apply graph_kept_same.
  - intros f. by apply graph_kept_same.
  - intros f. by apply graph_kept_same.
Qed.

(** X9. Building a part never touches the graph: whether [Part(...)]
    returns or raises (an unknown or invalid well, a pin without a name),
    every net is as it was and every pin that existed is as it was; the
    pins of the new part come after them. *)
Theorem Part_construction_keeps_graph (s : Store) (cls : nat) (v r pk : option string)
    (pop : bool) :
  nets (fst (Part___init__ cls v r pk pop s)) = nets s ∧
  ppins s `prefix_of` ppins (fst (Part___init__ cls v r pk pop s)).
Proof. apply graph_kept_Part___init__. Qed.

(** X10. A part that [Part(...)] returns has exactly one new pin per entry
    of [PINS]; every one of them belongs to the new part and has no net. *)
Theorem new_pins_are_unconnected (s s' : Store) (cls self : nat) (c : PartClass)
    (v r pk : option string) (pop : bool) :
  classes s !! cls = Some c →
  Part___init__ cls v r pk pop s = (s', Ok self) →
  ∃ new, ppins s' = ppins s ++ new ∧ length new = length (PINS c) ∧
         ∀ P, P ∈ new → part P = self ∧ _net P = None.
Proof.
  intros Hc E. destruct (Part___init___Ok _ _ _ _ _ _ _ _ _ Hc E) as (-> & B & _).
  pose proof (graph_kept_Part___init__ cls v r pk pop s) as [_ [new Hnew]].
  rewrite E in Hnew. simpl in Hnew. exists new. split; [done|].
  pose proof (b_len _ _ _ _ B) as Hlen. rewrite Hnew, length_app, length_map in Hlen.
  split; [lia|]. intros P HP. apply list_elem_of_lookup in HP as [i Hi].
  assert (Hi' : ppins s' !! (length (ppins s) + i) = Some P).
  { rewrite Hnew. by rewrite lookup_app_r, Nat.add_comm, Nat.add_sub by lia. }
  assert (i < length (map spec_of (PINS c))) as Hlt.
  { apply lookup_lt_Some in Hi. rewrite length_map. lia. }
  apply lookup_lt_is_Some in Hlt as [sp Hsp].
  destruct (b_pin _ _ _ _ B i sp Hsp) as (wl & Hp & _).
  rewrite Hi' in Hp. by injection Hp as ->.
Qed.

Lemma new_pins_are_unconnected_witness :
  ∃ new, ppins lone_resistor = ppins (run [SClass Resistor] empty_store) ++ new ∧
         length new = length (PINS Resistor) ∧
         ∀ P, P ∈ new → part P = 0 ∧ _net P = None.
Proof.
  assert (E : Part___init__ 0 None None None true (run [SClass Resistor] empty_store)
              = (lone_resistor, Ok 0)) by (vm_compute; reflexivity).
  exact (new_pins_are_unconnected (run [SClass Resistor] empty_store) lone_resistor 0 0
           Resistor None None None true eq_refl E).
Defined.

(** ** The fields of a part *)

Lemma part_fields_kept_refl s : part_fields_kept s s.
Proof. intros q P H. exists P. by repeat split. Qed.

Lemma part_fields_kept_trans s1 s2 s3 :
  part_fields_kept s1 s2 → part_fields_kept s2 s3 → part_fields_kept s1 s3.
Proof.
  intros H1 H2 q P HP. destruct (H1 q P HP) as (P' & HP' & ? & ? & ? & ? & ?).
  destruct (H2 q P' HP') as (P'' & HP'' & ? & ? & ? & ? & ?).
  exists P''. repeat split; congruence.
Qed.

Lemma part_fields_kept_same f :
  (∀ s, parts (f s) = parts s) → stable part_fields_kept (modify f).
Proof. intros H s q P. simpl. rewrite H. intros HP. exists P. by repeat split. Qed.

Lemma part_fields_kept_alter f self :
  (∀ P, part_class (f P) = part_class P ∧ value (f P) = value P ∧
        _refdes (f P) = _refdes P ∧ package (f P) = package P ∧
        populated (f P) = populated P) →
  stable part_fields_kept (modify (with_parts (alter f self))).
Proof.
  intros Hf s q P HP. simpl. destruct (decide (self = q)) as [->|Hne].
  - exists (f P). rewrite list_lookup_alter_eq, HP. split; [done|]. apply Hf.
  - exists P. rewrite list_lookup_alter_ne by done. by repeat split.
Qed.

Lemma part_fields_kept__PinList_scan l k : stable part_fields_kept (_PinList_scan l k).
Proof.
  induction l as [|pin l IH]; simpl.
  - stable_walk part_fields_kept_refl part_fields_kept_trans idtac.
  - stable_walk part_fields_kept_refl part_fields_kept_trans ltac:(apply IH).
Qed.

Lemma part_fields_kept_loop self l :
  stable part_fields_kept (for_each l (_generate_pin_instances_body self)).
Proof.
  unfold _generate_pin_instances_body, ParticularPin___init__, _PinList___getitem__,
    Pin_name.
  stable_walk part_fields_kept_refl part_fields_kept_trans
    ltac:(first [ apply part_fields_kept__PinList_scan
                | apply part_fields_kept_alter; by intros []
                | by apply part_fields_kept_same ]).
Qed.

(** X11. The constructor stores its arguments as they are: the part that
    [Part(value, refdes, package, populated)] returns has the value given
    (the class's value when none is given), the package given (the class's
    when none is given), the populated flag given, and the reference
    designator exactly as given, in its own casing: unlike the setter, the
    constructor does not upper-case it, and [part.refdes] returns it
    verbatim. *)
Theorem constructor_keeps_refdes_verbatim (generated_refdes : nat → M string)
    (s s' : Store) (cls self : nat) (c : PartClass) (v pk : option string)
    (r : string) (pop : bool) :
  classes s !! cls = Some c →
  Part___init__ cls v (Some r) pk pop s = (s', Ok self) →
  Part_refdes generated_refdes self s' = (s', Ok r) ∧
  ∃ P, parts s' !! self = Some P ∧
       value P = match v with Some x => x | None => class_value c end ∧
       package P = match pk with Some x => Some x | None => class_package c end ∧
       populated P = pop.
Proof.
  intros Hc E. rewrite (Part___init___unfold _ _ _ _ _ _ _ Hc) in E.
  pose proof (part_fields_kept_loop (length (parts s))
                (enumerate_from 0 (map spec_of (PINS c)))
                (prepared cls c v (Some r) pk pop s)) as Hk.
  destruct (for_each _ _ (prepared cls c v (Some r) pk pop s)) as [s1 [[]|e]]; [|done].
  injection E as <- <-. simpl in Hk.
  destruct (Hk (length (parts s)) (set_pins [] (new_part cls c v (Some r) pk pop)))
    as (P & HP & _ & Hv & Hr & Hpk & Hpop).
  { simpl. by rewrite list_lookup_alter_eq, list_lookup_middle. }
  split.
  - unfold Part_refdes. munfold. simpl. rewrite HP. simpl in Hr. by rewrite Hr.
  - exists P. by repeat split.
Qed.

Lemma constructor_keeps_refdes_verbatim_witness :
  Part_refdes (fun _ => raise DanglingReference) 0 usb_built = (usb_built, Ok "cn1") ∧
  ∃ P, parts usb_built !! 0 = Some P ∧
       value P = match @None string with Some x => x | None => class_value Usb end ∧
       package P = match @None string with Some x => Some x | None => class_package Usb end ∧
       populated P = false.
Proof.
  assert (E : Part___init__ 0 None (Some "cn1") None false (run [SClass Usb] empty_store)
              = (usb_built, Ok 0)) by (vm_compute; reflexivity).
  exact (constructor_keeps_refdes_verbatim (fun _ => raise DanglingReference)
           (run [SClass Usb] empty_store) usb_built 0 0 Usb None None "cn1" false
           eq_refl E).
Defined.

(** X12. [part.refdes = x] stores [x.upper()]: reading the reference
    designator afterwards returns [x.upper()], whatever the part had before
    and without generating one; assigning the value read again changes
    nothing. *)
Theorem refdes_setter_then_getter (generated_refdes : nat → M string) (s : Store)
    (self : nat) (x : string) :
  is_Some (parts s !! self) →
  ∃ s1, Part_refdes_setter self x s = (s1, Ok tt) ∧
        Part_refdes generated_refdes self s1 = (s1, Ok (upper x)) ∧
        Part_refdes_setter self (upper x) s1 = (s1, Ok tt).
Proof.
  intros [P HP]. unfold Part_refdes_setter, Part_refdes. munfold. rewrite HP.
  eexists. split; [done|]. simpl. rewrite list_lookup_alter_eq, HP. simpl.
  split; [done|]. rewrite upper_idem. unfold with_parts. simpl. do 2 f_equal.
  rewrite list_alter_alter_eq. apply list_alter_ext; [|done]. by intros [] _.
Qed.

Lemma refdes_setter_then_getter_witness :
  ∃ s1, Part_refdes_setter 0 "r1" lone_resistor = (s1, Ok tt) ∧
        Part_refdes (fun _ => raise DanglingReference) 0 s1 = (s1, Ok (upper "r1")) ∧
        Part_refdes_setter 0 (upper "r1") s1 = (s1, Ok tt).
Proof.
  apply (refdes_setter_then_getter (fun _ => raise DanglingReference) lone_resistor 0 "r1").
  vm_compute. eauto.
Defined.

(** ** Looking pins up *)

Lemma concat_NoDup_index {A} (ls : list (list A)) : ∀ i j l1 l2 a,
  NoDup (concat ls) → ls !! i = Some l1 → ls !! j = Some l2 →
  a ∈ l1 → a ∈ l2 → i = j.
Proof.
  assert (Hin : ∀ (ls : list (list A)) j l a, ls !! j = Some l → a ∈ l → a ∈ concat ls).
  { intros ls0 j l a Hj Ha. apply list_elem_of_In, in_concat. exists l.
    split; apply list_elem_of_In; [|done]. apply list_elem_of_lookup. eauto. }
  induction ls as [|l ls IH]; intros i j l1 l2 a Hnd Hi Hj H1 H2; [done|].
  simpl in Hnd. apply NoDup_app in Hnd as (_ & Hdisj & Hnd).
  destruct i as [|i], j as [|j]; simpl in *.
  - done.
  - injection Hi as <-. destruct (Hdisj a H1). by eapply Hin.
  - injection Hj as <-. destruct (Hdisj a H2). by eapply Hin.
  - f_equal. by eapply IH.
Qed.

Lemma built_pin_in_map base specs i sp :
  NoDup (first_names specs) → specs !! i = Some sp → names sp ≠ [] →
  base + i ∈ values (pin_map base specs).
Proof.
  intros Hnd Hi Hn. destruct (names sp) as [|nm rest] eqn:En; [done|].
  pose proof (take_drop_middle specs i sp Hi) as Hsplit.
  assert (Hlen : length (take i specs) = i).
  { apply length_take_le. apply lookup_lt_Some in Hi. lia. }
  assert (Hg : getitem nm (pin_map base (take i specs ++ sp :: drop (S i) specs))
               = Some (base + length (take i specs))).
  { eapply pin_map_last; [done|].
    intros sj Hsj Hhd. apply list_elem_of_lookup in Hsj as [j Hj].
    rewrite lookup_drop in Hj.
    assert (H1 : first_names specs !! i = Some (Some nm)).
    { unfold first_names. rewrite list_lookup_fmap, Hi. simpl. by rewrite En. }
    assert (H2 : first_names specs !! (S i + j) = Some (Some nm)).
    { unfold first_names. rewrite list_lookup_fmap, Hj. simpl. by rewrite Hhd. }
    pose proof (NoDup_lookup _ _ _ _ Hnd H1 H2). lia. }
  rewrite Hsplit, Hlen in Hg. apply getitem_Some in Hg. unfold values. apply list_elem_of_fmap.
  by exists (nm, base + i).
Qed.

Lemma NoDup_names_first (specs : list Pin) :
  (∀ j sj, specs !! j = Some sj → names sj ≠ []) →
  NoDup (concat (map names specs)) → NoDup (first_names specs).
Proof.
  intros Hne Hnd. apply NoDup_alt. intros i j x Hi Hj.
  unfold first_names in Hi, Hj. rewrite list_lookup_fmap in Hi, Hj.
  destruct (specs !! i) as [si|] eqn:Ei; [|done].
  destruct (specs !! j) as [sj|] eqn:Ej; [|done].
  simpl in Hi, Hj. injection Hi as Hi. injection Hj as Hj.
  pose proof (Hne i si Ei) as Hni.
  destruct (names si) as [|a ri] eqn:Eni; [done|]. simpl in Hi. subst x.
  destruct (names sj) as [|b rj] eqn:Enj; [done|]. simpl in Hj. injection Hj as ->.
  eapply (concat_NoDup_index (map names specs) i j (names si) (names sj) a); [done|..].
  - by rewrite list_lookup_fmap, Ei.
  - by rewrite list_lookup_fmap, Ej.
  - rewrite Eni. apply list_elem_of_here.
  - rewrite Enj. apply list_elem_of_here.
Qed.

(** X13. Insert and look up: in a part whose aliases are all different,
    looking a pin up in [part.pins] under any of its aliases, in any
    casing, first alias or not, returns that pin and changes nothing. *)
Theorem lookup_by_any_alias (s s' : Store) (cls self : nat) (c : PartClass)
    (v r pk : option string) (pop : bool) (i : nat) (e : pins_entry) (k : string)
    (Pt : Part) :
  classes s !! cls = Some c →
  Part___init__ cls v r pk pop s = (s', Ok self) →
  NoDup (concat (map names (map spec_of (PINS c)))) →
  PINS c !! i = Some e → upper k ∈ names (spec_of e) →
  parts s' !! self = Some Pt →
  _PinList___getitem__ (pins Pt) k s' = (s', Ok (length (ppins s) + i)).
Proof.
  intros Hc E Hnd He Hk HPt.
  destruct (Part___init___Ok _ _ _ _ _ _ _ _ _ Hc E) as (-> & B & _).
  destruct (b_part _ _ _ _ B) as (Pt' & HPt' & Hpins).
  assert (Pt' = Pt) as -> by congruence. rewrite Hpins.
  assert (Hs : map spec_of (PINS c) !! i = Some (spec_of e))
    by (by rewrite list_lookup_fmap, He).
  pose proof (_PinList___getitem___pure (pin_map (length (ppins s)) (map spec_of (PINS c)))
                k s') as Hpure.
  destruct (_PinList___getitem__ _ k s') as [s1 [p|x]] eqn:Eg; simpl in Hpure; subst s1.
  - f_equal. f_equal.
    assert (Eg' : snd (_PinList___getitem__
                         (pin_map (length (ppins s)) (map spec_of (PINS c))) k s') = Ok p)
      by (by rewrite Eg).
    destruct (_PinList___getitem___Ok _ _ _ _ _ _ B Eg')
      as (j & sj & wl & _ & -> & Hj & Hin & _).
    f_equal. symmetry.
    eapply (concat_NoDup_index _ i j (names (spec_of e)) (names sj) (upper k)); [done|..];
      [by rewrite list_lookup_fmap, Hs | by rewrite list_lookup_fmap, Hj | done | done].
  - assert (Eg' : snd (_PinList___getitem__
                         (pin_map (length (ppins s)) (map spec_of (PINS c))) k s')
                  = Raise x) by (by rewrite Eg).
    destruct (_PinList___getitem___Raise _ _ _ _ _ _ B Eg') as [_ Hmiss].
    destruct (Hmiss i (spec_of e) Hs); [|done].
    apply (built_pin_in_map _ _ i (spec_of e)); [|done|by apply (b_names _ _ _ _ B i)].
    apply NoDup_names_first; [apply (b_names _ _ _ _ B)|done].
Qed.

Lemma lookup_by_any_alias_witness :
  _PinList___getitem__ [("VBUS", 0); ("DM", 1); ("DP", 2); ("GND", 3)] "d+" usb_built
  = (usb_built, Ok (length (ppins (run [SClass Usb] empty_store)) + 2)).
Proof.
  assert (E : Part___init__ 0 None (Some "cn1") None false (run [SClass Usb] empty_store)
              = (usb_built, Ok 0)) by (vm_compute; reflexivity).
  refine (lookup_by_any_alias (run [SClass Usb] empty_store) usb_built 0 0 Usb
            None (Some "cn1") None false 2 (Plain (NameSeq ["dp"; "d+"])) "d+"
            (mkPart 0 "" (Some "cn1") None false
               [("VBUS", 0); ("DM", 1); ("DP", 2); ("GND", 3)]
               [("VBUS", 0); ("DM", 1); ("D-", 1); ("DP", 2); ("D+", 2); ("GND", 3)])
            eq_refl E _ eq_refl _ _).
  - apply (bool_decide_unpack (NoDup (concat (map names (map spec_of (PINS Usb)))))).
    vm_compute. exact I.
  - vm_compute. apply list_elem_of_further, list_elem_of_here.
  - vm_compute. reflexivity.
Defined.

(** X14. A miss: in a part that [Part(...)] returned, looking up a name
    that none of its pins carries, after upper-casing, raises [KeyError]
    (the key lookup fails and so does the scan through all the names) and
    changes nothing. *)
Theorem lookup_of_unknown_name (s s' : Store) (cls self : nat) (c : PartClass)
    (v r pk : option string) (pop : bool) (k : string) (Pt : Part) :
  classes s !! cls = Some c →
  Part___init__ cls v r pk pop s = (s', Ok self) →
  (∀ e, e ∈ PINS c → upper k ∉ names (spec_of e)) →
  parts s' !! self = Some Pt →
  _PinList___getitem__ (pins Pt) k s' = (s', Raise UnknownPin).
Proof.
  intros Hc E Hnone HPt.
  destruct (Part___init___Ok _ _ _ _ _ _ _ _ _ Hc E) as (-> & B & _).
  destruct (b_part _ _ _ _ B) as (Pt' & HPt' & Hpins).
  assert (Pt' = Pt) as -> by congruence. rewrite Hpins.
  pose proof (_PinList___getitem___pure (pin_map (length (ppins s)) (map spec_of (PINS c)))
                k s') as Hpure.
  destruct (_PinList___getitem__ _ k s') as [s1 [p|x]] eqn:Eg; simpl in Hpure; subst s1.
  - assert (Eg' : snd (_PinList___getitem__
                         (pin_map (length (ppins s)) (map spec_of (PINS c))) k s') = Ok p)
      by (by rewrite Eg).
    destruct (_PinList___getitem___Ok _ _ _ _ _ _ B Eg')
      as (j & sj & wl & _ & _ & Hj & Hin & _).
    rewrite list_lookup_fmap in Hj. destruct (PINS c !! j) as [e|] eqn:He; [|done].
    injection Hj as <-. destruct (Hnone e); [|done]. apply list_elem_of_lookup. eauto.
  - assert (Eg' : snd (_PinList___getitem__
                         (pin_map (length (ppins s)) (map spec_of (PINS c))) k s')
                  = Raise x) by (by rewrite Eg).
    by destruct (_PinList___getitem___Raise _ _ _ _ _ _ B Eg') as [-> _].
Qed.

Lemma lookup_of_unknown_name_witness :
  _PinList___getitem__ [("VBUS", 0); ("DM", 1); ("DP", 2); ("GND", 3)] "id" usb_built
  = (usb_built, Raise UnknownPin).
Proof.
  assert (E : Part___init__ 0 None (Some "cn1") None false (run [SClass Usb] empty_store)
              = (usb_built, Ok 0)) by (vm_compute; reflexivity).
  refine (lookup_of_unknown_name (run [SClass Usb] empty_store) usb_built 0 0 Usb
            None (Some "cn1") None false "id"
            (mkPart 0 "" (Some "cn1") None false
               [("VBUS", 0); ("DM", 1); ("DP", 2); ("GND", 3)]
               [("VBUS", 0); ("DM", 1); ("D-", 1); ("DP", 2); ("D+", 2); ("GND", 3)])
            eq_refl E _ _).
  - intros e He. apply (bool_decide_unpack _).
    apply list_elem_of_In in He. simpl in He.
    destruct He as [<-|[<-|[<-|[<-|[]]]]]; vm_compute; exact I.
  - vm_compute. reflexivity.
Defined.

(** ** Pins by position *)

Lemma values_snoc {K V} (d : list (K * V)) k v : values (d ++ [(k, v)]) = values d ++ [v].
Proof. unfold values. by rewrite map_app. Qed.

(** With first names all different the pin map lists the pins in
    declaration order. *)
Lemma pin_map_values base specs :
  (∀ j sj, specs !! j = Some sj → names sj ≠ []) →
  NoDup (first_names specs) →
  values (pin_map base specs) = seq base (length specs).
Proof.
  induction specs as [|sp specs IH] using rev_ind; intros Hne Hnd; [done|].
  unfold first_names in Hnd. rewrite map_app in Hnd. simpl in Hnd.
  apply NoDup_app in Hnd as (Hnd & Hdisj & _).
  rewrite pin_map_snoc. unfold pin_map_step. simpl.
  assert (Hsp : names sp ≠ []) by (apply (Hne (length specs)); by apply list_lookup_middle).
  destruct (names sp) as [|nm rest] eqn:En; [done|].
  rewrite setitem_fresh.
  - rewrite values_snoc, IH, length_app; [|intros j sj Hj; apply (Hne j);
                                            by apply lookup_app_l_Some|done].
    simpl. by rewrite Nat.add_1_r, seq_S.
  - intros Hin. unfold keys in Hin. apply list_elem_of_fmap in Hin as ([k p] & Hk & Hin).
    simpl in Hk. subst k. apply pin_map_elem in Hin as (j & sj & rest' & _ & Hj & Hn).
    apply (Hdisj (Some nm)).
    + apply list_elem_of_fmap. exists sj. rewrite Hn. split; [done|].
      apply list_elem_of_lookup. eauto.
    + simpl. apply list_elem_of_here.
Qed.

(** X15. [part.pins[i]] with an integer: in a part whose pins have
    different first names, position [i] from 0 gives the pin declared at
    position [i], a negative position counts from the last pin ([-1] is the
    last one), and a position outside both ranges raises [IndexError];
    nothing changes. *)
Theorem lookup_by_position (s s' : Store) (cls self : nat) (c : PartClass)
    (v r pk : option string) (pop : bool) (z : Z) (Pt : Part) :
  classes s !! cls = Some c →
  Part___init__ cls v r pk pop s = (s', Ok self) →
  NoDup (first_names (map spec_of (PINS c))) →
  parts s' !! self = Some Pt →
  ((0 ≤ z < Z.of_nat (length (PINS c)))%Z →
   _PinList___getitem___int (pins Pt) z s' = (s', Ok (length (ppins s) + Z.to_nat z))) ∧
  ((- Z.of_nat (length (PINS c)) ≤ z < 0)%Z →
   _PinList___getitem___int (pins Pt) z s'
     = (s', Ok (length (ppins s) + Z.to_nat (z + Z.of_nat (length (PINS c)))))) ∧
  ((z < - Z.of_nat (length (PINS c)) ∨ Z.of_nat (length (PINS c)) ≤ z)%Z →
   _PinList___getitem___int (pins Pt) z s' = (s', Raise IndexError_names)).
Proof.
  intros Hc E Hnd HPt.
  destruct (Part___init___Ok _ _ _ _ _ _ _ _ _ Hc E) as (-> & B & _).
  destruct (b_part _ _ _ _ B) as (Pt' & HPt' & Hpins).
  assert (Pt' = Pt) as -> by congruence.
  unfold _PinList___getitem___int. rewrite Hpins.
  rewrite (pin_map_values _ _ (b_names _ _ _ _ B) Hnd).
  rewrite length_seq, length_map.
  set (n := Z.of_nat (length (PINS c))). repeat split; intros Hz.
  - rewrite (proj2 (Z.ltb_ge z 0)) by lia.
    rewrite (proj2 (Z.leb_le 0 z)), (proj2 (Z.ltb_lt z n)) by lia. simpl.
    rewrite lookup_seq_lt by lia. done.
  - rewrite (proj2 (Z.ltb_lt z 0)) by lia.
    rewrite (proj2 (Z.leb_le 0 (z + n))), (proj2 (Z.ltb_lt (z + n) n)) by lia. simpl.
    rewrite lookup_seq_lt by lia. done.
  - destruct (Z.ltb_spec z 0).
    + destruct Hz as [Hz|Hz]; [|lia].
      by rewrite (proj2 (Z.leb_gt 0 (z + n))) by lia.
    + destruct Hz as [Hz|Hz]; [lia|].
      rewrite (proj2 (Z.ltb_ge z n)) by lia. by rewrite andb_false_r.
Qed.

Lemma lookup_by_position_witness :
  ((0 ≤ -1 < Z.of_nat (length (PINS Usb)))%Z →
   _PinList___getitem___int [("VBUS", 0); ("DM", 1); ("DP", 2); ("GND", 3)] (-1) usb_built
     = (usb_built, Ok (length (ppins (run [SClass Usb] empty_store)) + Z.to_nat (-1)))) ∧
  ((- Z.of_nat (length (PINS Usb)) ≤ -1 < 0)%Z →
   _PinList___getitem___int [("VBUS", 0); ("DM", 1); ("DP", 2); ("GND", 3)] (-1) usb_built
     = (usb_built, Ok (length (ppins (run [SClass Usb] empty_store))
                       + Z.to_nat (-1 + Z.of_nat (length (PINS Usb)))))) ∧
  ((-1 < - Z.of_nat (length (PINS Usb)) ∨ Z.of_nat (length (PINS Usb)) ≤ -1)%Z →
   _PinList___getitem___int [("VBUS", 0); ("DM", 1); ("DP", 2); ("GND", 3)] (-1) usb_built
     = (usb_built, Raise IndexError_names)).
Proof.
  assert (E : Part___init__ 0 None (Some "cn1") None false (run [SClass Usb] empty_store)
              = (usb_built, Ok 0)) by (vm_compute; reflexivity).
  refine (lookup_by_position (run [SClass Usb] empty_store) usb_built 0 0 Usb
            None (Some "cn1") None false (-1)
            (mkPart 0 "" (Some "cn1") None false
               [("VBUS", 0); ("DM", 1); ("DP", 2); ("GND", 3)]
               [("VBUS", 0); ("DM", 1); ("D-", 1); ("DP", 2); ("D+", 2); ("GND", 3)])
            eq_refl E _ _).
  - apply (bool_decide_unpack (NoDup (first_names (map spec_of (PINS Usb))))).
    vm_compute. exact I.
  - vm_compute. reflexivity.
Defined.

(** ** A part's pins as a group *)

(** X16. [net << part.pins]: iterating a pin list yields the pins, so that
    connecting the pin list of a part just built (its pins having different
    first names) to an existing net returns and appends all the pins of the
    part to the net, in declaration order, each with the direction of the
    call. *)
Theorem connect_all_pins_of_a_part (script : list stmt) (s' : Store) (cls self n : nat)
    (c : PartClass) (v r pk : option string) (pop : bool) (Pt : Part)
    (d : ConnectDirection.t) (t : PinType.t) :
  classes (run script empty_store) !! cls = Some c →
  Part___init__ cls v r pk pop (run script empty_store) = (s', Ok self) →
  NoDup (first_names (map spec_of (PINS c))) →
  is_Some (nets s' !! n) →
  parts s' !! self = Some Pt →
  ∃ s2, Net_connect n (VIter (map VPin (_PinList___iter__ (pins Pt)))) d t s' = (s2, Ok tt) ∧
        members s2 n
          = members s' n
              ++ map (fun p => (p, d))
                   (seq (length (ppins (run script empty_store))) (length (PINS c))) ∧
        ∀ i, i < length (PINS c) →
             pin_net s2 (length (ppins (run script empty_store)) + i) = Some n.
Proof.
  set (s := run script empty_store). intros Hc E Hnd Hn HPt.
  destruct (Part___init___Ok _ _ _ _ _ _ _ _ _ Hc E) as (-> & B & _).
  destruct (b_part _ _ _ _ B) as (Pt' & HPt' & Hpins).
  assert (Pt' = Pt) as -> by congruence.
  unfold _PinList___iter__. rewrite Hpins.
  rewrite (pin_map_values _ _ (b_names _ _ _ _ B) Hnd), length_map.
  assert (Hmc : members_connected s') .
  { pose proof (mc_kept_Part___init__ cls v r pk pop s) as H. rewrite E in H.
    apply H. apply members_connected_reachable. by exists script. }
  destruct (connect_fresh_group s' n d t (seq (length (ppins s)) (length (PINS c)))
              Hmc Hn) as (s2 & E2 & Hm & Hp & _).
  - apply NoDup_seq.
  - intros p Hp. apply list_elem_of_lookup in Hp as [i Hi].
    apply lookup_seq in Hi as [-> Hi].
    assert (i < length (map spec_of (PINS c))) as Hlt by (by rewrite length_map).
    apply lookup_lt_is_Some in Hlt as [sp Hsp].
    destruct (b_pin _ _ _ _ B i sp Hsp) as (wl & HP & _).
    unfold pin_net. rewrite HP. eauto.
  - exists s2. split; [done|]. split; [done|]. intros i Hi. apply Hp.
    apply list_elem_of_lookup. exists i. by apply lookup_seq_lt.
Qed.

Lemma connect_all_pins_of_a_part_witness :
  ∃ s2, Net_connect 0
          (VIter (map VPin (_PinList___iter__ [("VBUS", 4); ("DM", 5); ("DP", 6); ("GND", 7)])))
          ConnectDirection.OUT PinType.PRIMARY
          (step (SPart 0 None None None true)
             (run (usb_script ++ [SPinNet 0]) empty_store)) = (s2, Ok tt) ∧
        members s2 0
          = members (step (SPart 0 None None None true)
                       (run (usb_script ++ [SPinNet 0]) empty_store)) 0
              ++ map (fun p => (p, ConnectDirection.OUT))
                   (seq (length (ppins (run (usb_script ++ [SPinNet 0]) empty_store)))
                      (length (PINS Usb))) ∧
        ∀ i, i < length (PINS Usb) →
             pin_net s2 (length (ppins (run (usb_script ++ [SPinNet 0]) empty_store)) + i)
               = Some 0.
Proof.
  refine (connect_all_pins_of_a_part (usb_script ++ [SPinNet 0]) _ 0 1 0
            (mkPartClass (map PinInst (map spec_of (PINS Usb))) "CN" "" None)
            None None None true
            (mkPart 0 "" None None true
               [("VBUS", 4); ("DM", 5); ("DP", 6); ("GND", 7)]
               [("VBUS", 4); ("DM", 5); ("D-", 5); ("DP", 6); ("D+", 6); ("GND", 7)])
            ConnectDirection.OUT PinType.PRIMARY _ _ _ _ _).
  - vm_compute. reflexivity.
  - vm_compute. reflexivity.
  - apply (bool_decide_unpack (NoDup (first_names (map spec_of (PINS Usb))))).
    vm_compute. exact I.
  - vm_compute. eauto.
  - vm_compute. reflexivity.
Defined.

(** ** Normalizing [PINS] *)

Lemma pin_hooks_PinInst reg l : pin_hooks reg (map PinInst l) = [].
Proof. unfold pin_hooks. induction l as [|p l IH]; simpl; [done|exact IH]. Qed.

Lemma spec_of_PinInst l : map spec_of (map PinInst l) = l.
Proof. induction l as [|p l IH]; simpl; [done|by rewrite IH]. Qed.

(** The class after [Part(...)], returned or raised. *)
Lemma Part___init___classes cls c v r pk pop s :
  classes s !! cls = Some c →
  classes (fst (Part___init__ cls v r pk pop s))
  = alter (set_PINS (map PinInst (map spec_of (PINS c)))) cls (classes s).
Proof.
  intros Hc. rewrite (Part___init___unfold _ _ _ _ _ _ _ Hc).
  pose proof (loop_frame_loop (length (parts s)) (enumerate_from 0 (map spec_of (PINS c)))
                (prepared cls c v r pk pop s)) as F.
  destruct (for_each _ _ (prepared cls c v r pk pop s)) as [s1 [[]|e]];
    simpl in *; by destruct F.
Qed.

(** The log after [Part(...)]: the [Pin] hooks of the bare entries, then
    the [Part] hooks when the constructor returns and nothing more when it
    raises. *)
Lemma Part___init___hook_log cls c v r pk pop s :
  classes s !! cls = Some c →
  hook_log (fst (Part___init__ cls v r pk pop s))
  = hook_log s ++ pin_hooks (Pin_plugins s) (PINS c)
      ++ match snd (Part___init__ cls v r pk pop s) with
         | Ok self => map (fun pl => (pl, IPart self)) (Part_plugins s)
         | Raise _ => []
         end
  ∧ Part_plugins (fst (Part___init__ cls v r pk pop s)) = Part_plugins s.
Proof.
  intros Hc. rewrite (Part___init___unfold _ _ _ _ _ _ _ Hc).
  pose proof (loop_frame_loop (length (parts s)) (enumerate_from 0 (map spec_of (PINS c)))
                (prepared cls c v r pk pop s)) as F.
  destruct (for_each _ _ (prepared cls c v r pk pop s)) as [s1 [[]|e]];
    simpl in *; destruct F; simpl in *.
  - rewrite lf_hook_log0, lf_Part_plugins0. simpl. by rewrite <- app_assoc.
  - rewrite lf_hook_log0, lf_Part_plugins0. simpl. by rewrite app_nil_r.
Qed.

(** X17. [PINS] is normalized once, in place: after the first [Part()] of a
    class, returned or raised, the class's list holds a [Pin] for every
    entry (bare names turned into upper-case templates, [Pin] entries
    untouched); a later [Part()] of the same class, returned or raised,
    leaves the list as it is and runs no [Pin] hook: the log gains the
    [Part] hooks when it returns and nothing when it raises. *)
Theorem PINS_normalized_once (s : Store) (cls : nat) (c : PartClass)
    (v r pk v2 r2 pk2 : option string) (pop pop2 : bool) :
  classes s !! cls = Some c →
  PINS <$> classes (fst (Part___init__ cls v r pk pop s)) !! cls
    = Some (map PinInst (map spec_of (PINS c))) ∧
  classes (fst (Part___init__ cls v2 r2 pk2 pop2 (fst (Part___init__ cls v r pk pop s))))
    !! cls
    = classes (fst (Part___init__ cls v r pk pop s)) !! cls ∧
  hook_log (fst (Part___init__ cls v2 r2 pk2 pop2 (fst (Part___init__ cls v r pk pop s))))
    = hook_log (fst (Part___init__ cls v r pk pop s))
        ++ match snd (Part___init__ cls v2 r2 pk2 pop2
                        (fst (Part___init__ cls v r pk pop s))) with
           | Ok p2 => map (fun pl => (pl, IPart p2))
                        (Part_plugins (fst (Part___init__ cls v r pk pop s)))
           | Raise _ => []
           end.
Proof.
  intros Hc. set (s1 := fst (Part___init__ cls v r pk pop s)).
  assert (Hc1 : classes s1 !! cls
                = Some (set_PINS (map PinInst (map spec_of (PINS c))) c)).
  { unfold s1. rewrite (Part___init___classes _ _ _ _ _ _ _ Hc).
    by rewrite list_lookup_alter_eq, Hc. }
  split; [by rewrite Hc1|]. split.
  - rewrite (Part___init___classes cls _ v2 r2 pk2 pop2 s1 Hc1).
    rewrite list_lookup_alter_eq, Hc1. simpl. by rewrite spec_of_PinInst.
  - destruct (Part___init___hook_log cls _ v2 r2 pk2 pop2 s1 Hc1) as [Hlog _].
    rewrite Hlog. simpl. by rewrite pin_hooks_PinInst.
Qed.

Lemma PINS_normalized_once_witness :
  (PINS <$> classes (fst (Part___init__ 0 None None None true
                            (run [SPlugin 3 [CPin]; SPlugin 4 [CPart]; SClass Usb]
                               empty_store))) !! 0
     = Some (map PinInst (map spec_of (PINS Usb))) ∧
   classes (fst (Part___init__ 0 None None None true
                   (fst (Part___init__ 0 None None None true
                           (run [SPlugin 3 [CPin]; SPlugin 4 [CPart]; SClass Usb]
                              empty_store))))) !! 0
     = classes (fst (Part___init__ 0 None None None true
                       (run [SPlugin 3 [CPin]; SPlugin 4 [CPart]; SClass Usb]
                          empty_store))) !! 0 ∧
   hook_log (fst (Part___init__ 0 None None None true
                    (fst (Part___init__ 0 None None None true
                            (run [SPlugin 3 [CPin]; SPlugin 4 [CPart]; SClass Usb]
                               empty_store)))))
     = hook_log (fst (Part___init__ 0 None None None true
                        (run [SPlugin 3 [CPin]; SPlugin 4 [CPart]; SClass Usb]
                           empty_store)))
         ++ [(4, IPart 1)]) ∧
  (PINS <$> classes (fst (Part___init__ 0 None None None true
                            (run [SPlugin 4 [CPart]; SClass ForwardWell] empty_store))) !! 0
     = Some (map PinInst (map spec_of (PINS ForwardWell))) ∧
   classes (fst (Part___init__ 0 None None None true
                   (fst (Part___init__ 0 None None None true
                           (run [SPlugin 4 [CPart]; SClass ForwardWell] empty_store))))) !! 0
     = classes (fst (Part___init__ 0 None None None true
                       (run [SPlugin 4 [CPart]; SClass ForwardWell] empty_store))) !! 0 ∧
   hook_log (fst (Part___init__ 0 None None None true
                    (fst (Part___init__ 0 None None None true
                            (run [SPlugin 4 [CPart]; SClass ForwardWell] empty_store)))))
     = hook_log (fst (Part___init__ 0 None None None true
                        (run [SPlugin 4 [CPart]; SClass ForwardWell] empty_store)))
         ++ []).
Proof.
  split.
  - exact (PINS_normalized_once
             (run [SPlugin 3 [CPin]; SPlugin 4 [CPart]; SClass Usb] empty_store) 0 Usb
             None None None None None None true true eq_refl).
  - exact (PINS_normalized_once
             (run [SPlugin 4 [CPart]; SClass ForwardWell] empty_store) 0 ForwardWell
             None None None None None None true true eq_refl).
Defined.
